(** * suchetBackend: the in-memory summarisation and grouping engine

    A shallow embedding of [numericColumns] and [getDatasetsSummary] (the
    module the server imports as [./loadData.js]) and of the grouping loop of
    the [/group] route of the server, together with the part of the
    ECMAScript runtime these functions rely on: [Number(...)] on cell values,
    [isNaN], [String.prototype.trim], [Math.min], [Math.max], IEEE 754
    binary64 addition and division, property reads and assignments on plain
    objects, and the insertion-ordered [Map]. The loader ([readCsvIfExists],
    [loadAllData]), the port option of the connection pool and the data
    routes with their [ensureLoaded] middleware are embedded as well, over a
    file system and a CSV parser taken as parameters.

    Conventions of the model.
    - A JavaScript string is its sequence of UTF-16 code units.
    - A JavaScript number is a binary64 value, [spec_float] at precision 53;
      all NaNs are one value, as they are for a JavaScript program.
    - A row is a plain object: the list of its own enumerable properties in
      the order [Object.keys] lists them, over the properties that every
      plain object inherits from [Object.prototype]. The store is the list
      of its entries in the order of [Object.entries]; its keys are the names
      of the datasets.
    - The objects [summary] and [stats] are lists of entries in the order of
      the assignments; the properties below only look entries up by key.
    - Array lengths and group counters are natural numbers: an array has
      fewer than 2^32 elements, so these numbers are exact in binary64.
    - A call that spreads an array passes one argument for each element and
      throws a RangeError beyond the limit of the engine, a parameter of the
      definitions that make the call. *)

From Stdlib Require Import ZArith NArith List Bool String Ascii Lia.
From Stdlib Require Import Sorting.Permutation.
From Stdlib Require Import Floats.SpecFloat.
Import ListNotations.

Set Implicit Arguments.

(** ** Strings *)

Module JsString.

Definition code_unit := N.
Definition t := list code_unit.

(** An ASCII literal as a JavaScript string. *)
Definition js (s : string) : t :=
  map N_of_ascii (list_ascii_of_string s).

Definition eqb (a b : t) : bool :=
  if list_eq_dec N.eq_dec a b then true else false.

(** WhiteSpace and LineTerminator of ECMAScript: the code units removed by
    [trim] and skipped around a numeric string by [Number]. *)
Definition is_white_space (c : code_unit) : bool :=
  ((9 <=? c) && (c <=? 13) || (c =? 32) || (c =? 160) || (c =? 5760)
   || (8192 <=? c) && (c <=? 8202) || (c =? 8232) || (c =? 8233)
   || (c =? 8239) || (c =? 8287) || (c =? 12288) || (c =? 65279))%N.

Fixpoint trimStart (s : t) : t :=
  match s with
  | c :: s' => if is_white_space c then trimStart s' else s
  | [] => []
  end.

Definition trimEnd (s : t) : t := rev (trimStart (rev s)).

Definition trim (s : t) : t := trimEnd (trimStart s).

End JsString.

Definition jsstring : Type := JsString.t.
Definition js : string -> jsstring := JsString.js.

(** ** Numbers *)

Module JsNumber.

Definition t := spec_float.

Definition prec : Z := 53.
Definition emax : Z := 1024.

Definition NaN : t := S754_nan.
Definition pos_zero : t := S754_zero false.
Definition neg_zero : t := S754_zero true.
Definition pos_infinity : t := S754_infinity false.
Definition neg_infinity : t := S754_infinity true.

Definition add : t -> t -> t := SFadd prec emax.
Definition div : t -> t -> t := SFdiv prec emax.
Definition ltb : t -> t -> bool := SFltb.
Definition leb : t -> t -> bool := SFleb.

Definition isNaN (x : t) : bool :=
  match x with S754_nan => true | _ => false end.

(** The Number value for an integer: round to nearest, ties to even. *)
Definition of_Z (z : Z) : t := binary_normalize prec emax z 0 false.
Definition of_nat (n : nat) : t := of_Z (Z.of_nat n).

(** The Number value for the rational [n / d], with sign [s]. *)
Definition round_ratio (s : bool) (n d : positive) : t :=
  let '(mz, ez, lz) := SFdiv_core_binary prec emax (Zpos n) 0 (Zpos d) 0 in
  binary_round_aux prec emax s mz ez lz.

(** The Number value for [m * 10^p], with sign [s]; a zero keeps the sign. *)
Definition of_decimal (s : bool) (m : N) (p : Z) : t :=
  match m with
  | N0 => S754_zero s
  | Npos m' =>
      match p with
      | Zneg k => round_ratio s m' (Pos.pow 10 k)
      | _ => binary_normalize prec emax
               (cond_Zopp s (Zpos m' * 10 ^ p)) 0 s
      end
  end.

(** *** StringToNumber

    The grammar StringNumericLiteral: optional white space around a
    StrDecimalLiteral (optional sign; [Infinity], or digits with an optional
    fraction and exponent) or an unsigned binary, octal or hexadecimal
    integer literal. The empty literal is +0; a string outside the grammar
    is NaN. *)

Definition is_digit (c : N) : bool := ((48 <=? c) && (c <=? 57))%N.

(** The longest prefix of decimal digits: the value accumulated on [acc],
    the number of digits read added to [len], and the rest. *)
Fixpoint read_digits (s : jsstring) (acc : N) (len : Z)
  : N * Z * jsstring :=
  match s with
  | c :: s' =>
      if is_digit c
      then read_digits s' (10 * acc + (c - 48))%N (len + 1)%Z
      else (acc, len, s)
  | [] => (acc, len, [])
  end.

(** ExponentPart, which must end the literal; no exponent is exponent 0. *)
Definition read_exponent (s : jsstring) : option Z :=
  match s with
  | [] => Some 0%Z
  | c :: s1 =>
      if ((c =? 101) || (c =? 69))%N then
        let '(sg, s2) :=
          match s1 with
          | 43%N :: s2 => (false, s2)
          | 45%N :: s2 => (true, s2)
          | _ => (false, s1)
          end in
        match read_digits s2 0%N 0%Z with
        | (v, len, []) =>
            if (0 <? len)%Z then Some (cond_Zopp sg (Z.of_N v)) else None
        | _ => None
        end
      else None
  end.

(** StrUnsignedDecimalLiteral, under the sign [sg]. *)
Definition unsigned_decimal (sg : bool) (s : jsstring) : t :=
  if JsString.eqb s (js "Infinity") then S754_infinity sg else
  let '(i, ni, s1) := read_digits s 0%N 0%Z in
  let '(m, nf, s2) :=
    match s1 with
    | 46%N :: s1' => read_digits s1' i 0%Z
    | _ => (i, 0%Z, s1)
    end in
  if (0 <? ni + nf)%Z then
    match read_exponent s2 with
    | Some e => of_decimal sg m (e - nf)
    | None => NaN
    end
  else NaN.

Definition digit_value (radix c : N) : option N :=
  let d :=
    (if (48 <=? c) && (c <=? 57) then Some (c - 48)
     else if (97 <=? c) && (c <=? 102) then Some (c - 87)
     else if (65 <=? c) && (c <=? 70) then Some (c - 55)
     else None)%N in
  match d with
  | Some v => if (v <? radix)%N then Some v else None
  | None => None
  end.

Fixpoint read_radix (radix : N) (s : jsstring) (acc : N) : option N :=
  match s with
  | [] => Some acc
  | c :: s' =>
      match digit_value radix c with
      | Some d => read_radix radix s' (radix * acc + d)%N
      | None => None
      end
  end.

(** NonDecimalIntegerLiteral: [0x], [0o] or [0b] and at least one digit. *)
Definition non_decimal (s : jsstring) : option t :=
  match s with
  | 48%N :: c :: ((_ :: _) as ds) =>
      let radix :=
        (if (c =? 120) || (c =? 88) then Some 16
         else if (c =? 111) || (c =? 79) then Some 8
         else if (c =? 98) || (c =? 66) then Some 2
         else None)%N in
      match radix with
      | Some r =>
          match read_radix r ds 0%N with
          | Some v => Some (of_Z (Z.of_N v))
          | None => None
          end
      | None => None
      end
  | _ => None
  end.

Definition StringToNumber (s : jsstring) : t :=
  match JsString.trim s with
  | [] => pos_zero
  | 43%N :: s' => unsigned_decimal false s'
  | 45%N :: s' => unsigned_decimal true s'
  | s' =>
      match non_decimal s' with
      | Some v => v
      | None => unsigned_decimal false s'
      end
  end.

(** *** Math.min and Math.max over an argument list

    The functions themselves, on the arguments they receive. The limit of
    an engine on the number of arguments of a call is no part of them: it is
    in [spread_call], where the code calls them with a spread array. *)

Definition is_pos_zero (x : t) : bool :=
  match x with S754_zero false => true | _ => false end.
Definition is_neg_zero (x : t) : bool :=
  match x with S754_zero true => true | _ => false end.

Fixpoint min_from (lowest : t) (l : list t) : t :=
  match l with
  | [] => lowest
  | x :: l' =>
      if isNaN x then NaN else
      let lowest :=
        if is_neg_zero x && is_pos_zero lowest then neg_zero else lowest in
      let lowest := if ltb x lowest then x else lowest in
      min_from lowest l'
  end.

Fixpoint max_from (highest : t) (l : list t) : t :=
  match l with
  | [] => highest
  | x :: l' =>
      if isNaN x then NaN else
      let highest :=
        if is_pos_zero x && is_neg_zero highest then pos_zero else highest in
      let highest := if ltb highest x then x else highest in
      max_from highest l'
  end.

Definition Math_min (l : list t) : t := min_from pos_infinity l.
Definition Math_max (l : list t) : t := max_from neg_infinity l.

End JsNumber.

Definition number : Type := JsNumber.t.


(** ** Values, objects and maps *)

(** The values a cell or a property read can hold. Rows parsed from CSV hold
    strings. Reading a property a row does not have gives what the row
    inherits from [Object.prototype]: a built-in function, given by its name,
    or, for [__proto__], the prototype object itself; it gives [Undefined]
    when [Object.prototype] has no such property either. *)
Inductive value : Type :=
| Undefined
| Null
| Str (s : jsstring)
| NativeFunction (name : jsstring)
| PrototypeObject.

(** [String(v)]. A built-in function prints as its name over a body of
    native code, and [Object.prototype] as a plain object. *)
Definition ToString (v : value) : jsstring :=
  match v with
  | Undefined => js "undefined"
  | Null => js "null"
  | Str s => s
  | NativeFunction name => js "function " ++ name ++ js "() { [native code] }"
  | PrototypeObject => js "[object Object]"
  end.

(** [Number(v)]. An object is first converted to a primitive: [valueOf]
    returns the object itself, so the conversion goes through its string. *)
Definition Number (v : value) : number :=
  match v with
  | Undefined => JsNumber.NaN
  | Null => JsNumber.pos_zero
  | Str s => JsNumber.StringToNumber s
  | NativeFunction _ | PrototypeObject => JsNumber.StringToNumber (ToString v)
  end.

(** [v === ''] *)
Definition is_empty_string (v : value) : bool :=
  match v with
  | Str [] => true
  | _ => false
  end.

(** String-keyed containers that keep insertion order: a [Map], and an object
    through its own properties. [set] overwrites the value of a key that is
    present, in place, and appends a key that is not. *)
Module Assoc.
Section WithValues.
Variable V : Type.

Definition t := list (jsstring * V).

Fixpoint get (m : t) (k : jsstring) : option V :=
  match m with
  | [] => None
  | (k', v) :: m' => if JsString.eqb k' k then Some v else get m' k
  end.

Fixpoint set (m : t) (k : jsstring) (v : V) : t :=
  match m with
  | [] => [(k, v)]
  | (k', v') :: m' =>
      if JsString.eqb k' k then (k', v) :: m'
      else (k', v') :: set m' k v
  end.

Definition keys (m : t) : list jsstring := map fst m.
Definition entries (m : t) : list (jsstring * V) := m.
End WithValues.
End Assoc.

(** The properties of [Object.prototype], which every object created by an
    object literal or by [{}] inherits. *)
Definition Object_prototype_names : list jsstring :=
  map js [ "constructor"; "__proto__"; "hasOwnProperty"; "isPrototypeOf";
           "propertyIsEnumerable"; "toLocaleString"; "toString"; "valueOf";
           "__defineGetter__"; "__defineSetter__"; "__lookupGetter__";
           "__lookupSetter__" ]%string.

Definition inherits (name : jsstring) : bool :=
  existsb (JsString.eqb name) Object_prototype_names.

(** [Object.prototype[name]] read through an object that inherits it:
    [constructor] is the function [Object], [__proto__] is an accessor that
    returns the prototype, and every other property is the function of that
    name. *)
Definition Object_prototype_value (name : jsstring) : value :=
  if JsString.eqb name (js "__proto__") then PrototypeObject
  else if JsString.eqb name (js "constructor") then NativeFunction (js "Object")
  else NativeFunction name.

(** [obj[k] = v] on an object created by [{}]. The key [__proto__] reaches
    the setter inherited from [Object.prototype]: it changes the prototype of
    [obj] and adds no property to it. *)
Definition assign (V : Type) (obj : Assoc.t V) (k : jsstring) (v : V)
  : Assoc.t V :=
  if JsString.eqb k (js "__proto__") then obj else Assoc.set obj k v.

(** ** The data model *)

Definition Row : Type := Assoc.t value.
Definition Table : Type := list Row.
Definition Store : Type := Assoc.t Table.

(** [r[col]]: the row's own property, or else the one it inherits. *)
Definition prop (r : Row) (col : jsstring) : value :=
  match Assoc.get r col with
  | Some v => v
  | None => if inherits col then Object_prototype_value col else Undefined
  end.

(** The value of [stats[col]]. *)
Record ColStats : Type := mkColStats {
  count : nat;
  mean : number;
  min : number;
  max : number
}.

(** The value of [summary[key]]: [{ rows: 0 }] has the other two keys
    absent. *)
Record DatasetSummary : Type := mkDatasetSummary {
  rows : nat;
  numeric_columns : option (list jsstring);
  stats : option (Assoc.t ColStats)
}.

(** ** The summary of the datasets *)

(** [r[col] === '' || !isNaN(Number(r[col]))] *)
Definition numeric_cell (v : value) : bool :=
  is_empty_string v || negb (JsNumber.isNaN (Number v)).

Definition numericColumns (rows : Table) : list jsstring :=
  match rows with
  | [] => []
  | r0 :: _ =>
      let cols := Assoc.keys r0 in
      filter (fun col => forallb (fun r => numeric_cell (prop r col)) rows)
             cols
  end.

(** [rows.map(r => Number(r[col])).filter(v => !isNaN(v))] *)
Definition column_values (rows : Table) (col : jsstring) : list number :=
  filter (fun v => negb (JsNumber.isNaN v))
         (map (fun r => Number (prop r col)) rows).

(** [values.reduce((a, b) => a + b, 0)] *)
Definition sum_values (values : list number) : number :=
  fold_left JsNumber.add values JsNumber.pos_zero.

(** The body of the loop over [numCols]: one column's entry of [stats], or
    [stats] unchanged when [values] is empty. *)
Definition stats_step (rows : Table) (stats : Assoc.t ColStats)
           (col : jsstring) : Assoc.t ColStats :=
  let values := column_values rows col in
  match values with
  | [] => stats
  | _ :: _ =>
      let sum := sum_values values in
      assign stats col
        {| count := List.length values;
           mean := JsNumber.div sum (JsNumber.of_nat (List.length values));
           min := JsNumber.Math_min values;
           max := JsNumber.Math_max values |}
  end.

(** The body of the loop over the entries of [store]. The keys are names
    of datasets, and [summary[key] = ...] gives the summary that property. *)
Definition summary_step (summary : Assoc.t DatasetSummary)
           (entry : jsstring * Table) : Assoc.t DatasetSummary :=
  let '(key, rows) := entry in
  match rows with
  | [] =>
      Assoc.set summary key
        {| rows := 0; numeric_columns := None; stats := None |}
  | _ :: _ =>
      let numCols := numericColumns rows in
      let stats := fold_left (stats_step rows) numCols [] in
      Assoc.set summary key
        {| rows := List.length rows;
           numeric_columns := Some numCols;
           stats := Some stats |}
  end.

Definition getDatasetsSummary (store : Store) : Assoc.t DatasetSummary :=
  fold_left summary_step (Assoc.entries store) [].

(** *** The calls of [Math.min] and [Math.max]

    [Math.min(...values)] passes every element of [values] as one argument
    of the call. An engine passes only so many arguments: beyond its limit
    the call throws a RangeError and [getDatasetsSummary] ends there, with no
    summary. The functions above give the summary that is returned when no
    call throws; the functions below are the same loops with the calls that
    can throw, over the limit of the engine, [argument_limit]. *)
Section Engine.
Variable argument_limit : nat.

(** [f(...values)] *)
Definition spread_call (f : list number -> number) (values : list number)
  : option number :=
  if List.length values <=? argument_limit then Some (f values) else None.

Definition stats_step_call (rows : Table) (stats : option (Assoc.t ColStats))
           (col : jsstring) : option (Assoc.t ColStats) :=
  match stats with
  | None => None
  | Some stats =>
      let values := column_values rows col in
      match values with
      | [] => Some stats
      | _ :: _ =>
          let sum := sum_values values in
          match spread_call JsNumber.Math_min values,
                spread_call JsNumber.Math_max values with
          | Some lowest, Some highest =>
              Some (assign stats col
                      {| count := List.length values;
                         mean := JsNumber.div sum
                                   (JsNumber.of_nat (List.length values));
                         min := lowest;
                         max := highest |})
          | _, _ => None
          end
      end
  end.

Definition summary_step_call (summary : option (Assoc.t DatasetSummary))
           (entry : jsstring * Table) : option (Assoc.t DatasetSummary) :=
  match summary with
  | None => None
  | Some summary =>
      let '(key, rows) := entry in
      match rows with
      | [] =>
          Some (Assoc.set summary key
                  {| rows := 0; numeric_columns := None; stats := None |})
      | _ :: _ =>
          let numCols := numericColumns rows in
          match fold_left (stats_step_call rows) numCols (Some []) with
          | Some stats =>
              Some (Assoc.set summary key
                      {| rows := List.length rows;
                         numeric_columns := Some numCols;
                         stats := Some stats |})
          | None => None
          end
      end
  end.

(** The call [getDatasetsSummary(store)]: its result, or [None] when it
    throws. *)
Definition getDatasetsSummary_call (store : Store)
  : option (Assoc.t DatasetSummary) :=
  fold_left summary_step_call (Assoc.entries store) (Some []).
End Engine.

(** ** The [/group] route

    The handler answers 400 when the query has no [by]; otherwise it groups
    [data = store[ds] || []] by the field [by]. *)

(** One element of the response array, [{ key: k, count }]. *)
Record Group : Type := mkGroup {
  key : jsstring;
  group_count : nat
}.

(** The group key of a row: [raw === undefined || raw === null ||
    String(raw).trim() === '' ? 'Unknown' : String(raw)]. *)
Definition group_key (raw : value) : jsstring :=
  match raw with
  | Undefined => js "Unknown"
  | Null => js "Unknown"
  | _ =>
      match JsString.trim (ToString raw) with
      | [] => js "Unknown"
      | _ :: _ => ToString raw
      end
  end.

(** [groups.set(key, (groups.get(key) || 0) + 1)] *)
Definition group_step (by_ : jsstring) (groups : Assoc.t nat) (row : Row)
  : Assoc.t nat :=
  let raw := prop row by_ in
  let key := group_key raw in
  let old := match Assoc.get groups key with Some n => n | None => 0 end in
  Assoc.set groups key (old + 1).

(** The loop over [data] and the array built from [groups.entries()]. *)
Definition groupBy (data : Table) (by_ : jsstring) : list Group :=
  let groups := fold_left (group_step by_) data [] in
  map (fun '(k, count) => {| key := k; group_count := count |})
      (Assoc.entries groups).

(** ** Loading the datasets

    [fs.existsSync] and the pair [fs.readFileSync], [parse] of csv-parse are
    outside the repository: they are parameters, [readAndParse] giving [None]
    when either call throws. *)
Section Loader.
Variable existsSync : jsstring -> bool.
Variable readAndParse : jsstring -> option Table.

Definition readCsvIfExists (filename : jsstring) : Table :=
  if existsSync filename then
    match readAndParse filename with
    | Some records => records
    | None => []
    end
  else [].

Definition loadAllData : Store :=
  let conditions := readCsvIfExists (js "processed_conditions_data.csv") in
  let factors := readCsvIfExists (js "processed_factors_data.csv") in
  let performance := readCsvIfExists (js "processed_performance_data.csv") in
  let treatment := readCsvIfExists (js "processed_treatment_data.csv") in
  [ (js "conditions", conditions); (js "factors", factors);
    (js "performance", performance); (js "treatment", treatment) ].
End Loader.

(** ** The connection pool: [port: Number(DB_PORT || 3306)]

    The value of the [port] option passed to [mysql.createPool]. An
    environment variable is a string or is undefined. *)
Definition pool_port (DB_PORT : option jsstring) : number :=
  match DB_PORT with
  | None | Some [] => JsNumber.of_Z 3306
  | Some s => JsNumber.StringToNumber s
  end.

(** ** The routes of the server

    A query parameter is a string or is absent. The store is the object
    literal built by [loadAllData], which inherits the properties of
    [Object.prototype]: [store[ds]] is a table for a key of the store, a
    function or the prototype object for an inherited name, and undefined
    otherwise. Iterating over an inherited value throws, and the error
    handler answers 500. *)

Inductive Body : Type :=
| ErrorBody (error : jsstring)
| SummaryBody (summary : Assoc.t DatasetSummary)
| RowsBody (table : Table)
| GroupsBody (out : list Group).

Record Response : Type := mkResponse {
  status : nat;
  body : Body
}.

Inductive StoreValue : Type :=
| OwnTable (data : Table)
| InheritedValue
| NoValue.

(** [store[name]] *)
Definition store_prop (store : Store) (name : jsstring) : StoreValue :=
  match Assoc.get store name with
  | Some data => OwnTable data
  | None => if inherits name then InheritedValue else NoValue
  end.

(** [res.status(code).json({ error: message })] *)
Definition error_response (code : nat) (message : string) : Response :=
  {| status := code; body := ErrorBody (js message) |}.

(** The middleware [ensureLoaded], followed by the handler's response. *)
Definition ensureLoaded (store : Store) (next : Response) : Response :=
  match Assoc.keys store with
  | [] => error_response 503 "Data not loaded yet"
  | _ :: _ => next
  end.

(** [GET /summary]: an error thrown by the handler reaches the error
    handler, which answers 500. *)
Definition summary_route (argument_limit : nat) (store : Store) : Response :=
  ensureLoaded store
    match getDatasetsSummary_call argument_limit store with
    | Some summary => {| status := 200; body := SummaryBody summary |}
    | None => error_response 500 "Internal server error"
    end.

(** [GET /conditions], [/factors], [/performance], [/treatment]:
    [res.json(store.name || [])]. *)
Definition raw_route (name : jsstring) (store : Store) : Response :=
  ensureLoaded store
    {| status := 200;
       body := RowsBody match Assoc.get store name with
                        | Some data => data
                        | None => []
                        end |}.

(** The handler of [GET /group] for the query [ds], [by]. *)
Definition group_handler (store : Store) (ds by_ : option jsstring)
  : Response :=
  let ds := match ds with Some d => d | None => js "factors" end in
  match by_ with
  | None | Some [] => error_response 400 "Query param 'by' is required"
  | Some b =>
      match store_prop store ds with
      | OwnTable data => {| status := 200; body := GroupsBody (groupBy data b) |}
      | NoValue => {| status := 200; body := GroupsBody (groupBy [] b) |}
      | InheritedValue => error_response 500 "Internal server error"
      end
  end.

Definition group_route (store : Store) (ds by_ : option jsstring) : Response :=
  ensureLoaded store (group_handler store ds by_).

(** ** Notions used to state the properties *)

(** A value parses as a number when [Number] of it is not NaN. *)
Definition parses_as_number (v : value) : Prop :=
  JsNumber.isNaN (Number v) = false.

(** Every row has, in column [col], the empty string or a value that parses
    as a number. *)
Definition qualifies (rows : Table) (col : jsstring) : Prop :=
  forall r, In r rows -> prop r col = Str [] \/ parses_as_number (prop r col).

Definition all_white_space (s : jsstring) : Prop :=
  Forall (fun c => JsString.is_white_space c = true) s.

(** The statistics object built from the values of one column. *)
Definition stats_of_values (values : list number) : ColStats :=
  {| count := List.length values;
     mean := JsNumber.div (sum_values values)
                          (JsNumber.of_nat (List.length values));
     min := JsNumber.Math_min values;
     max := JsNumber.Math_max values |}.

(** The [stats] object of a table with at least one row. *)
Definition table_stats (rows : Table) : Assoc.t ColStats :=
  fold_left (stats_step rows) (numericColumns rows) [].

(** The same object with the calls that can throw: [None] when one does. *)
Definition table_stats_call (argument_limit : nat) (rows : Table)
  : option (Assoc.t ColStats) :=
  fold_left (stats_step_call argument_limit rows) (numericColumns rows)
            (Some []).

(** The statistics loop of a table passes no call more arguments than the
    engine takes: the table has no numeric column, or no more rows than the
    limit. *)
Definition fits (argument_limit : nat) (rows : Table) : bool :=
  match numericColumns rows with
  | [] => true
  | _ :: _ => List.length rows <=? argument_limit
  end.

(** The summary of one table. *)
Definition summarize_table (rows : Table) : DatasetSummary :=
  match rows with
  | [] => {| rows := 0; numeric_columns := None; stats := None |}
  | _ :: _ =>
      {| rows := List.length rows;
         numeric_columns := Some (numericColumns rows);
         stats := Some (table_stats rows) |}
  end.

(** The distinct elements of a list, each at the place of its first
    occurrence. *)
Fixpoint first_seen (l : list jsstring) : list jsstring :=
  match l with
  | [] => []
  | k :: l' => k :: filter (fun x => negb (JsString.eqb x k)) (first_seen l')
  end.

(** The group keys of the rows, in table order. *)
Definition row_keys (data : Table) (by_ : jsstring) : list jsstring :=
  map (fun row => group_key (prop row by_)) data.

(** How many elements of [l] are [k]. *)
Definition occurrences (k : jsstring) (l : list jsstring) : nat :=
  List.length (filter (JsString.eqb k) l).

(** The sum of the counts of a response. *)
Definition total_count (out : list Group) : nat :=
  list_sum (map group_count out).

(** The count a response reports for key [k]; 0 when it has no such group. *)
Definition count_for (k : jsstring) (out : list Group) : nat :=
  list_sum (map group_count (filter (fun g => JsString.eqb (key g) k) out)).

(** The columns of the first row of a table; none for a table without rows. *)
Definition first_row_columns (rows : Table) : list jsstring :=
  match rows with
  | [] => []
  | r0 :: _ => Assoc.keys r0
  end.

(** The count a [Map] of counters holds for [k], over all its entries. *)
Definition weight (k : jsstring) (m : Assoc.t nat) : nat :=
  list_sum (map snd (filter (fun e => JsString.eqb (fst e) k) m)).

(** [groups.get(k) || 0] *)
Definition counter (m : Assoc.t nat) (k : jsstring) : nat :=
  match Assoc.get m k with Some n => n | None => 0 end.

(** The binary64 value with mantissa of 53 bits that equals the integer [v],
    [0 < v < 2^53], under the sign [s]. *)
Definition canon (s : bool) (v : Z) : spec_float :=
  S754_finite s (Z.to_pos (v * 2 ^ (52 - Z.log2 v))) (Z.log2 v - 52)%Z.

(** The binary64 value of an integer below 2^53 in absolute value. *)
Definition exact_int (z : Z) : spec_float :=
  match z with
  | Z0 => S754_zero false
  | Zpos _ => canon false z
  | Zneg _ => canon true (- z)
  end.

(** The last steps of [binary_round_aux], on a rounded mantissa. *)
Definition round_finish (s : bool) (m e : Z) : spec_float :=
  let '(mrs, e') := shr_fexp JsNumber.prec JsNumber.emax m e loc_Exact in
  match shr_m mrs with
  | Z0 => S754_zero s
  | Zpos p =>
      if (e' <=? JsNumber.emax - JsNumber.prec)%Z
      then S754_finite s p e' else S754_infinity s
  | Zneg _ => S754_nan
  end.

(** The sum of the absolute values of a list of integers. *)
Definition sum_abs (zs : list Z) : Z :=
  fold_right (fun z acc => Z.abs z + acc)%Z 0%Z zs.

Definition sum_Z (zs : list Z) : Z :=
  fold_right Z.add 0%Z zs.

(** The tables of the scenarios. *)
Definition row1 (col cell : string) : Row := [(js col, Str (js cell))].

Definition table_1_blank_3 : Table :=
  [row1 "Val" "1"; row1 "Val" ""; row1 "Val" "3"].

Definition table_all_blank : Table :=
  [row1 "Val" ""; row1 "Val" ""].

Definition table_tenths : Table :=
  [row1 "Val" "0.1"; row1 "Val" "0.1"; row1 "Val" "0.1"].

Definition table_states : Table :=
  [row1 "State" "CA"; row1 "State" ""; [(js "State", Null)]].

(** A row of string cells, from its columns and their cells in order. *)
Definition cells (l : list (string * string)) : Row :=
  map (fun kv => (js (fst kv), Str (js (snd kv)))) l.

Definition table_state_val : Table :=
  [ cells [("State", "CA"); ("Val", "5")]%string;
    cells [("State", "CA"); ("Val", "x")]%string;
    cells [("State", ""); ("Val", "3")]%string ].

Definition table_mixed : Table :=
  [ cells [("Name", "a"); ("Int", "12"); ("Blank", ""); ("Real", "-2.5e3");
           ("Pad", " 7 "); ("Date", "2020-01-02")]%string;
    cells [("Name", ""); ("Int", ""); ("Blank", ""); ("Real", ".5");
           ("Pad", "  "); ("Date", "")]%string;
    cells [("Name", "1"); ("Int", "0x1F"); ("Blank", ""); ("Real", "Infinity");
           ("Pad", "+3"); ("Date", "7")]%string ].


(** The datasets and the files they are read from. *)
Definition dataset_files : list (jsstring * jsstring) :=
  [ (js "conditions", js "processed_conditions_data.csv");
    (js "factors", js "processed_factors_data.csv");
    (js "performance", js "processed_performance_data.csv");
    (js "treatment", js "processed_treatment_data.csv") ].

(** A non-empty string of decimal digits, and the natural number it
    denotes. *)
Definition decimal_digits (s : jsstring) : Prop :=
  s <> [] /\ Forall (fun c => JsNumber.is_digit c = true) s.

Definition digits_value (s : jsstring) : N :=
  fold_left (fun acc c => 10 * acc + (c - 48))%N s 0%N.

Definition cell_digits_value (v : value) : Z :=
  match v with
  | Str s => Z.of_N (digits_value s)
  | _ => 0%Z
  end.

(** The values that [/group] files under ["Unknown"] for being missing or
    blank. *)
Definition blank_value (raw : value) : bool :=
  match raw with
  | Undefined | Null => true
  | _ =>
      match JsString.trim (ToString raw) with
      | [] => true
      | _ :: _ => false
      end
  end.

(** *** The grammar of numeric strings

    StringNumericLiteral of ECMAScript: white space, optionally followed by
    a numeric literal, and white space. A numeric literal is a decimal
    literal with an optional sign, [Infinity] under an optional sign, or an
    unsigned integer literal in base 16, 8 or 2. *)
Definition decimal_digit (c : N) : Prop := (48 <= c <= 57)%N.
Definition hex_digit (c : N) : Prop :=
  (48 <= c <= 57 \/ 97 <= c <= 102 \/ 65 <= c <= 70)%N.
Definition octal_digit (c : N) : Prop := (48 <= c <= 55)%N.
Definition binary_digit (c : N) : Prop := (c = 48 \/ c = 49)%N.

Definition sign_prefix (s : list N) : Prop :=
  s = [] \/ s = js "+" \/ s = js "-".

Definition exponent_part (s : list N) : Prop :=
  exists (e : N) (sg ds : list N),
    s = e :: sg ++ ds /\ (e = 101 \/ e = 69)%N /\ sign_prefix sg
    /\ ds <> [] /\ Forall decimal_digit ds.

Definition unsigned_decimal_literal (s : list N) : Prop :=
  s = js "Infinity"
  \/ exists int frac ex : list N,
      Forall decimal_digit int /\ Forall decimal_digit frac
      /\ (ex = [] \/ exponent_part ex)
      /\ ((int <> [] /\ s = int ++ ex)
          \/ ((int <> [] \/ frac <> []) /\ s = int ++ 46%N :: frac ++ ex)).

Definition non_decimal_literal (s : list N) : Prop :=
  exists (p : N) (ds : list N),
    s = 48%N :: p :: ds /\ ds <> []
    /\ (((p = 120 \/ p = 88)%N /\ Forall hex_digit ds)
        \/ ((p = 111 \/ p = 79)%N /\ Forall octal_digit ds)
        \/ ((p = 98 \/ p = 66)%N /\ Forall binary_digit ds)).

Definition numeric_literal (s : list N) : Prop :=
  non_decimal_literal s
  \/ exists sg body : list N,
      s = sg ++ body /\ sign_prefix sg /\ unsigned_decimal_literal body.

Definition numeric_string (s : list N) : Prop :=
  exists ws1 lit ws2 : list N,
    s = ws1 ++ lit ++ ws2 /\ all_white_space ws1 /\ all_white_space ws2
    /\ (lit = [] \/ numeric_literal lit).

(** The sign of an exponent and the digits after it, and the radix that a
    prefix letter announces: the tests of [read_exponent] and [non_decimal]
    on their own. *)
Definition exponent_sign (s1 : jsstring) : bool * jsstring :=
  match s1 with
  | c1 :: s2 =>
      if (c1 =? 43)%N then (false, s2)
      else if (c1 =? 45)%N then (true, s2) else (false, s1)
  | [] => (false, s1)
  end.

Definition radix_of (c : N) : option N :=
  (if (c =? 120) || (c =? 88) then Some 16
   else if (c =? 111) || (c =? 79) then Some 8
   else if (c =? 98) || (c =? 66) then Some 2
   else None)%N.

(** The characters of numeric literals are printable ASCII. *)
Definition literal_char (c : N) : Prop := (32 < c < 160)%N.

(** A binary64 value has an exponent of at least -1074, that of the
    subnormal numbers. *)
Definition bounded_below (x : spec_float) : Prop :=
  match x with
  | S754_finite _ _ e => (-1074 <= e)%Z
  | _ => True
  end.

(** * Properties *)

(** ** Strings *)

Lemma jsstring_eqb_eq (a b : jsstring) : JsString.eqb a b = true <-> a = b.
Proof.
  unfold JsString.eqb.
  destruct (list_eq_dec N.eq_dec a b); intuition congruence.
Qed.

Lemma jsstring_eqb_refl (a : jsstring) : JsString.eqb a a = true.
Proof. now apply jsstring_eqb_eq. Qed.

Lemma jsstring_eqb_neq (a b : jsstring) : JsString.eqb a b = false <-> a <> b.
Proof.
  unfold JsString.eqb.
  destruct (list_eq_dec N.eq_dec a b); intuition congruence.
Qed.

Lemma jsstring_eqb_sym (a b : jsstring) : JsString.eqb a b = JsString.eqb b a.
Proof.
  destruct (JsString.eqb b a) eqn:E.
  - apply jsstring_eqb_eq in E. subst. apply jsstring_eqb_refl.
  - apply jsstring_eqb_neq in E. apply jsstring_eqb_neq. congruence.
Qed.

Lemma trimStart_white_space (s : jsstring) :
  all_white_space s -> JsString.trimStart s = [].
Proof.
  induction 1 as [|c s Hc _ IH]; simpl; [reflexivity|].
  now rewrite Hc.
Qed.

Lemma trim_white_space (s : jsstring) :
  all_white_space s -> JsString.trim s = [].
Proof.
  intros H. unfold JsString.trim.
  now rewrite (trimStart_white_space H).
Qed.

(** ** Numbers *)

Lemma Number_white_space (s : jsstring) :
  all_white_space s -> Number (Str s) = JsNumber.pos_zero.
Proof.
  intros H. simpl. unfold JsNumber.StringToNumber.
  now rewrite (trim_white_space H).
Qed.

(** [Number] on some cells: decimals are rounded to the nearest binary64
    value, white space around a literal is skipped, and a string outside the
    grammar of numeric literals is NaN. *)
Example Number_examples :
  Number (Str (js "3")) = JsNumber.of_Z 3
  /\ Number (Str (js " 12 ")) = JsNumber.of_Z 12
  /\ Number (Str (js "1e3")) = JsNumber.of_Z 1000
  /\ Number (Str (js "-2.50")) = S754_finite true 5629499534213120 (-51)
  /\ Number (Str (js "0.1")) = S754_finite false 7205759403792794 (-56)
  /\ Number (Str (js "0x1f")) = JsNumber.of_Z 31
  /\ Number (Str (js "")) = JsNumber.pos_zero
  /\ Number (Str (js "-0")) = JsNumber.neg_zero
  /\ Number (Str (js "-Infinity")) = JsNumber.neg_infinity
  /\ Number (Str (js "1e400")) = JsNumber.pos_infinity
  /\ Number (Str (js "x")) = JsNumber.NaN
  /\ Number (Str (js "1 2")) = JsNumber.NaN
  /\ Number (Str (js "12px")) = JsNumber.NaN
  /\ Number (Str (js ".")) = JsNumber.NaN
  /\ Number Null = JsNumber.pos_zero
  /\ Number Undefined = JsNumber.NaN.
Proof. repeat split; vm_compute; reflexivity. Qed.

Lemma is_empty_string_spec (v : value) :
  is_empty_string v = true <-> v = Str [].
Proof.
  destruct v as [| |[|c s]| |]; simpl; split; congruence.
Qed.

Lemma numeric_cell_spec (v : value) :
  numeric_cell v = true <-> v = Str [] \/ parses_as_number v.
Proof.
  unfold numeric_cell, parses_as_number.
  rewrite orb_true_iff, negb_true_iff, is_empty_string_spec. reflexivity.
Qed.

(** A cell that passes the test of [numericColumns] never coerces to NaN:
    the empty string coerces to +0. *)
Lemma numeric_cell_not_NaN (v : value) :
  numeric_cell v = true -> JsNumber.isNaN (Number v) = false.
Proof.
  intros H. apply numeric_cell_spec in H. destruct H as [->|H].
  - reflexivity.
  - exact H.
Qed.

(** ** Insertion-ordered containers *)

Section AssocFacts.
Variable V : Type.
Implicit Types (m : Assoc.t V) (k : jsstring) (v : V).

Lemma get_set_same m k v : Assoc.get (Assoc.set m k v) k = Some v.
Proof.
  induction m as [|[k' v'] m IH]; simpl.
  - now rewrite jsstring_eqb_refl.
  - destruct (JsString.eqb k' k) eqn:E; simpl; now rewrite E.
Qed.

Lemma get_set_other m k k' v :
  k <> k' -> Assoc.get (Assoc.set m k v) k' = Assoc.get m k'.
Proof.
  intros Hne. induction m as [|[k0 v0] m IH]; simpl.
  - apply jsstring_eqb_neq in Hne. now rewrite Hne.
  - destruct (JsString.eqb k0 k) eqn:E; simpl.
    + apply jsstring_eqb_eq in E. subst k0.
      apply jsstring_eqb_neq in Hne. now rewrite Hne.
    + now rewrite IH.
Qed.

Lemma get_None_keys m k : Assoc.get m k = None <-> ~ In k (Assoc.keys m).
Proof.
  induction m as [|[k' v'] m IH]; simpl.
  - tauto.
  - destruct (JsString.eqb k' k) eqn:E.
    + apply jsstring_eqb_eq in E. split; [discriminate | tauto].
    + apply jsstring_eqb_neq in E. rewrite IH. tauto.
Qed.

Lemma keys_set m k v :
  Assoc.keys (Assoc.set m k v) =
  match Assoc.get m k with
  | Some _ => Assoc.keys m
  | None => Assoc.keys m ++ [k]
  end.
Proof.
  induction m as [|[k' v'] m IH]; simpl.
  - reflexivity.
  - destruct (JsString.eqb k' k) eqn:E; simpl.
    + reflexivity.
    + rewrite IH. now destruct (Assoc.get m k).
Qed.
End AssocFacts.

(** ** Numeric column inference *)

Lemma numericColumns_In (r0 : Row) (rest : Table) (c : jsstring) :
  In c (numericColumns (r0 :: rest)) <->
  In c (Assoc.keys r0) /\ qualifies (r0 :: rest) c.
Proof.
  unfold numericColumns, qualifies.
  rewrite filter_In, forallb_forall.
  split; intros [Hk Hq]; split; trivial; intros r Hr.
  - apply numeric_cell_spec. now apply Hq.
  - apply numeric_cell_spec. now apply Hq.
Qed.

Lemma qualifies_dec (rows : Table) (c : jsstring) :
  {qualifies rows c} + {~ qualifies rows c}.
Proof.
  destruct (forallb (fun r => numeric_cell (prop r c)) rows) eqn:E.
  - left. intros r Hr. apply numeric_cell_spec.
    rewrite forallb_forall in E. now apply E.
  - right. intros Hq.
    assert (forallb (fun r => numeric_cell (prop r c)) rows = true) as E'.
    { apply forallb_forall. intros r Hr. apply numeric_cell_spec.
      now apply Hq. }
    congruence.
Qed.

(** In a numeric column the filter of [column_values] keeps every row. *)
Lemma column_values_numeric (rows : Table) (c : jsstring) :
  In c (numericColumns rows) ->
  column_values rows c = map (fun r => Number (prop r c)) rows.
Proof.
  intros Hin. destruct rows as [|r0 rest]; [reflexivity|].
  apply numericColumns_In in Hin. destruct Hin as [_ Hq].
  unfold column_values.
  apply forallb_filter_id, forallb_forall.
  intros v Hv. apply in_map_iff in Hv. destruct Hv as [r [<- Hr]].
  apply negb_true_iff, numeric_cell_not_NaN, numeric_cell_spec.
  now apply Hq.
Qed.

Lemma column_values_app (pre post : Table) (c : jsstring) :
  column_values (pre ++ post) c = column_values pre c ++ column_values post c.
Proof. unfold column_values. now rewrite map_app, filter_app. Qed.

(** ** Per-column statistics *)

Lemma stats_step_spec (rows : Table) (st : Assoc.t ColStats) (c : jsstring) :
  stats_step rows st c =
  match column_values rows c with
  | [] => st
  | _ :: _ => assign st c (stats_of_values (column_values rows c))
  end.
Proof.
  unfold stats_step, stats_of_values.
  now destruct (column_values rows c).
Qed.

Lemma get_assign_same (V : Type) (m : Assoc.t V) (k : jsstring) (v : V) :
  k <> js "__proto__" -> Assoc.get (assign m k v) k = Some v.
Proof.
  intros Hk. unfold assign.
  apply jsstring_eqb_neq in Hk. rewrite Hk. apply get_set_same.
Qed.

Lemma get_assign_other (V : Type) (m : Assoc.t V) (k k' : jsstring) (v : V) :
  k <> k' \/ k = js "__proto__" ->
  Assoc.get (assign m k v) k' = Assoc.get m k'.
Proof.
  intros Hk. unfold assign.
  destruct (JsString.eqb k (js "__proto__")) eqn:E; [reflexivity|].
  apply jsstring_eqb_neq in E. apply get_set_other. tauto.
Qed.

Lemma fold_stats_get_out (rows : Table) (cols : list jsstring) (c : jsstring) :
  ~ In c cols \/ column_values rows c = [] \/ c = js "__proto__" ->
  forall st,
    Assoc.get (fold_left (stats_step rows) cols st) c = Assoc.get st c.
Proof.
  intros H. induction cols as [|c0 cols IH]; intros st; cbn [fold_left].
  - reflexivity.
  - rewrite IH, stats_step_spec by (simpl in H; tauto).
    destruct (column_values rows c0) eqn:E0; [reflexivity|].
    apply get_assign_other.
    destruct (list_eq_dec N.eq_dec c0 c) as [->|Hne]; [right|now left].
    destruct H as [H|[H|H]]; [exfalso; apply H; now left | congruence | exact H].
Qed.

Lemma fold_stats_get_in (rows : Table) (cols : list jsstring) (c : jsstring) :
  In c cols -> column_values rows c <> [] -> c <> js "__proto__" ->
  forall st,
    Assoc.get (fold_left (stats_step rows) cols st) c =
    Some (stats_of_values (column_values rows c)).
Proof.
  intros Hin Hne Hp. induction cols as [|c0 cols IH]; intros st;
    cbn [fold_left].
  - destruct Hin.
  - destruct (in_dec (list_eq_dec N.eq_dec) c cols) as [Hi|Hn].
    + now apply IH.
    + destruct Hin as [->|Hi]; [|tauto].
      rewrite fold_stats_get_out by tauto.
      rewrite stats_step_spec.
      destruct (column_values rows c) eqn:E; [congruence|].
      now apply get_assign_same.
Qed.

(** The entry of [stats] for a column: present exactly for the numeric
    columns with at least one value, [__proto__] apart. *)
Lemma table_stats_get (rows : Table) (c : jsstring) (st : ColStats) :
  Assoc.get (table_stats rows) c = Some st <->
  In c (numericColumns rows) /\ c <> js "__proto__" /\
  column_values rows c <> [] /\
  st = stats_of_values (column_values rows c).
Proof.
  unfold table_stats. split.
  - intros H.
    destruct (list_eq_dec N.eq_dec c (js "__proto__")) as [Hp|Hp].
    { rewrite fold_stats_get_out in H by tauto. discriminate. }
    destruct (in_dec (list_eq_dec N.eq_dec) c (numericColumns rows)) as [Hi|Hn].
    + destruct (column_values rows c) eqn:E.
      * rewrite fold_stats_get_out in H by tauto. discriminate.
      * rewrite fold_stats_get_in in H by (trivial; congruence).
        rewrite E in H. injection H as <-. repeat split; trivial. discriminate.
    + rewrite fold_stats_get_out in H by tauto. discriminate.
  - intros (Hi & Hp & Hne & ->). now apply fold_stats_get_in.
Qed.

(** The filter and the [continue] of the statistics loop never fire: every
    numeric column of a table with rows gets an entry, over all the rows. *)
Lemma numeric_column_has_stats (rows : Table) (c : jsstring) :
  In c (numericColumns rows) -> c <> js "__proto__" ->
  Assoc.get (table_stats rows) c =
  Some (stats_of_values (map (fun r => Number (prop r c)) rows))
  /\ count (stats_of_values (map (fun r => Number (prop r c)) rows))
     = List.length rows.
Proof.
  intros Hin Hp. split; [|simpl; apply length_map].
  apply table_stats_get. rewrite (column_values_numeric _ _ Hin).
  repeat split; trivial.
  destruct rows as [|r0 rest]; [destruct Hin|discriminate].
Qed.

(** ** Dataset summarisation *)

Lemma summary_step_spec (summary : Assoc.t DatasetSummary)
      (name : jsstring) (rows : Table) :
  summary_step summary (name, rows) =
  Assoc.set summary name (summarize_table rows).
Proof. now destruct rows. Qed.

Lemma fold_summary_get_out (entries : Store) (name : jsstring) :
  ~ In name (Assoc.keys entries) ->
  forall acc,
    Assoc.get (fold_left summary_step entries acc) name = Assoc.get acc name.
Proof.
  induction entries as [|[k rows] entries IH]; intros Hn acc; cbn [fold_left].
  - reflexivity.
  - simpl in Hn. rewrite IH by tauto.
    rewrite summary_step_spec. apply get_set_other. tauto.
Qed.

Lemma fold_summary_get_in (entries : Store) (name : jsstring) (rows : Table) :
  NoDup (Assoc.keys entries) -> In (name, rows) entries ->
  forall acc,
    Assoc.get (fold_left summary_step entries acc) name =
    Some (summarize_table rows).
Proof.
  induction entries as [|[k t] entries IH]; intros Hnd Hin acc;
    cbn [fold_left].
  - destruct Hin.
  - simpl in Hnd. inversion Hnd as [|? ? Hk Hnd']; subst.
    destruct Hin as [Heq|Hin].
    + injection Heq as -> ->.
      rewrite fold_summary_get_out by exact Hk.
      rewrite summary_step_spec. apply get_set_same.
    + now apply IH.
Qed.

(** ** Grouping *)

Section GroupFacts.
Variable by_ : jsstring.

Lemma weight_bump_same (m : Assoc.t nat) (k : jsstring) :
  weight k (Assoc.set m k (counter m k + 1)) = weight k m + 1.
Proof.
  unfold weight, counter.
  induction m as [|[k' n] m IH]; simpl.
  - rewrite jsstring_eqb_refl. reflexivity.
  - destruct (JsString.eqb k' k) eqn:E; simpl; rewrite E; simpl.
    + lia.
    + exact IH.
Qed.

Lemma weight_bump_other (m : Assoc.t nat) (k k' : jsstring) (n : nat) :
  k <> k' -> weight k' (Assoc.set m k n) = weight k' m.
Proof.
  intros Hne. unfold weight.
  induction m as [|[k0 n0] m IH]; simpl.
  - apply jsstring_eqb_neq in Hne. now rewrite Hne.
  - destruct (JsString.eqb k0 k) eqn:E; simpl.
    + apply jsstring_eqb_eq in E. subst k0.
      apply jsstring_eqb_neq in Hne. now rewrite Hne.
    + destruct (JsString.eqb k0 k'); simpl; now rewrite IH.
Qed.

Lemma total_bump (m : Assoc.t nat) (k : jsstring) :
  list_sum (map snd (Assoc.set m k (counter m k + 1))) =
  list_sum (map snd m) + 1.
Proof.
  unfold counter.
  induction m as [|[k' n] m IH]; simpl.
  - reflexivity.
  - destruct (JsString.eqb k' k) eqn:E; simpl.
    + lia.
    + rewrite IH. lia.
Qed.

Lemma group_step_spec (m : Assoc.t nat) (row : Row) :
  group_step by_ m row =
  Assoc.set m (group_key (prop row by_))
            (counter m (group_key (prop row by_)) + 1).
Proof. reflexivity. Qed.

Lemma fold_group_weight (data : Table) (k : jsstring) :
  forall m,
    weight k (fold_left (group_step by_) data m) =
    weight k m + occurrences k (row_keys data by_).
Proof.
  induction data as [|row data IH]; intros m; cbn [fold_left].
  - unfold occurrences. simpl. lia.
  - rewrite IH, group_step_spec. unfold occurrences. simpl.
    destruct (JsString.eqb k (group_key (prop row by_))) eqn:E.
    + apply jsstring_eqb_eq in E. subst k.
      rewrite weight_bump_same. simpl. lia.
    + apply jsstring_eqb_neq in E.
      rewrite weight_bump_other by congruence. reflexivity.
Qed.

Lemma fold_group_total (data : Table) :
  forall m,
    list_sum (map snd (fold_left (group_step by_) data m)) =
    list_sum (map snd m) + List.length data.
Proof.
  induction data as [|row data IH]; intros m; cbn [fold_left].
  - simpl. lia.
  - rewrite IH, group_step_spec, total_bump. simpl. lia.
Qed.

Lemma filter_drop_known (seen l : list jsstring) (k : jsstring) :
  In k seen ->
  filter (fun x => negb (existsb (JsString.eqb x) seen))
         (filter (fun x => negb (JsString.eqb x k)) l) =
  filter (fun x => negb (existsb (JsString.eqb x) seen)) l.
Proof.
  intros Hk. induction l as [|x l IH]; simpl; [reflexivity|].
  destruct (JsString.eqb x k) eqn:E; simpl.
  - apply jsstring_eqb_eq in E. subst x.
    assert (existsb (JsString.eqb k) seen = true) as ->.
    { apply existsb_exists. exists k. split; trivial.
      apply jsstring_eqb_refl. }
    exact IH.
  - now rewrite IH.
Qed.

Lemma filter_new_key (seen l : list jsstring) (k : jsstring) :
  filter (fun x => negb (existsb (JsString.eqb x) (seen ++ [k]))) l =
  filter (fun x => negb (existsb (JsString.eqb x) seen))
         (filter (fun x => negb (JsString.eqb x k)) l).
Proof.
  induction l as [|x l IH]; cbn [filter]; [reflexivity|].
  rewrite IH, existsb_app. cbn [existsb]. rewrite orb_false_r.
  destruct (JsString.eqb x k) eqn:E; cbn [negb filter].
  - now rewrite orb_true_r.
  - now rewrite orb_false_r.
Qed.

Lemma fold_group_keys (data : Table) :
  forall m,
    Assoc.keys (fold_left (group_step by_) data m) =
    Assoc.keys m ++
    filter (fun x => negb (existsb (JsString.eqb x) (Assoc.keys m)))
           (first_seen (row_keys data by_)).
Proof.
  induction data as [|row data IH]; intros m; cbn [fold_left].
  - simpl. now rewrite app_nil_r.
  - rewrite IH, group_step_spec, keys_set. simpl.
    set (k := group_key (prop row by_)).
    destruct (Assoc.get m k) eqn:G.
    + assert (In k (Assoc.keys m)) as Hk.
      { destruct (in_dec (list_eq_dec N.eq_dec) k (Assoc.keys m)) as [H|H];
          trivial.
        apply get_None_keys in H. congruence. }
      assert (existsb (JsString.eqb k) (Assoc.keys m) = true) as ->.
      { apply existsb_exists. exists k. split; trivial.
        apply jsstring_eqb_refl. }
      simpl. now rewrite filter_drop_known.
    + assert (existsb (JsString.eqb k) (Assoc.keys m) = false) as ->.
      { apply not_true_is_false. intros H.
        apply existsb_exists in H. destruct H as [x [Hx Hkx]].
        apply jsstring_eqb_eq in Hkx. subst x.
        apply get_None_keys in G. tauto. }
      simpl. rewrite <- app_assoc. simpl. now rewrite filter_new_key.
Qed.
End GroupFacts.

Lemma groupBy_keys (data : Table) (by_ : jsstring) :
  map key (groupBy data by_) = Assoc.keys (fold_left (group_step by_) data []).
Proof.
  unfold groupBy, Assoc.entries, Assoc.keys. rewrite map_map.
  apply map_ext. now intros [k n].
Qed.

Lemma groupBy_counts (data : Table) (by_ : jsstring) :
  map group_count (groupBy data by_) =
  map snd (fold_left (group_step by_) data []).
Proof.
  unfold groupBy, Assoc.entries. rewrite map_map.
  apply map_ext. now intros [k n].
Qed.

Lemma groupBy_count_for (data : Table) (by_ k : jsstring) :
  count_for k (groupBy data by_) =
  weight k (fold_left (group_step by_) data []).
Proof.
  unfold count_for, weight, groupBy, Assoc.entries.
  induction (fold_left (group_step by_) data []) as [|[k' n] m IH]; simpl.
  - reflexivity.
  - destruct (JsString.eqb k' k); simpl; now rewrite IH.
Qed.

Lemma first_seen_In (l : list jsstring) (x : jsstring) :
  In x (first_seen l) <-> In x l.
Proof.
  induction l as [|k l IH]; simpl; [tauto|].
  rewrite filter_In, IH, negb_true_iff, jsstring_eqb_neq.
  destruct (list_eq_dec N.eq_dec k x); intuition congruence.
Qed.

Lemma first_seen_NoDup (l : list jsstring) : NoDup (first_seen l).
Proof.
  induction l as [|k l IH]; simpl; constructor.
  - rewrite filter_In, negb_true_iff, jsstring_eqb_neq. tauto.
  - now apply NoDup_filter.
Qed.

Lemma filter_nothing_seen (l : list jsstring) :
  filter (fun x => negb (existsb (JsString.eqb x) [])) l = l.
Proof.
  induction l as [|x l IH]; [reflexivity|].
  change (x :: filter (fun x => negb (existsb (JsString.eqb x) [])) l = x :: l).
  now rewrite IH.
Qed.

Lemma groupBy_first_seen (data : Table) (by_ : jsstring) :
  map key (groupBy data by_) = first_seen (row_keys data by_).
Proof.
  rewrite groupBy_keys, fold_group_keys. simpl.
  apply filter_nothing_seen.
Qed.

(** ** The order of numbers *)

Section NumberOrder.
Import JsNumber.

Lemma compare_defined (a b : number) :
  isNaN a = false -> isNaN b = false -> exists c, SFcompare a b = Some c.
Proof.
  destruct a, b; simpl; intros; try discriminate; eauto.
Qed.

Lemma leb_refl (a : number) : isNaN a = false -> leb a a = true.
Proof.
  unfold leb, SFleb.
  destruct a as [s|s| |s m e]; simpl; intros; try discriminate;
    try (destruct s; reflexivity).
  destruct s; rewrite Z.compare_refl;
    change (Pos.compare_cont Eq m m) with (Pos.compare m m);
    now rewrite Pos.compare_refl.
Qed.

Lemma ltb_leb (a b : number) : ltb a b = true -> leb a b = true.
Proof.
  unfold ltb, leb, SFltb, SFleb.
  destruct (SFcompare a b) as [[| |]|]; congruence.
Qed.

Lemma compare_cont_Eq (m m' : positive) :
  PosDef.Pos.compare_cont Eq m m' = (m ?= m')%positive.
Proof. reflexivity. Qed.

Lemma compare_antisym (a b : number) (c : comparison) :
  SFcompare a b = Some c -> SFcompare b a = Some (CompOpp c).
Proof.
  destruct a as [s|s| |s m e], b as [s'|s'| |s' m' e']; simpl;
    try discriminate; intros H; injection H as <-;
    rewrite ?compare_cont_Eq;
    try rewrite (Z.compare_antisym e e'), (Pos.compare_antisym m m');
    try destruct s; try destruct s'; try reflexivity;
    destruct (e ?= e')%Z; simpl; trivial;
    destruct (m ?= m')%positive; reflexivity.
Qed.

Lemma not_ltb_leb (a b : number) :
  isNaN a = false -> isNaN b = false -> ltb a b = false -> leb b a = true.
Proof.
  intros Ha Hb. unfold ltb, leb, SFltb, SFleb.
  destruct (@compare_defined a b Ha Hb) as [c Hc].
  rewrite Hc, (@compare_antisym a b c Hc).
  destruct c; simpl; congruence.
Qed.

Ltac split_compare :=
  repeat match goal with
    | H : context [PosDef.Pos.compare_cont Eq ?x ?y] |- _ =>
        change (PosDef.Pos.compare_cont Eq x y) with (x ?= y)%positive in *
    | |- context [PosDef.Pos.compare_cont Eq ?x ?y] =>
        change (PosDef.Pos.compare_cont Eq x y) with (x ?= y)%positive in *
    | H : context [(?x ?= ?y)%Z] |- _ => destruct (Z.compare_spec x y)
    | H : context [(?x ?= ?y)%positive] |- _ =>
        destruct (Pos.compare_spec x y)
    | |- context [(?x ?= ?y)%Z] => destruct (Z.compare_spec x y)
    | |- context [(?x ?= ?y)%positive] => destruct (Pos.compare_spec x y)
    end.

Lemma leb_trans (a b c : number) :
  leb a b = true -> leb b c = true -> leb a c = true.
Proof.
  unfold leb, SFleb.
  destruct a as [sa|sa| |sa ma ea], b as [sb|sb| |sb mb eb],
           c as [sc|sc| |sc mc ec];
    simpl; try discriminate; trivial;
    try destruct sa; try destruct sb; try destruct sc;
    try discriminate; trivial;
    rewrite ?compare_cont_Eq; intros Hab Hbc;
    split_compare; simpl in *; try discriminate; trivial; lia.
Qed.

(** [Math.min]: over a list without NaN, the result is below the start
    value and below every element, and is one of them. *)
Lemma min_from_spec (l : list t) :
  forall lowest,
    isNaN lowest = false ->
    Forall (fun v => isNaN v = false) l ->
    leb (min_from lowest l) lowest = true
    /\ Forall (fun v => leb (min_from lowest l) v = true) l
    /\ (min_from lowest l = lowest \/ In (min_from lowest l) l).
Proof.
  induction l as [|x l IH]; intros lowest Hl Hnan; cbn [min_from].
  - repeat split; [now apply leb_refl | constructor | now left].
  - inversion Hnan as [|? ? Hx Hnan']; subst. rewrite Hx.
    cbv zeta.
    remember (if is_neg_zero x && is_pos_zero lowest
              then neg_zero else lowest) as l1 eqn:E1.
    remember (if ltb x l1 then x else l1) as l2 eqn:E2.
    assert (isNaN l2 = false /\ leb l2 lowest = true /\ leb l2 x = true
            /\ (l2 = lowest \/ l2 = x)) as (Hn2 & H2l & H2x & Hor).
    { subst l2 l1.
      destruct (is_neg_zero x && is_pos_zero lowest) eqn:Ez.
      - apply andb_true_iff in Ez. destruct Ez as [Ex El].
        destruct x as [[|]| | |]; try discriminate.
        destruct lowest as [[|]| | |]; try discriminate.
        cbn. repeat split; auto.
      - destruct (ltb x lowest) eqn:Elt.
        + repeat split; auto using ltb_leb, leb_refl.
        + repeat split; auto using not_ltb_leb, leb_refl. }
    clear E1 E2. destruct (IH l2 Hn2 Hnan') as (Hr2 & Hall & Hin).
    repeat split.
    + now apply leb_trans with l2.
    + constructor; [now apply leb_trans with l2 | exact Hall].
    + destruct Hin as [E|Hin]; [|right; now right].
      rewrite E. destruct Hor as [E'|E']; rewrite E';
        [now left | right; now left].
Qed.

Lemma max_from_spec (l : list t) :
  forall highest,
    isNaN highest = false ->
    Forall (fun v => isNaN v = false) l ->
    leb highest (max_from highest l) = true
    /\ Forall (fun v => leb v (max_from highest l) = true) l
    /\ (max_from highest l = highest \/ In (max_from highest l) l).
Proof.
  induction l as [|x l IH]; intros highest Hh Hnan; cbn [max_from].
  - repeat split; [now apply leb_refl | constructor | now left].
  - inversion Hnan as [|? ? Hx Hnan']; subst. rewrite Hx.
    cbv zeta.
    remember (if is_pos_zero x && is_neg_zero highest
              then pos_zero else highest) as h1 eqn:E1.
    remember (if ltb h1 x then x else h1) as h2 eqn:E2.
    assert (isNaN h2 = false /\ leb highest h2 = true /\ leb x h2 = true
            /\ (h2 = highest \/ h2 = x)) as (Hn2 & H2h & H2x & Hor).
    { subst h2 h1.
      destruct (is_pos_zero x && is_neg_zero highest) eqn:Ez.
      - apply andb_true_iff in Ez. destruct Ez as [Ex Eh].
        destruct x as [[|]| | |]; try discriminate.
        destruct highest as [[|]| | |]; try discriminate.
        cbn. repeat split; auto.
      - destruct (ltb highest x) eqn:Elt.
        + repeat split; auto using ltb_leb, leb_refl.
        + repeat split; auto using not_ltb_leb, leb_refl. }
    clear E1 E2. destruct (IH h2 Hn2 Hnan') as (Hr2 & Hall & Hin).
    repeat split.
    + now apply leb_trans with h2.
    + constructor; [now apply leb_trans with h2 | exact Hall].
    + destruct Hin as [E|Hin]; [|right; now right].
      rewrite E. destruct Hor as [E'|E']; rewrite E';
        [now left | right; now left].
Qed.
End NumberOrder.

Lemma column_values_not_NaN (rows : Table) (c : jsstring) :
  Forall (fun v => JsNumber.isNaN v = false) (column_values rows c).
Proof.
  apply Forall_forall. intros v Hv.
  apply filter_In in Hv. destruct Hv as [_ Hv].
  now apply negb_true_iff in Hv.
Qed.

Lemma first_seen_snoc (l : list jsstring) (k : jsstring) :
  first_seen (l ++ [k]) =
  if existsb (JsString.eqb k) l then first_seen l else first_seen l ++ [k].
Proof.
  induction l as [|x l IH]; [reflexivity|].
  cbn [app first_seen existsb]. rewrite IH.
  destruct (existsb (JsString.eqb k) l).
  - now rewrite orb_true_r.
  - rewrite orb_false_r, filter_app. cbn [filter].
    rewrite (jsstring_eqb_sym k x).
    destruct (JsString.eqb x k); cbn [negb].
    + now rewrite app_nil_r.
    + reflexivity.
Qed.

Lemma numericColumns_incl (rows : Table) :
  incl (numericColumns rows) (first_row_columns rows).
Proof.
  destruct rows as [|r0 rest]; intros c Hc; [destruct Hc|].
  now apply numericColumns_In in Hc.
Qed.

Lemma numericColumns_disqualified (rows : Table) (r : Row) (c : jsstring) :
  In r rows -> prop r c <> Str [] -> ~ parses_as_number (prop r c) ->
  ~ In c (numericColumns rows).
Proof.
  intros Hr Hne Hnp Hin.
  destruct rows as [|r0 rest]; [destruct Hin|].
  apply numericColumns_In in Hin. destruct Hin as [_ Hq].
  destruct (Hq r Hr); tauto.
Qed.

(** The entry of the summary for a table of the store is the summary of that
    table; for a table with rows its [stats] is [table_stats]. *)
Lemma getDatasetsSummary_get (store : Store) (name : jsstring) (rows : Table) :
  NoDup (Assoc.keys store) -> In (name, rows) store ->
  Assoc.get (getDatasetsSummary store) name = Some (summarize_table rows).
Proof.
  intros Hnd Hin. unfold getDatasetsSummary, Assoc.entries.
  now apply fold_summary_get_in.
Qed.

Lemma summarize_table_stats (r0 : Row) (rest : Table) :
  stats (summarize_table (r0 :: rest)) = Some (table_stats (r0 :: rest))
  /\ numeric_columns (summarize_table (r0 :: rest))
     = Some (numericColumns (r0 :: rest)).
Proof. split; reflexivity. Qed.

(** ** Integers in binary64

    Integers below 2^53 in absolute value are binary64 values; their sums are
    exact while they stay below 2^53, their order is the order of the
    integers, and a rounded quotient stays between integer bounds of the
    exact quotient. *)

Section Binary64.
Import JsNumber.
Local Open Scope Z_scope.
Local Unset Implicit Arguments.

Lemma digits2_pos_size (p : positive) : digits2_pos p = Pos.size p.
Proof. induction p; simpl; congruence. Qed.

Lemma Zdigits2_log2 (p : positive) : Zdigits2 (Zpos p) = Z.log2 (Zpos p) + 1.
Proof.
  unfold Zdigits2. rewrite digits2_pos_size.
  destruct p; simpl; lia.
Qed.

Lemma Zpos_digits2 (p : positive) : Zpos (digits2_pos p) = Z.log2 (Zpos p) + 1.
Proof. apply (Zdigits2_log2 p). Qed.

Lemma iter_xO (m d : positive) : Zpos (Pos.iter xO m d) = Zpos m * 2 ^ Zpos d.
Proof.
  rewrite <- Z.shiftl_mul_pow2 by lia.
  unfold Z.shiftl.
  apply (Pos.iter_swap_gen _ _ Zpos xO (Z.mul 2)). reflexivity.
Qed.

Lemma iter_pos_nat {A} (f : A -> A) (p : positive) (x : A) :
  iter_pos f p x = Nat.iter (Pos.to_nat p) f x.
Proof.
  revert x. induction p as [p IH|p IH|]; intros x; cbn [iter_pos].
  - rewrite !IH. rewrite Pos2Nat.inj_xI.
    replace (S (2 * Pos.to_nat p))%nat with (Pos.to_nat p + (Pos.to_nat p + 1))%nat by lia.
    rewrite !Nat.iter_add. simpl. reflexivity.
  - rewrite !IH. rewrite Pos2Nat.inj_xO.
    replace (2 * Pos.to_nat p)%nat with (Pos.to_nat p + Pos.to_nat p)%nat by lia.
    now rewrite Nat.iter_add.
  - reflexivity.
Qed.

Lemma shr_1_exact (m : Z) : 0 <= m ->
  shr_1 (Build_shr_record (2 * m) false false) = Build_shr_record m false false.
Proof. destruct m as [|p|p]; simpl; intros; trivial; lia. Qed.

Lemma shr_exact_nat (n : nat) (m : Z) : 0 <= m ->
  Nat.iter n shr_1 (Build_shr_record (m * 2 ^ Z.of_nat n) false false)
  = Build_shr_record m false false.
Proof.
  intros Hm. induction n as [|n IH].
  - simpl. f_equal. lia.
  - rewrite Nat.iter_succ_r.
    replace (m * 2 ^ Z.of_nat (S n)) with (2 * (m * 2 ^ Z.of_nat n)).
    + rewrite shr_1_exact by nia. exact IH.
    + rewrite Nat2Z.inj_succ, Z.pow_succ_r by lia. ring.
Qed.

Lemma shr_exact (m e j : Z) : 0 <= m -> 0 <= j ->
  shr (Build_shr_record (m * 2 ^ j) false false) e j
  = (Build_shr_record m false false, e + j).
Proof.
  intros Hm Hj. unfold shr. destruct j as [|p|p]; try lia.
  - now rewrite Z.pow_0_r, Z.mul_1_r, Z.add_0_r.
  - rewrite iter_pos_nat.
    rewrite <- (positive_nat_Z p) at 1.
    now rewrite shr_exact_nat.
Qed.

Lemma Zdigits2_pos (z : Z) : 0 < z -> Zdigits2 z = Z.log2 z + 1.
Proof. destruct z as [|p|p]; try lia. intros _. apply Zdigits2_log2. Qed.

Lemma fexp_mid (e : Z) : -1021 <= e -> fexp prec emax e = e - 53.
Proof. unfold fexp, emin, prec, emax. lia. Qed.

Lemma log2_mantissa (m : Z) : 2 ^ 52 <= m < 2 ^ 53 -> Z.log2 m = 52.
Proof. intros H. apply Z.log2_unique; lia. Qed.

Lemma shr_fexp_exact (m e j : Z) :
  2 ^ 52 <= m < 2 ^ 53 -> 0 <= j -> -1074 <= e + j ->
  shr_fexp prec emax (m * 2 ^ j) e loc_Exact
  = (Build_shr_record m false false, e + j).
Proof.
  intros Hm Hj He. unfold shr_fexp.
  assert (0 < 2 ^ j) by (apply Z.pow_pos_nonneg; lia).
  rewrite Zdigits2_pos by nia.
  rewrite Z.log2_mul_pow2, (log2_mantissa m Hm) by lia.
  rewrite fexp_mid by lia.
  replace (j + 52 + 1 + e - 53 - e) with j by lia.
  simpl shr_record_of_loc. apply shr_exact; lia.
Qed.

Lemma round_aux_exact (s : bool) (m e j : Z) :
  2 ^ 52 <= m < 2 ^ 53 -> 0 <= j -> -1074 <= e + j <= 971 ->
  binary_round_aux prec emax s (m * 2 ^ j) e loc_Exact
  = S754_finite s (Z.to_pos m) (e + j).
Proof.
  intros Hm Hj He. unfold binary_round_aux.
  rewrite shr_fexp_exact by lia.
  cbn [shr_m loc_of_shr_record round_nearest_even].
  replace m with (m * 2 ^ 0) at 1 by (rewrite Z.pow_0_r; lia).
  rewrite shr_fexp_exact by lia.
  cbn [shr_m]. rewrite Z.add_0_r.
  destruct m as [|p|p]; try lia.
  replace (e + j <=? emax - prec) with true; [reflexivity|].
  symmetry. apply Z.leb_le. unfold emax, prec. lia.
Qed.

Lemma canon_mantissa (v : Z) :
  0 < v < 2 ^ 53 -> 2 ^ 52 <= v * 2 ^ (52 - Z.log2 v) < 2 ^ 53.
Proof.
  intros Hv.
  destruct (Z.log2_spec v) as [Hlo Hhi]; [lia|].
  assert (0 <= Z.log2 v) by apply Z.log2_nonneg.
  assert (Z.log2 v < 53) by (apply Z.log2_lt_pow2; lia).
  replace (2 ^ 52) with (2 ^ Z.log2 v * 2 ^ (52 - Z.log2 v)).
  2:{ rewrite <- Z.pow_add_r by lia. f_equal. lia. }
  replace (2 ^ 53) with (2 ^ Z.succ (Z.log2 v) * 2 ^ (52 - Z.log2 v)).
  2:{ rewrite <- Z.pow_add_r by lia. f_equal. lia. }
  assert (0 < 2 ^ (52 - Z.log2 v)) by (apply Z.pow_pos_nonneg; lia).
  nia.
Qed.

Lemma binary_round_exact (s : bool) (v k : Z) :
  0 < v < 2 ^ 53 -> 0 <= k ->
  binary_round prec emax s (Z.to_pos (v * 2 ^ k)) (- k) = canon s v.
Proof.
  intros Hv Hk. unfold binary_round.
  assert (0 < 2 ^ k) by (apply Z.pow_pos_nonneg; lia).
  assert (0 <= Z.log2 v) by apply Z.log2_nonneg.
  assert (Z.log2 v < 53) by (apply Z.log2_lt_pow2; lia).
  pose proof (canon_mantissa v Hv) as Hc.
  rewrite Zpos_digits2, Z2Pos.id by nia.
  rewrite Z.log2_mul_pow2 by lia.
  rewrite fexp_mid by lia.
  unfold shl_align.
  replace (k + Z.log2 v + 1 + - k - 53 - - k) with (Z.log2 v - 52 + k) by lia.
  destruct (Z.log2 v - 52 + k) as [|p|p] eqn:E.
  - (* already aligned *)
    rewrite Z2Pos.id by nia.
    replace (v * 2 ^ k) with (v * 2 ^ (52 - Z.log2 v) * 2 ^ 0).
    2:{ replace k with (52 - Z.log2 v) by lia. rewrite Z.pow_0_r. lia. }
    rewrite round_aux_exact by lia. unfold canon. f_equal. lia.
  - (* the mantissa is too long: the rounding shifts it right, exactly *)
    rewrite Z2Pos.id by nia.
    replace (v * 2 ^ k) with (v * 2 ^ (52 - Z.log2 v) * 2 ^ Z.pos p).
    2:{ assert (2 ^ k = 2 ^ (52 - Z.log2 v) * 2 ^ Z.pos p) as ->; [|ring].
        rewrite <- Z.pow_add_r by lia. f_equal. lia. }
    rewrite round_aux_exact by lia. unfold canon. f_equal. lia.
  - (* the mantissa is too short: it is shifted left first *)
    rewrite iter_xO, Z2Pos.id by nia.
    replace (v * 2 ^ k * 2 ^ Z.pos p) with (v * 2 ^ (52 - Z.log2 v) * 2 ^ 0).
    2:{ assert (2 ^ (52 - Z.log2 v) = 2 ^ k * 2 ^ Z.pos p) as ->;
          [|rewrite Z.pow_0_r; ring].
        rewrite <- Z.pow_add_r by lia. f_equal. lia. }
    replace (k + Z.log2 v + 1 + - k - 53) with (Z.log2 v - 52) by lia.
    rewrite round_aux_exact by lia. unfold canon. f_equal. lia.
Qed.

Lemma normalize_exact (w k : Z) :
  Z.abs w < 2 ^ 53 -> 0 <= k ->
  binary_normalize prec emax (w * 2 ^ k) (- k) false = exact_int w.
Proof.
  intros Hw Hk.
  assert (0 < 2 ^ k) by (apply Z.pow_pos_nonneg; lia).
  destruct w as [|p|p]; simpl exact_int.
  - reflexivity.
  - destruct (Z.pos p * 2 ^ k) as [|p'|p'] eqn:E; try nia.
    simpl binary_normalize.
    rewrite <- (binary_round_exact false (Z.pos p) k) by lia.
    now rewrite E.
  - destruct (Z.neg p * 2 ^ k) as [|p'|p'] eqn:E; try nia.
    simpl binary_normalize.
    rewrite <- (binary_round_exact true (Z.pos p) k) by lia.
    f_equal. lia.
Qed.

Lemma of_Z_exact (z : Z) : Z.abs z < 2 ^ 53 -> of_Z z = exact_int z.
Proof.
  intros Hz. unfold of_Z.
  rewrite <- (normalize_exact z 0) by lia.
  f_equal. rewrite Z.pow_0_r. lia.
Qed.

Lemma shl_align_fst (m : positive) (e e' : Z) :
  e' <= e -> Zpos (fst (shl_align m e e')) = Zpos m * 2 ^ (e - e').
Proof.
  intros H. unfold shl_align.
  destruct (e' - e) as [|p|p] eqn:E; try lia.
  - cbn [fst]. replace (e - e') with 0 by lia. rewrite Z.pow_0_r. lia.
  - cbn [fst]. rewrite iter_xO. do 2 f_equal.
    pose proof (Pos2Z.opp_pos p). lia.
Qed.

Lemma canon_add (sa sb : bool) (a b : Z) :
  0 < a < 2 ^ 53 -> 0 < b < 2 ^ 53 ->
  Z.abs (cond_Zopp sa a + cond_Zopp sb b) < 2 ^ 53 ->
  add (canon sa a) (canon sb b) = exact_int (cond_Zopp sa a + cond_Zopp sb b).
Proof.
  intros Ha Hb Hab. unfold add, canon, SFadd.
  pose proof (canon_mantissa a Ha) as Hma.
  pose proof (canon_mantissa b Hb) as Hmb.
  pose proof (Z.log2_nonneg a). pose proof (Z.log2_nonneg b).
  assert (Z.log2 a < 53) by (apply Z.log2_lt_pow2; lia).
  assert (Z.log2 b < 53) by (apply Z.log2_lt_pow2; lia).
  set (ez := Z.min (Z.log2 a - 52) (Z.log2 b - 52)).
  rewrite !shl_align_fst by lia.
  rewrite !Z2Pos.id by lia.
  assert (forall v, 0 <= Z.log2 v < 53 -> ez <= Z.log2 v - 52 ->
            v * 2 ^ (52 - Z.log2 v) * 2 ^ (Z.log2 v - 52 - ez)
            = v * 2 ^ (- ez)) as Hsc.
  { intros v Hv Hez. rewrite <- Z.mul_assoc, <- Z.pow_add_r by lia.
    do 2 f_equal. lia. }
  rewrite !Hsc by lia.
  replace (cond_Zopp sa (a * 2 ^ (- ez)) + cond_Zopp sb (b * 2 ^ (- ez)))
    with ((cond_Zopp sa a + cond_Zopp sb b) * 2 ^ (- ez))
    by (destruct sa, sb; simpl; ring).
  rewrite <- (Z.opp_involutive ez) at 2.
  apply normalize_exact; lia.
Qed.

Lemma exact_int_canon (z : Z) :
  z <> 0 -> exact_int z = canon (z <? 0) (Z.abs z).
Proof. destruct z; simpl; intros; try reflexivity; lia. Qed.

Lemma cond_Zopp_abs (z : Z) : cond_Zopp (z <? 0) (Z.abs z) = z.
Proof. destruct z; reflexivity. Qed.

Lemma exact_int_add (a b : Z) :
  Z.abs a < 2 ^ 53 -> Z.abs b < 2 ^ 53 -> Z.abs (a + b) < 2 ^ 53 ->
  add (exact_int a) (exact_int b) = exact_int (a + b).
Proof.
  intros Ha Hb Hab.
  destruct (Z.eq_dec a 0) as [->|Hna].
  - simpl exact_int at 1. destruct b; reflexivity.
  - destruct (Z.eq_dec b 0) as [->|Hnb].
    + rewrite Z.add_0_r. destruct a; reflexivity.
    + rewrite (exact_int_canon a Hna), (exact_int_canon b Hnb).
      rewrite canon_add; rewrite ?cond_Zopp_abs; trivial; lia.
Qed.

(** Comparison of integer values *)

Lemma canon_compare (a b : Z) :
  0 < a < 2 ^ 53 -> 0 < b < 2 ^ 53 ->
  match Z.log2 a - 52 ?= Z.log2 b - 52 with
  | Eq => PosDef.Pos.compare_cont Eq
            (Z.to_pos (a * 2 ^ (52 - Z.log2 a)))
            (Z.to_pos (b * 2 ^ (52 - Z.log2 b)))
  | Lt => Lt
  | Gt => Gt
  end = (a ?= b).
Proof.
  intros Ha Hb.
  pose proof (canon_mantissa a Ha) as Hma.
  pose proof (canon_mantissa b Hb) as Hmb.
  destruct (Z.compare_spec (Z.log2 a - 52) (Z.log2 b - 52)) as [E|E|E].
  - change (PosDef.Pos.compare_cont Eq ?x ?y) with (Pos.compare x y).
    rewrite <- Z2Pos.inj_compare by lia.
    replace (Z.log2 b) with (Z.log2 a) by lia.
    assert (Z.log2 a < 53) by (apply Z.log2_lt_pow2; lia).
    assert (0 < 2 ^ (52 - Z.log2 a)) by (apply Z.pow_pos_nonneg; lia).
    destruct (Z.compare_spec a b),
      (Z.compare_spec (a * 2 ^ (52 - Z.log2 a)) (b * 2 ^ (52 - Z.log2 a)));
      trivial; nia.
  - symmetry. apply Z.compare_lt_iff. apply Z.log2_lt_cancel. lia.
  - symmetry. apply Z.compare_gt_iff. apply Z.log2_lt_cancel. lia.
Qed.

Lemma exact_int_compare (a b : Z) :
  Z.abs a < 2 ^ 53 -> Z.abs b < 2 ^ 53 ->
  SFcompare (exact_int a) (exact_int b) = Some (a ?= b).
Proof.
  intros Ha Hb.
  destruct a as [|a|a], b as [|b|b]; try reflexivity.
  - simpl exact_int. unfold canon. cbn [SFcompare].
    now rewrite canon_compare by lia.
  - simpl exact_int. unfold canon. cbn [SFcompare].
    change (- Z.neg a) with (Z.pos a). change (- Z.neg b) with (Z.pos b).
    pose proof (canon_compare (Z.pos a) (Z.pos b)) as H.
    change (Z.neg a ?= Z.neg b) with (CompOpp (Z.pos a ?= Z.pos b)).
    rewrite <- H by lia.
    now destruct (Z.log2 (Z.pos a) - 52 ?= Z.log2 (Z.pos b) - 52).
Qed.

Lemma exact_int_leb (a b : Z) :
  Z.abs a < 2 ^ 53 -> Z.abs b < 2 ^ 53 ->
  SFleb (exact_int a) (exact_int b) = (a <=? b).
Proof.
  intros Ha Hb. unfold SFleb. rewrite exact_int_compare by trivial.
  unfold Z.leb. now destruct (a ?= b).
Qed.

(** Division of integer values *)

Lemma shr_m_of_loc (m : Z) (l : location) : shr_m (shr_record_of_loc m l) = m.
Proof. destruct l as [|[| |]]; reflexivity. Qed.

Lemma loc_of_record_of_loc (m : Z) (l : location) :
  loc_of_shr_record (shr_record_of_loc m l) = l.
Proof. destruct l as [|[| |]]; reflexivity. Qed.

Lemma round_finish_spec (s : bool) (m e : Z) :
  2 ^ 52 <= m <= 2 ^ 53 -> -1074 <= e <= 900 ->
  exists mR eR,
    round_finish s m e = S754_finite s (Z.to_pos mR) eR
    /\ 2 ^ 52 <= mR < 2 ^ 53 /\ e <= eR /\ mR * 2 ^ (eR - e) = m.
Proof.
  intros Hm He. unfold round_finish.
  destruct (Z.eq_dec m (2 ^ 53)) as [->|Hne].
  - exists (2 ^ 52), (e + 1).
    change (2 ^ 53) with (2 ^ 52 * 2 ^ 1).
    rewrite shr_fexp_exact by lia. cbn [shr_m].
    replace (e + 1 <=? emax - prec) with true
      by (symmetry; apply Z.leb_le; unfold emax, prec; lia).
    repeat split; try lia.
    replace (e + 1 - e) with 1 by lia. reflexivity.
  - exists m, e.
    replace m with (m * 2 ^ 0) at 1 by (rewrite Z.pow_0_r; lia).
    rewrite shr_fexp_exact by lia. cbn [shr_m]. rewrite Z.add_0_r.
    replace (e <=? emax - prec) with true
      by (symmetry; apply Z.leb_le; unfold emax, prec; lia).
    destruct m as [|p|p]; try lia.
    repeat split; try lia.
    rewrite Z.sub_diag, Z.pow_0_r. lia.
Qed.

Lemma round_nearest_even_bounds (m : Z) (l : location) :
  m <= round_nearest_even m l <= m + 1
  /\ (l = loc_Exact -> round_nearest_even m l = m).
Proof.
  destruct l as [|[| |]]; simpl; try (split; [lia|trivial; discriminate]).
  destruct (Z.even m); split; try lia; discriminate.
Qed.

Lemma shr_1_m (m : Z) (l : location) :
  0 <= m -> shr_m (shr_1 (shr_record_of_loc m l)) = m / 2.
Proof.
  intros Hm. rewrite <- Z.div2_div.
  destruct m as [|[p|p|]|p]; try lia; destruct l as [|[| |]]; reflexivity.
Qed.

Lemma shr_1_exact_loc (m : Z) (l : location) :
  Z.odd m = false -> l = loc_Exact ->
  loc_of_shr_record (shr_1 (shr_record_of_loc m l)) = loc_Exact.
Proof.
  intros Ho ->.
  destruct m as [|[p|p|]|[p|p|]]; try discriminate; reflexivity.
Qed.

(** Rounding a quotient of 53 or 54 bits: the value of the result, in units
    of the last place of the quotient. *)
Lemma round_aux_quotient (s : bool) (q e : Z) (l : location) :
  2 ^ 52 <= q < 2 ^ 54 -> -1074 <= e <= 800 ->
  exists mR eR,
    binary_round_aux prec emax s q e l = S754_finite s (Z.to_pos mR) eR
    /\ 2 ^ 52 <= mR < 2 ^ 53 /\ e <= eR
    /\ (q < 2 ^ 53 ->
        q <= mR * 2 ^ (eR - e) <= q + 1
        /\ (l = loc_Exact -> mR * 2 ^ (eR - e) = q))
    /\ (2 ^ 53 <= q ->
        mR * 2 ^ (eR - e) = 2 * (q / 2)
        \/ (mR * 2 ^ (eR - e) = 2 * (q / 2) + 2
            /\ (Z.odd q = true \/ l <> loc_Exact))).
Proof.
  intros Hq He. unfold binary_round_aux.
  destruct (Z_lt_le_dec q (2 ^ 53)) as [Hlt|Hge].
  - (* 53 bits: no shift *)
    assert (shr_fexp prec emax q e l = (shr_record_of_loc q l, e)) as ->.
    { unfold shr_fexp. rewrite Zdigits2_pos by lia.
      rewrite (log2_mantissa q) by lia. rewrite fexp_mid by lia.
      replace (52 + 1 + e - 53 - e) with 0 by lia. reflexivity. }
    rewrite shr_m_of_loc, loc_of_record_of_loc.
    destruct (round_nearest_even_bounds q l) as [Hb Hex].
    destruct (round_finish_spec s (round_nearest_even q l) e) as (mR & eR & E & Hm & HeR & Hv);
      try lia.
    exists mR, eR. unfold round_finish in E. rewrite E.
    repeat split; try lia.
    intros ->. rewrite Hv. now apply Hex.
  - (* 54 bits: one bit is shifted out *)
    assert (Z.log2 q = 53) as Hlog by (apply Z.log2_unique; lia).
    assert (shr_fexp prec emax q e l
            = (shr_1 (shr_record_of_loc q l), e + 1)) as ->.
    { unfold shr_fexp. rewrite Zdigits2_pos by lia.
      rewrite Hlog. rewrite fexp_mid by lia.
      replace (53 + 1 + e - 53 - e) with 1 by lia. reflexivity. }
    assert (shr_m (shr_1 (shr_record_of_loc q l)) = q / 2) as Hm1
      by (apply shr_1_m; lia).
    rewrite Hm1.
    set (l' := loc_of_shr_record (shr_1 (shr_record_of_loc q l))) in *.
    destruct (round_nearest_even_bounds (q / 2) l') as [Hb Hex].
    assert (2 ^ 52 <= q / 2 < 2 ^ 53) as Hq2.
    { split.
      - apply Z.div_le_lower_bound; lia.
      - apply Z.div_lt_upper_bound; lia. }
    destruct (round_finish_spec s (round_nearest_even (q / 2) l') (e + 1))
      as (mR & eR & E & Hm & HeR & Hv); try lia.
    exists mR, eR. unfold round_finish in E. rewrite E.
    split; [reflexivity|]. split; [lia|]. split; [lia|].
    split; [lia|]. intros _.
    assert (mR * 2 ^ (eR - e) = 2 * round_nearest_even (q / 2) l') as Hval.
    { rewrite <- Hv. replace (eR - e) with (eR - (e + 1) + 1) by lia.
      rewrite Z.pow_add_r by lia. ring. }
    rewrite Hval.
    destruct (Z.eq_dec (round_nearest_even (q / 2) l') (q / 2)) as [Eq|Ne].
    + left. lia.
    + right. split; [lia|].
      destruct (Z.odd q) eqn:Eo; [now left|right].
      intros El. apply Ne, Hex.
      subst l'. now apply shr_1_exact_loc.
Qed.

Lemma new_location_exact (nb k : Z) :
  new_location nb k = loc_Exact <-> k = 0.
Proof.
  unfold new_location, new_location_even, new_location_odd.
  destruct (Z.even nb); destruct (Z.eqb_spec k 0); split; trivial;
    try discriminate; try tauto.
Qed.

Lemma pow2_pos (k : Z) : 0 <= k -> 0 < 2 ^ k.
Proof. intros. apply Z.pow_pos_nonneg; lia. Qed.

Lemma pow2_split (a b : Z) : 0 <= a -> 0 <= b -> 2 ^ (a + b) = 2 ^ a * 2 ^ b.
Proof. intros. apply Z.pow_add_r; lia. Qed.

(** The quotient of two integer values is the rounding of the integer
    quotient of their mantissas. *)
Lemma div_canon (s : bool) (S n : Z) :
  0 < S < 2 ^ 53 -> 0 < n < 2 ^ 53 ->
  div (canon s S) (canon false n) =
  binary_round_aux prec emax s
    ((S * 2 ^ (52 - Z.log2 S) * 2 ^ 53) / (n * 2 ^ (52 - Z.log2 n)))
    (Z.log2 S - Z.log2 n - 53)
    (new_location (n * 2 ^ (52 - Z.log2 n))
       ((S * 2 ^ (52 - Z.log2 S) * 2 ^ 53) mod (n * 2 ^ (52 - Z.log2 n)))).
Proof.
  intros HS Hn.
  pose proof (canon_mantissa S HS) as HmS.
  pose proof (canon_mantissa n Hn) as Hmn.
  unfold div, canon, SFdiv, SFdiv_core_binary.
  rewrite !Z2Pos.id by lia.
  rewrite !Zdigits2_pos by lia.
  rewrite (log2_mantissa _ HmS), (log2_mantissa _ Hmn).
  pose proof (Z.log2_nonneg S). pose proof (Z.log2_nonneg n).
  assert (Z.log2 S < 53) by (apply Z.log2_lt_pow2; lia).
  assert (Z.log2 n < 53) by (apply Z.log2_lt_pow2; lia).
  rewrite fexp_mid by lia.
  replace (Z.min (52 + 1 + (Z.log2 S - 52) - (52 + 1 + (Z.log2 n - 52)) - 53)
                 (Z.log2 S - 52 - (Z.log2 n - 52)))
    with (Z.log2 S - Z.log2 n - 53) by lia.
  replace (Z.log2 S - 52 - (Z.log2 n - 52) - (Z.log2 S - Z.log2 n - 53))
    with 53 by lia.
  rewrite Z.shiftl_mul_pow2 by lia.
  unfold Z.div, Z.modulo.
  destruct (Z.div_eucl (S * 2 ^ (52 - Z.log2 S) * 2 ^ 53)
                       (n * 2 ^ (52 - Z.log2 n))) as [q r].
  now rewrite xorb_false_r.
Qed.

Lemma scaled_lt (m1 m2 P Q : Z) :
  m1 < 2 ^ 53 -> 2 ^ 52 <= m2 -> 0 < P -> 2 <= Q ->
  m1 * P < m2 * (P * Q).
Proof.
  intros H1 H2 HP HQ.
  apply Z.lt_le_trans with (2 ^ 53 * P).
  - apply Z.mul_lt_mono_pos_r; lia.
  - rewrite (Z.mul_comm P Q), Z.mul_assoc.
    apply Z.mul_le_mono_nonneg_r; [lia|].
    change (2 ^ 53) with (2 ^ 52 * 2).
    apply Z.mul_le_mono_nonneg; lia.
Qed.

Lemma finite_compare_scaled (m1 m2 e1 e2 K : Z) :
  2 ^ 52 <= m1 < 2 ^ 53 -> 2 ^ 52 <= m2 < 2 ^ 53 ->
  0 <= e1 + K -> 0 <= e2 + K ->
  SFcompare (S754_finite false (Z.to_pos m1) e1)
            (S754_finite false (Z.to_pos m2) e2)
  = Some (m1 * 2 ^ (e1 + K) ?= m2 * 2 ^ (e2 + K)).
Proof.
  intros H1 H2 K1 K2. cbn [SFcompare]. f_equal.
  pose proof (pow2_pos (e1 + K) K1). pose proof (pow2_pos (e2 + K) K2).
  destruct (Z.compare_spec e1 e2) as [E|E|E].
  - subst e2.
    change (PosDef.Pos.compare_cont Eq ?x ?y) with (Pos.compare x y).
    rewrite <- Z2Pos.inj_compare by lia.
    destruct (Z.compare_spec m1 m2),
      (Z.compare_spec (m1 * 2 ^ (e1 + K)) (m2 * 2 ^ (e1 + K))); trivial; nia.
  - symmetry. apply Z.compare_lt_iff.
    replace (e2 + K) with (e1 + K + (e2 - e1)) by lia.
    rewrite (pow2_split (e1 + K) (e2 - e1)) by lia.
    assert (2 <= 2 ^ (e2 - e1)).
    { change 2 with (2 ^ 1) at 1. apply Z.pow_le_mono_r; lia. }
    apply scaled_lt; lia.
  - symmetry. apply Z.compare_gt_iff.
    replace (e1 + K) with (e2 + K + (e1 - e2)) by lia.
    rewrite (pow2_split (e2 + K) (e1 - e2)) by lia.
    assert (2 <= 2 ^ (e1 - e2)).
    { change 2 with (2 ^ 1) at 1. apply Z.pow_le_mono_r; lia. }
    apply scaled_lt; lia.
Qed.

Lemma quotient_le (X mn q r U : Z) :
  0 < mn -> X = mn * q + r -> 0 <= r < mn -> X <= U * mn ->
  q <= U /\ (r <> 0 -> q < U).
Proof.
  intros Hmn HX Hr HU. split; [|intros Hr0].
  - apply Z.mul_le_mono_pos_l with mn; lia.
  - apply Z.mul_lt_mono_pos_l with mn; lia.
Qed.

Lemma div_magnitude_bounds (s : bool) (S n : Z) :
  0 < S < 2 ^ 53 -> 0 < n < 2 ^ 53 ->
  exists mR eR,
    div (canon s S) (canon false n) = S754_finite s (Z.to_pos mR) eR
    /\ (forall l, 0 < l -> l * n <= S ->
          SFleb (canon false l) (S754_finite false (Z.to_pos mR) eR) = true)
    /\ (forall u, u < 2 ^ 53 -> S <= u * n ->
          SFleb (S754_finite false (Z.to_pos mR) eR) (canon false u) = true).
Proof.
  intros HS Hn. rewrite div_canon by trivial.
  pose proof (canon_mantissa S HS) as HmS.
  pose proof (canon_mantissa n Hn) as Hmn.
  pose proof (Z.log2_nonneg S). pose proof (Z.log2_nonneg n).
  assert (Z.log2 S < 53) by (apply Z.log2_lt_pow2; lia).
  assert (Z.log2 n < 53) by (apply Z.log2_lt_pow2; lia).
  set (a := 52 - Z.log2 S) in *. set (b := 52 - Z.log2 n) in *.
  set (mS := S * 2 ^ a) in *. set (mn := n * 2 ^ b) in *.
  set (c := 53 + Z.log2 n - Z.log2 S).
  replace (Z.log2 S - Z.log2 n - 53) with (- c) by (subst c; lia).
  assert (1 <= c <= 105) as Hc by (subst c; lia).
  pose proof (Z.div_mod (mS * 2 ^ 53) mn) as Hdm.
  pose proof (Z.mod_pos_bound (mS * 2 ^ 53) mn) as Hr.
  set (q := (mS * 2 ^ 53) / mn) in *. set (r := (mS * 2 ^ 53) mod mn) in *.
  specialize (Hdm ltac:(lia)). specialize (Hr ltac:(lia)).
  assert (2 ^ 52 <= q < 2 ^ 54) as Hq.
  { split.
    - apply Z.div_le_lower_bound; [lia|].
      apply Z.le_trans with (2 ^ 52 * 2 ^ 53).
      + rewrite Z.mul_comm. apply Z.mul_le_mono_nonneg_l; lia.
      + apply Z.mul_le_mono_nonneg_r; lia.
    - apply Z.div_lt_upper_bound; [lia|].
      apply Z.lt_le_trans with (2 ^ 53 * 2 ^ 53).
      + apply Z.mul_lt_mono_pos_r; lia.
      + change (2 ^ 53 * 2 ^ 53) with (2 ^ 52 * 2 ^ 54).
        apply Z.mul_le_mono_nonneg_r; lia. }
  destruct (round_aux_quotient s q (- c) (new_location mn r) Hq)
    as (mR & eR & E & HmR & HeR & H53 & H54); [lia|].
  exists mR, eR. split; [exact E|].
  set (VR := mR * 2 ^ (eR - - c)) in *.
  assert (2 ^ b * 2 ^ c = 2 ^ a * 2 ^ 53) as Hpow.
  { rewrite <- !Z.pow_add_r by lia. f_equal. subst a b c. lia. }
  pose proof (pow2_pos a ltac:(lia)) as Hpa.
  pose proof (pow2_pos b ltac:(lia)) as Hpb.
  pose proof (pow2_pos c ltac:(lia)) as Hpc.
  assert (2 ^ c = 2 * 2 ^ (c - 1)) as Heven.
  { replace c with (1 + (c - 1)) at 1 by lia.
    rewrite Z.pow_add_r by lia. reflexivity. }
  assert (forall v, 0 < v < 2 ^ 53 ->
            SFcompare (canon false v) (S754_finite false (Z.to_pos mR) eR)
            = Some (v * 2 ^ c ?= VR)) as Hcmp.
  { intros v Hv. unfold canon.
    pose proof (canon_mantissa v Hv). pose proof (Z.log2_nonneg v).
    assert (Z.log2 v < 53) by (apply Z.log2_lt_pow2; lia).
    rewrite finite_compare_scaled with (K := c + 52) by lia. f_equal.
    replace (v * 2 ^ (52 - Z.log2 v) * 2 ^ (Z.log2 v - 52 + (c + 52)))
      with (v * 2 ^ c * 2 ^ 52).
    2:{ rewrite <- !Z.mul_assoc, <- !Z.pow_add_r by lia. do 2 f_equal. lia. }
    replace (mR * 2 ^ (eR + (c + 52))) with (VR * 2 ^ 52).
    2:{ subst VR. rewrite <- !Z.mul_assoc, <- !Z.pow_add_r by lia.
        do 2 f_equal. lia. }
    destruct (Z.compare_spec (v * 2 ^ c) VR),
      (Z.compare_spec (v * 2 ^ c * 2 ^ 52) (VR * 2 ^ 52)); trivial; lia. }
  assert (forall v, 0 < v < 2 ^ 53 ->
            SFcompare (S754_finite false (Z.to_pos mR) eR) (canon false v)
            = Some (VR ?= v * 2 ^ c)) as Hcmp'.
  { intros v Hv. specialize (Hcmp v Hv).
    destruct (S754_finite false (Z.to_pos mR) eR) eqn:ER; try discriminate.
    unfold canon in *. cbn [SFcompare] in *.
    injection Hcmp as Hcmp. f_equal.
    rewrite (Z.compare_antisym (v * 2 ^ c) VR), <- Hcmp.
    change (PosDef.Pos.compare_cont Eq ?x ?y) with (Pos.compare x y).
    rewrite (Z.compare_antisym (Z.log2 v - 52) e).
    rewrite (Pos.compare_antisym (Z.to_pos (v * 2 ^ (52 - Z.log2 v))) m).
    injection ER as <- <- <-.
    destruct (Z.log2 v - 52 ?= eR); simpl; trivial. }
  split.
  - intros l Hl Hln.
    assert (l * 1 <= l * n) by (apply Z.mul_le_mono_nonneg_l; lia).
    assert (l < 2 ^ 53) by lia.
    unfold SFleb. rewrite Hcmp by lia.
    assert (l * 2 ^ c <= q) as HLq.
    { apply Z.div_le_lower_bound; [lia|].
      subst mn mS.
      replace (n * 2 ^ b * (l * 2 ^ c)) with (l * n * (2 ^ b * 2 ^ c)) by ring.
      rewrite Hpow.
      replace (S * 2 ^ a * 2 ^ 53) with (S * (2 ^ a * 2 ^ 53)) by ring.
      apply Z.mul_le_mono_nonneg_r; lia. }
    assert (l * 2 ^ c <= VR) as HLV.
    { destruct (Z_lt_le_dec q (2 ^ 53)) as [Hlt|Hge].
      - destruct (H53 Hlt) as [Hb _]. lia.
      - pose proof (Z.div_mod q 2 ltac:(lia)) as Hq2.
        pose proof (Z.mod_pos_bound q 2 ltac:(lia)).
        rewrite Heven in *.
        destruct (H54 Hge) as [Hv|[Hv _]]; lia. }
    destruct (Z.compare_spec (l * 2 ^ c) VR); trivial; lia.
  - intros u Hu HSu.
    assert (0 < u).
    { destruct (Z_lt_le_dec 0 u) as [|Hu0]; trivial.
      pose proof (Z.mul_nonpos_nonneg u n Hu0 ltac:(lia)). lia. }
    unfold SFleb. rewrite Hcmp' by lia.
    assert (mS * 2 ^ 53 <= u * 2 ^ c * mn) as HXU.
    { subst mn mS.
      replace (u * 2 ^ c * (n * 2 ^ b)) with (u * n * (2 ^ b * 2 ^ c)) by ring.
      rewrite Hpow.
      replace (S * 2 ^ a * 2 ^ 53) with (S * (2 ^ a * 2 ^ 53)) by ring.
      apply Z.mul_le_mono_nonneg_r; lia. }
    assert (q <= u * 2 ^ c /\ (r <> 0 -> q < u * 2 ^ c)) as [HqU HqU'].
    { apply quotient_le with (X := mS * 2 ^ 53) (mn := mn) (r := r); lia. }
    assert (VR <= u * 2 ^ c) as HVU.
    { destruct (Z_lt_le_dec q (2 ^ 53)) as [Hlt|Hge].
      - destruct (H53 Hlt) as [Hb Hex].
        destruct (Z.eq_dec r 0) as [Hr0|Hr0].
        + rewrite Hex; [lia|]. now apply new_location_exact.
        + specialize (HqU' Hr0). lia.
      - pose proof (Z.div_mod q 2 ltac:(lia)) as Hq2.
        pose proof (Z.mod_pos_bound q 2 ltac:(lia)).
        rewrite Heven in *.
        destruct (H54 Hge) as [Hv|[Hv Hin]]; [lia|].
        destruct Hin as [Hodd|Hloc].
        + rewrite Zodd_mod in Hodd.
          assert (q mod 2 = 1) by (destruct (Z.eqb_spec (q mod 2) 1); congruence).
          lia.
        + assert (r <> 0) as Hr0.
          { intros Hr0. apply Hloc. now apply new_location_exact. }
          specialize (HqU' Hr0). lia. }
    destruct (Z.compare_spec VR (u * 2 ^ c)); trivial; lia.
Qed.

Lemma compare_negatives (m1 m2 : positive) (e1 e2 : Z) :
  SFcompare (S754_finite true m1 e1) (S754_finite true m2 e2)
  = SFcompare (S754_finite false m2 e2) (S754_finite false m1 e1).
Proof.
  cbn [SFcompare]. f_equal.
  change (PosDef.Pos.compare_cont Eq ?x ?y) with (Pos.compare x y).
  rewrite (Z.compare_antisym e1 e2), (Pos.compare_antisym m1 m2).
  destruct (e1 ?= e2); simpl; trivial.
Qed.

(** The quotient of an integer by a positive integer lies between any two
    integers that bound the exact quotient. *)
Lemma exact_int_div_bounds (S n l u : Z) :
  Z.abs S < 2 ^ 53 -> 0 < n < 2 ^ 53 ->
  Z.abs l < 2 ^ 53 -> Z.abs u < 2 ^ 53 ->
  l * n <= S -> S <= u * n ->
  SFleb (exact_int l) (div (exact_int S) (exact_int n)) = true
  /\ SFleb (div (exact_int S) (exact_int n)) (exact_int u) = true.
Proof.
  intros HS Hn Hl Hu Hln Hun.
  assert (exact_int n = canon false n) as -> by (destruct n; try lia; reflexivity).
  destruct (Z.lt_trichotomy S 0) as [Hneg|[->|Hpos]].
  - (* a negative quotient *)
    assert (l < 0) by nia.
    rewrite (exact_int_canon S) by lia.
    replace (S <? 0) with true by (symmetry; apply Z.ltb_lt; lia).
    destruct (div_magnitude_bounds true (Z.abs S) n) as (mR & eR & -> & Hlo & Hhi);
      try lia.
    split.
    + rewrite (exact_int_canon l) by lia.
      replace (l <? 0) with true by (symmetry; apply Z.ltb_lt; lia).
      unfold SFleb, canon. rewrite compare_negatives.
      apply (Hhi (Z.abs l)); lia.
    + destruct (Z_lt_le_dec u 0) as [Hu0|Hu0].
      * rewrite (exact_int_canon u) by lia.
        replace (u <? 0) with true by (symmetry; apply Z.ltb_lt; lia).
        unfold SFleb, canon. rewrite compare_negatives.
        apply (Hlo (Z.abs u)); nia.
      * destruct u; try lia; reflexivity.
  - (* zero *)
    assert (l <= 0 <= u) by nia.
    unfold div, canon. cbn [exact_int SFdiv xorb].
    split; [destruct l | destruct u]; try lia; reflexivity.
  - (* a positive quotient *)
    assert (0 < u) by nia.
    rewrite (exact_int_canon S) by lia.
    replace (S <? 0) with false by (symmetry; apply Z.ltb_ge; lia).
    destruct (div_magnitude_bounds false (Z.abs S) n) as (mR & eR & -> & Hlo & Hhi);
      try lia.
    split.
    + destruct (Z_lt_le_dec 0 l) as [Hl0|Hl0].
      * rewrite (exact_int_canon l) by lia.
        replace (l <? 0) with false by (symmetry; apply Z.ltb_ge; lia).
        replace (Z.abs l) with l by lia. apply Hlo; lia.
      * destruct l; try lia; reflexivity.
    + rewrite (exact_int_canon u) by lia.
      replace (u <? 0) with false by (symmetry; apply Z.ltb_ge; lia).
      replace (Z.abs u) with u by lia. apply Hhi; lia.
Qed.
End Binary64.

(** ** Statistics of integer columns *)

Section IntegerColumns.
Import JsNumber.
Local Open Scope Z_scope.
Local Unset Implicit Arguments.

Lemma exact_int_not_NaN (z : Z) : isNaN (exact_int z) = false.
Proof. destruct z; reflexivity. Qed.

Lemma sum_abs_nonneg (zs : list Z) : 0 <= sum_abs zs.
Proof. induction zs as [|z zs IH]; simpl; lia. Qed.

Lemma sum_abs_In (zs : list Z) (z : Z) : In z zs -> Z.abs z <= sum_abs zs.
Proof.
  induction zs as [|z0 zs IH]; simpl; [tauto|].
  pose proof (sum_abs_nonneg zs).
  intros [->|Hin]; [lia|]. specialize (IH Hin). lia.
Qed.

Lemma sum_Z_abs (zs : list Z) : Z.abs (sum_Z zs) <= sum_abs zs.
Proof. induction zs as [|z zs IH]; simpl; lia. Qed.

Lemma sum_Z_bounds (zs : list Z) (lo hi : Z) :
  (forall z, In z zs -> lo <= z <= hi) ->
  lo * Z.of_nat (List.length zs) <= sum_Z zs <= hi * Z.of_nat (List.length zs).
Proof.
  induction zs as [|z zs IH]; intros H.
  - simpl. lia.
  - cbn [List.length sum_Z fold_right]. rewrite Nat2Z.inj_succ.
    assert (lo <= z <= hi) by (apply H; now left).
    assert (forall z', In z' zs -> lo <= z' <= hi) as H'
        by (intros z' Hz'; apply H; now right).
    specialize (IH H'). unfold sum_Z in IH. lia.
Qed.

Lemma map_of_Z_exact (zs : list Z) :
  sum_abs zs < 2 ^ 53 -> map of_Z zs = map exact_int zs.
Proof.
  intros H. apply map_ext_in. intros z Hz.
  apply of_Z_exact. pose proof (sum_abs_In zs z Hz). lia.
Qed.

(** The running sum of integers is exact while it stays below 2^53. *)
Lemma fold_add_exact (zs : list Z) :
  forall A,
    Z.abs A + sum_abs zs < 2 ^ 53 ->
    fold_left add (map exact_int zs) (exact_int A) = exact_int (A + sum_Z zs).
Proof.
  induction zs as [|z zs IH]; intros A HA.
  - simpl. now rewrite Z.add_0_r.
  - cbn [map fold_left sum_Z fold_right].
    cbn [sum_abs fold_right] in HA. fold (sum_abs zs) in HA.
    pose proof (sum_abs_nonneg zs).
    rewrite exact_int_add by lia.
    rewrite IH by lia. f_equal. unfold sum_Z. lia.
Qed.

Lemma sum_values_exact (zs : list Z) :
  sum_abs zs < 2 ^ 53 ->
  sum_values (map of_Z zs) = exact_int (sum_Z zs).
Proof.
  intros H. rewrite map_of_Z_exact by trivial.
  unfold sum_values. change pos_zero with (exact_int 0).
  rewrite fold_add_exact by (simpl; lia). reflexivity.
Qed.

Lemma Math_min_exact (zs : list Z) :
  zs <> [] -> sum_abs zs < 2 ^ 53 ->
  exists zm, In zm zs /\ Math_min (map of_Z zs) = exact_int zm
             /\ forall z, In z zs -> zm <= z.
Proof.
  intros Hne Hs. rewrite map_of_Z_exact by trivial.
  destruct (@min_from_spec (map exact_int zs) pos_infinity) as (_ & Hall & Hin).
  - reflexivity.
  - apply Forall_forall. intros v Hv. apply in_map_iff in Hv.
    destruct Hv as [z [<- _]]. apply exact_int_not_NaN.
  - fold (Math_min (map exact_int zs)) in *.
    rewrite Forall_forall in Hall.
    destruct Hin as [Hinf|Hin].
    + exfalso. destruct zs as [|z zs]; [congruence|].
      specialize (Hall (exact_int z) ltac:(now left)).
      rewrite Hinf in Hall. destruct z; discriminate.
    + apply in_map_iff in Hin. destruct Hin as [zm [Hzm Hin]].
      exists zm. split; [exact Hin|]. split; [now rewrite Hzm|].
      intros z Hz.
      specialize (Hall (exact_int z) (in_map exact_int zs z Hz)).
      rewrite <- Hzm in Hall.
      pose proof (sum_abs_In zs z Hz). pose proof (sum_abs_In zs zm Hin).
      unfold leb in Hall. rewrite exact_int_leb in Hall by lia.
      now apply Z.leb_le.
Qed.

Lemma Math_max_exact (zs : list Z) :
  zs <> [] -> sum_abs zs < 2 ^ 53 ->
  exists zM, In zM zs /\ Math_max (map of_Z zs) = exact_int zM
             /\ forall z, In z zs -> z <= zM.
Proof.
  intros Hne Hs. rewrite map_of_Z_exact by trivial.
  destruct (@max_from_spec (map exact_int zs) neg_infinity) as (_ & Hall & Hin).
  - reflexivity.
  - apply Forall_forall. intros v Hv. apply in_map_iff in Hv.
    destruct Hv as [z [<- _]]. apply exact_int_not_NaN.
  - fold (Math_max (map exact_int zs)) in *.
    rewrite Forall_forall in Hall.
    destruct Hin as [Hinf|Hin].
    + exfalso. destruct zs as [|z zs]; [congruence|].
      specialize (Hall (exact_int z) ltac:(now left)).
      rewrite Hinf in Hall. destruct z; discriminate.
    + apply in_map_iff in Hin. destruct Hin as [zM [HzM Hin]].
      exists zM. split; [exact Hin|]. split; [now rewrite HzM|].
      intros z Hz.
      specialize (Hall (exact_int z) (in_map exact_int zs z Hz)).
      rewrite <- HzM in Hall.
      pose proof (sum_abs_In zs z Hz). pose proof (sum_abs_In zs zM Hin).
      unfold leb in Hall. rewrite exact_int_leb in Hall by lia.
      now apply Z.leb_le.
Qed.

(** Over integers whose absolute values add up to less than 2^53, the
    mean lies between the minimum and the maximum. *)
Lemma integer_mean_between (zs : list Z) :
  zs <> [] -> sum_abs zs < 2 ^ 53 -> Z.of_nat (List.length zs) < 2 ^ 53 ->
  let st := stats_of_values (map of_Z zs) in
  leb (min st) (mean st) = true /\ leb (mean st) (max st) = true.
Proof.
  intros Hne Hs Hlen. cbv zeta. unfold stats_of_values. cbn [min mean max].
  destruct (Math_min_exact zs Hne Hs) as (zm & Hzm & -> & Hlo).
  destruct (Math_max_exact zs Hne Hs) as (zM & HzM & -> & Hhi).
  rewrite sum_values_exact by trivial.
  rewrite length_map. unfold of_nat.
  assert (0 < Z.of_nat (List.length zs)) by (destruct zs; [congruence|simpl; lia]).
  rewrite of_Z_exact by lia.
  pose proof (sum_abs_In zs zm Hzm). pose proof (sum_abs_In zs zM HzM).
  pose proof (sum_Z_abs zs).
  destruct (sum_Z_bounds zs zm zM) as [Hb1 Hb2].
  { intros z Hz. split; [now apply Hlo | now apply Hhi]. }
  apply exact_int_div_bounds; lia.
Qed.
End IntegerColumns.

(** ** Cells of decimal digits *)

Lemma digit_cases (c : N) :
  JsNumber.is_digit c = true ->
  (c = 48 \/ c = 49 \/ c = 50 \/ c = 51 \/ c = 52 \/ c = 53 \/ c = 54
   \/ c = 55 \/ c = 56 \/ c = 57)%N.
Proof.
  unfold JsNumber.is_digit. rewrite andb_true_iff, !N.leb_le. lia.
Qed.

Lemma digit_not_white_space (c : N) :
  JsNumber.is_digit c = true -> JsString.is_white_space c = false.
Proof.
  intros H. apply digit_cases in H.
  repeat (destruct H as [->|H]; [reflexivity|]). now subst.
Qed.

Lemma trimStart_digit (c : N) (s : jsstring) :
  JsNumber.is_digit c = true -> JsString.trimStart (c :: s) = c :: s.
Proof. intros H. simpl. now rewrite (digit_not_white_space c H). Qed.

Lemma trim_digits (s : jsstring) :
  Forall (fun c => JsNumber.is_digit c = true) s -> JsString.trim s = s.
Proof.
  intros H. unfold JsString.trim, JsString.trimEnd.
  assert (forall t, Forall (fun c => JsNumber.is_digit c = true) t ->
                    JsString.trimStart t = t) as Hstart.
  { intros t Ht. destruct Ht; [reflexivity|now apply trimStart_digit]. }
  rewrite (Hstart s H), Hstart, rev_involutive; trivial.
  now apply Forall_rev.
Qed.

Lemma read_digits_all (s : jsstring) :
  Forall (fun c => JsNumber.is_digit c = true) s ->
  forall acc len,
    JsNumber.read_digits s acc len =
    (fold_left (fun a c => 10 * a + (c - 48))%N s acc,
     (len + Z.of_nat (List.length s))%Z, []).
Proof.
  induction 1 as [|c s Hc _ IH]; intros acc len; cbn [JsNumber.read_digits].
  - cbn. now rewrite Z.add_0_r.
  - rewrite Hc, IH. cbn [fold_left List.length].
    rewrite Nat2Z.inj_succ. f_equal. f_equal. lia.
Qed.

Lemma non_decimal_digits (s : jsstring) :
  Forall (fun c => JsNumber.is_digit c = true) s ->
  JsNumber.non_decimal s = None.
Proof.
  intros H. destruct H as [|c s Hc H]; [reflexivity|].
  apply digit_cases in Hc.
  destruct H as [|c2 s Hc2 H].
  - repeat (destruct Hc as [->|Hc]; [reflexivity|]). now subst.
  - apply digit_cases in Hc2. destruct H as [|c3 s Hc3 H].
    + repeat (destruct Hc as [->|Hc]; [reflexivity|]). now subst.
    + repeat (destruct Hc as [->|Hc];
              [repeat (destruct Hc2 as [->|Hc2]; [reflexivity|]);
               now subst|]).
      subst. reflexivity.
Qed.

Lemma StringToNumber_unsigned (s s' : jsstring) (c : N) :
  JsString.trim s = c :: s' ->
  JsNumber.is_digit c = true ->
  JsNumber.StringToNumber s =
  match JsNumber.non_decimal (c :: s') with
  | Some v => v
  | None => JsNumber.unsigned_decimal false (c :: s')
  end.
Proof.
  intros E Hc. unfold JsNumber.StringToNumber. rewrite E.
  apply digit_cases in Hc.
  repeat (destruct Hc as [->|Hc]; [reflexivity|]). now subst.
Qed.

(** [Number] of a string of decimal digits is the Number value of the
    natural number the digits denote. *)
Lemma StringToNumber_digits (s : jsstring) :
  decimal_digits s ->
  JsNumber.StringToNumber s = JsNumber.of_Z (Z.of_N (digits_value s)).
Proof.
  intros [Hne Hd].
  destruct s as [|c s']; [congruence|].
  assert (JsNumber.is_digit c = true) as Hc by now inversion Hd.
  rewrite (@StringToNumber_unsigned (c :: s') s' c (trim_digits Hd) Hc).
  change (match JsNumber.non_decimal (c :: s') with
          | Some v => v
          | None => JsNumber.unsigned_decimal false (c :: s')
          end = JsNumber.of_Z (Z.of_N (digits_value (c :: s')))).
  rewrite (non_decimal_digits Hd).
  unfold JsNumber.unsigned_decimal.
  assert (JsString.eqb (c :: s') (js "Infinity") = false) as ->.
  { apply jsstring_eqb_neq. intros E.
    change (js "Infinity") with (73%N :: js "nfinity") in E.
    injection E as -> _. discriminate. }
  rewrite (read_digits_all Hd). cbn [List.length].
  replace (0 <? 0 + Z.of_nat (S (List.length s')) + 0)%Z with true
    by (symmetry; apply Z.ltb_lt; lia).
  cbn [JsNumber.read_exponent]. unfold digits_value.
  destruct (fold_left (fun a c0 => 10 * a + (c0 - 48))%N (c :: s') 0%N)
    as [|m]; [reflexivity|].
  cbn [JsNumber.of_decimal Z.sub Z.opp Z.add JsNumber.of_Z Z.of_N].
  unfold JsNumber.of_Z. f_equal.
  cbn [cond_Zopp]. rewrite Z.pow_0_r. lia.
Qed.

Section RoundingNeverNaN.
Import JsNumber.
Local Open Scope Z_scope.
Local Unset Implicit Arguments.

Lemma shr_1_nonneg (mrs : shr_record) :
  0 <= shr_m mrs -> 0 <= shr_m (shr_1 mrs).
Proof.
  destruct mrs as [m r s]. cbn [shr_m].
  destruct m as [|[p|p|]|p]; cbn [shr_1 shr_m]; lia.
Qed.

Lemma shr_nonneg (mrs : shr_record) (e n : Z) :
  0 <= shr_m mrs -> 0 <= shr_m (fst (shr mrs e n)).
Proof.
  intros H. unfold shr. destruct n as [|p|p]; cbn [fst]; trivial.
  rewrite iter_pos_nat.
  induction (Pos.to_nat p) as [|k IH]; cbn [Nat.iter]; trivial.
  now apply shr_1_nonneg.
Qed.

Lemma shr_fexp_nonneg (m e : Z) (l : location) :
  0 <= m -> 0 <= shr_m (fst (shr_fexp prec emax m e l)).
Proof.
  intros H. unfold shr_fexp. apply shr_nonneg. now rewrite shr_m_of_loc.
Qed.

Lemma binary_round_aux_not_NaN (s : bool) (m e : Z) (l : location) :
  0 <= m -> isNaN (binary_round_aux prec emax s m e l) = false.
Proof.
  intros H. unfold binary_round_aux.
  pose proof (shr_fexp_nonneg m e l H) as H1.
  destruct (shr_fexp prec emax m e l) as [mrs' e'] eqn:E1. cbn [fst] in H1.
  pose proof (round_nearest_even_bounds (shr_m mrs') (loc_of_shr_record mrs'))
    as [[H2 _] _].
  pose proof (shr_fexp_nonneg
                (round_nearest_even (shr_m mrs') (loc_of_shr_record mrs'))
                e' loc_Exact ltac:(lia)) as H3.
  destruct (shr_fexp prec emax
              (round_nearest_even (shr_m mrs') (loc_of_shr_record mrs'))
              e' loc_Exact) as [mrs'' e''].
  cbn [fst] in H3.
  destruct (shr_m mrs'') as [|p|p]; try lia; trivial.
  now destruct (e'' <=? emax - prec).
Qed.

Lemma of_Z_not_NaN (z : Z) : isNaN (of_Z z) = false.
Proof.
  unfold of_Z, binary_normalize, binary_round.
  destruct z as [|p|p]; trivial.
  - destruct (shl_align p 0 (fexp prec emax (Z.pos (digits2_pos p) + 0))).
    apply binary_round_aux_not_NaN. lia.
  - destruct (shl_align p 0 (fexp prec emax (Z.pos (digits2_pos p) + 0))).
    apply binary_round_aux_not_NaN. lia.
Qed.
End RoundingNeverNaN.

(** ** Sums of binary64 values

    A sum of binary64 values is -0 only when every summand is: the running
    sum of [reduce], which starts from +0, never is, so adding +0 to it
    leaves it as it is. *)

Section SumOfValues.
Import JsNumber.
Local Open Scope Z_scope.
Local Unset Implicit Arguments.

Lemma fexp_emin (e : Z) : -1074 <= fexp prec emax e.
Proof. unfold fexp, emin, prec, emax. lia. Qed.

Lemma shr_1_div2 (mrs : shr_record) :
  0 <= shr_m mrs -> shr_m (shr_1 mrs) = shr_m mrs / 2.
Proof.
  destruct mrs as [m r s]. cbn [shr_m]. intros Hm.
  rewrite <- Z.div2_div.
  destruct m as [|[p|p|]|p]; try lia; reflexivity.
Qed.

Lemma shr_iter_div (k : nat) (mrs : shr_record) :
  0 <= shr_m mrs ->
  shr_m (Nat.iter k shr_1 mrs) = shr_m mrs / 2 ^ Z.of_nat k.
Proof.
  intros Hm. induction k as [|k IH].
  - cbn. now rewrite Z.div_1_r.
  - rewrite Nat.iter_succ, shr_1_div2.
    + rewrite IH, Nat2Z.inj_succ, Z.pow_succ_r by lia.
      rewrite Z.div_div by (try apply Z.pow_pos_nonneg; lia).
      f_equal. lia.
    + rewrite IH. apply Z.div_pos; [lia|apply Z.pow_pos_nonneg; lia].
Qed.

Lemma shr_fexp_pos (m e : Z) (l : location) :
  0 < m -> -1074 <= e ->
  0 < shr_m (fst (shr_fexp prec emax m e l))
  /\ -1074 <= snd (shr_fexp prec emax m e l).
Proof.
  intros Hm He. unfold shr_fexp, shr.
  rewrite Zdigits2_pos by exact Hm.
  pose proof (Z.log2_spec m Hm) as [Hlo Hhi].
  pose proof (Z.log2_nonneg m) as Hlog.
  destruct (fexp prec emax (Z.log2 m + 1 + e) - e) as [|p|p] eqn:En;
    cbn [fst snd]; rewrite ?shr_m_of_loc; try (split; lia).
  assert (Zpos p = Z.log2 m + 1 - 53) as Hp.
  { unfold fexp, emin, prec, emax in En. lia. }
  split; [|lia].
  rewrite iter_pos_nat, shr_iter_div by (rewrite shr_m_of_loc; lia).
  rewrite shr_m_of_loc, positive_nat_Z, Hp.
  apply Z.div_str_pos. split; [apply Z.pow_pos_nonneg; lia|].
  eapply Z.le_trans; [|exact Hlo].
  apply Z.pow_le_mono_r; lia.
Qed.

Lemma binary_round_aux_finite (s : bool) (m e : Z) (l : location) :
  0 < m -> -1074 <= e ->
  bounded_below (binary_round_aux prec emax s m e l)
  /\ forall sz, binary_round_aux prec emax s m e l <> S754_zero sz.
Proof.
  intros Hm He. unfold binary_round_aux.
  destruct (shr_fexp_pos m e l Hm He) as [H1 H1'].
  destruct (shr_fexp prec emax m e l) as [mrs' e'].
  cbn [fst snd] in H1, H1'.
  pose proof (round_nearest_even_bounds (shr_m mrs') (loc_of_shr_record mrs'))
    as [[H2 _] _].
  destruct (shr_fexp_pos
              (round_nearest_even (shr_m mrs') (loc_of_shr_record mrs'))
              e' loc_Exact ltac:(lia) H1') as [H3 H3'].
  destruct (shr_fexp prec emax
              (round_nearest_even (shr_m mrs') (loc_of_shr_record mrs'))
              e' loc_Exact) as [mrs'' e''].
  cbn [fst snd] in H3, H3'.
  destruct (shr_m mrs'') as [|p|p]; try lia.
  destruct (e'' <=? emax - prec); split; cbn [bounded_below]; trivial;
    discriminate.
Qed.

Lemma binary_round_aux_bounded (s : bool) (m e : Z) (l : location) :
  bounded_below (binary_round_aux prec emax s m e l).
Proof.
  unfold binary_round_aux.
  destruct (shr_fexp prec emax m e l) as [mrs' e'].
  set (m2 := round_nearest_even (shr_m mrs') (loc_of_shr_record mrs')).
  assert (-1074 <= snd (shr_fexp prec emax m2 e' loc_Exact)) as H.
  { unfold shr_fexp, shr.
    pose proof (fexp_emin (Zdigits2 m2 + e')).
    destruct (fexp prec emax (Zdigits2 m2 + e') - e') eqn:En; cbn [snd]; lia. }
  destruct (shr_fexp prec emax m2 e' loc_Exact) as [mrs'' e''].
  cbn [snd] in H.
  destruct (shr_m mrs'') as [|p|p]; cbn [bounded_below]; trivial.
  destruct (e'' <=? emax - prec); cbn [bounded_below]; trivial.
Qed.

Lemma shl_align_exponent (m : positive) (e : Z) :
  -1074 <= e ->
  -1074 <= snd (shl_align m e (fexp prec emax (Zpos (digits2_pos m) + e))).
Proof.
  intros He. unfold shl_align.
  pose proof (fexp_emin (Zpos (digits2_pos m) + e)).
  destruct (fexp prec emax (Zpos (digits2_pos m) + e) - e); cbn [snd]; lia.
Qed.

Lemma binary_normalize_bounded (m e : Z) (sz : bool) :
  bounded_below (binary_normalize prec emax m e sz).
Proof.
  unfold binary_normalize, binary_round.
  destruct m as [|p|p]; cbn [bounded_below]; trivial;
    destruct (shl_align p e _); apply binary_round_aux_bounded.
Qed.

Lemma binary_normalize_not_neg_zero (m e : Z) :
  -1074 <= e -> binary_normalize prec emax m e false <> S754_zero true.
Proof.
  intros He. unfold binary_normalize, binary_round.
  destruct m as [|p|p]; [discriminate| |];
    pose proof (shl_align_exponent p e He) as H;
    destruct (shl_align p e _) as [mz ez]; cbn [snd] in H;
    apply binary_round_aux_finite; lia.
Qed.

Lemma add_bounded (x y : t) :
  bounded_below x -> bounded_below y -> bounded_below (add x y).
Proof.
  intros Hx Hy. unfold add.
  destruct x as [sx|sx| |sx mx ex], y as [sy|sy| |sy my ey];
    cbn [SFadd]; try exact I; try exact Hx; try exact Hy;
    try (destruct sx, sy; exact I).
  apply binary_normalize_bounded.
Qed.

Lemma add_not_neg_zero (x y : t) :
  bounded_below x -> bounded_below y ->
  x <> neg_zero -> add x y <> neg_zero.
Proof.
  intros Hx Hy Hn. unfold add, neg_zero in *.
  destruct x as [sx|sx| |sx mx ex], y as [sy|sy| |sy my ey];
    cbn [SFadd]; try discriminate;
    try (destruct sx, sy; try discriminate; congruence).
  cbn [bounded_below] in *. apply binary_normalize_not_neg_zero. lia.
Qed.

Lemma add_pos_zero_r (x : t) : x <> neg_zero -> add x pos_zero = x.
Proof.
  unfold neg_zero. destruct x as [[|]|[|]| |s m e]; intros H; try reflexivity.
  congruence.
Qed.

Lemma fold_add_invariant (l : list t) :
  Forall bounded_below l ->
  forall acc, bounded_below acc -> acc <> neg_zero ->
    bounded_below (fold_left add l acc) /\ fold_left add l acc <> neg_zero.
Proof.
  induction 1 as [|v l Hv _ IH]; intros acc Hb Hn; cbn [fold_left].
  - now split.
  - apply IH; [now apply add_bounded | now apply add_not_neg_zero].
Qed.

(** A value +0 among the summands does not change the sum. *)
Lemma sum_values_insert_zero (a b : list t) :
  Forall bounded_below a ->
  sum_values (a ++ pos_zero :: b) = sum_values (a ++ b).
Proof.
  intros Ha. unfold sum_values. rewrite !fold_left_app. cbn [fold_left].
  rewrite add_pos_zero_r; [reflexivity|].
  apply fold_add_invariant; [exact Ha|exact I|discriminate].
Qed.
End SumOfValues.

(** ** The strings that are numbers

    [StringToNumber] gives a number, and not NaN, exactly on the strings of
    the grammar. *)

Section NumericStrings.
Import JsNumber.
Local Unset Implicit Arguments.


Ltac bits p := do 7 (try (destruct p as [p|p|]; try reflexivity)).

Lemma StringToNumber_eq (s : jsstring) :
  StringToNumber s =
  match JsString.trim s with
  | [] => pos_zero
  | c :: t =>
      if (c =? 43)%N then unsigned_decimal false t
      else if (c =? 45)%N then unsigned_decimal true t
      else match non_decimal (c :: t) with
           | Some v => v
           | None => unsigned_decimal false (c :: t)
           end
  end.
Proof.
  unfold StringToNumber. destruct (JsString.trim s) as [|c t]; [reflexivity|].
  destruct c as [|p]; [reflexivity|]. bits p.
Qed.


Lemma read_exponent_eq (s : jsstring) :
  read_exponent s =
  match s with
  | [] => Some 0%Z
  | c :: s1 =>
      if ((c =? 101) || (c =? 69))%N then
        let '(sg, s2) := exponent_sign s1 in
        match read_digits s2 0%N 0%Z with
        | (v, len, []) =>
            if (0 <? len)%Z then Some (cond_Zopp sg (Z.of_N v)) else None
        | _ => None
        end
      else None
  end.
Proof.
  destruct s as [|c s1]; [reflexivity|].
  unfold read_exponent, exponent_sign.
  destruct s1 as [|c1 s2]; [reflexivity|].
  destruct c1 as [|p]; [reflexivity|]. bits p.
Qed.

Lemma unsigned_decimal_eq (sg : bool) (s : jsstring) :
  unsigned_decimal sg s =
  if JsString.eqb s (js "Infinity") then S754_infinity sg else
  let '(i, ni, s1) := read_digits s 0%N 0%Z in
  let '(m, nf, s2) :=
    match s1 with
    | c :: s1' => if (c =? 46)%N then read_digits s1' i 0%Z else (i, 0%Z, s1)
    | [] => (i, 0%Z, s1)
    end in
  if (0 <? ni + nf)%Z then
    match read_exponent s2 with
    | Some e => of_decimal sg m (e - nf)
    | None => NaN
    end
  else NaN.
Proof.
  unfold unsigned_decimal.
  destruct (JsString.eqb s (js "Infinity")); [reflexivity|].
  destruct (read_digits s 0%N 0%Z) as [[i ni] s1].
  destruct s1 as [|c s1']; [reflexivity|].
  destruct c as [|p]; [reflexivity|]. bits p.
Qed.


Lemma non_decimal_eq (s : jsstring) :
  non_decimal s =
  match s with
  | c0 :: c :: d :: ds =>
      if (c0 =? 48)%N then
        match radix_of c with
        | Some r =>
            match read_radix r (d :: ds) 0%N with
            | Some v => Some (of_Z (Z.of_N v))
            | None => None
            end
        | None => None
        end
      else None
  | _ => None
  end.
Proof.
  unfold non_decimal, radix_of.
  destruct s as [|c0 [|c [|d ds]]]; try reflexivity;
    (destruct c0 as [|p]; [reflexivity|]; bits p).
Qed.


Lemma is_digit_iff (c : N) : is_digit c = true <-> decimal_digit c.
Proof.
  unfold is_digit, decimal_digit.
  now rewrite andb_true_iff, !N.leb_le.
Qed.

Lemma is_digit_false (c : N) : is_digit c = false <-> ~ decimal_digit c.
Proof.
  rewrite <- is_digit_iff. destruct (is_digit c); intuition congruence.
Qed.

(** [read_digits] reads a prefix of digits that ends the string or stops
    before a character that is no digit. *)
Lemma read_digits_app (ds rest : list N) :
  Forall decimal_digit ds ->
  (forall c r, rest = c :: r -> ~ decimal_digit c) ->
  forall acc len, exists v,
    read_digits (ds ++ rest) acc len
    = (v, (len + Z.of_nat (List.length ds))%Z, rest).
Proof.
  intros Hds Hrest. induction Hds as [|c ds Hc _ IH]; intros acc len.
  - cbn [app List.length]. exists acc. rewrite Z.add_0_r.
    destruct rest as [|c r]; [reflexivity|].
    cbn [read_digits].
    now rewrite (proj2 (is_digit_false c) (Hrest c r eq_refl)).
  - cbn [app read_digits List.length].
    rewrite (proj2 (is_digit_iff c) Hc).
    destruct (IH (10 * acc + (c - 48))%N (len + 1)%Z) as [v E].
    exists v. rewrite E. f_equal. f_equal. lia.
Qed.

Lemma read_digits_split (s : list N) :
  forall acc len, exists (ds rest : list N) v,
    s = ds ++ rest /\ Forall decimal_digit ds
    /\ (forall c r, rest = c :: r -> ~ decimal_digit c)
    /\ read_digits s acc len = (v, (len + Z.of_nat (List.length ds))%Z, rest).
Proof.
  induction s as [|c s IH]; intros acc len.
  - exists [], [], acc. cbn. rewrite Z.add_0_r.
    repeat split; trivial. discriminate.
  - cbn [read_digits]. destruct (is_digit c) eqn:Ec.
    + destruct (IH (10 * acc + (c - 48))%N (len + 1)%Z)
        as (ds & rest & v & -> & Hds & Hrest & E).
      exists (c :: ds), rest, v. rewrite E. cbn [List.length app].
      repeat split; trivial.
      * constructor; [now apply is_digit_iff | exact Hds].
      * f_equal. f_equal. lia.
    + exists [], (c :: s), acc. cbn [app List.length]. rewrite Z.add_0_r.
      repeat split; trivial.
      intros c' r [= <- <-]. now apply is_digit_false.
Qed.

(** The exponent part *)

Lemma exponent_sign_spec (s1 : list N) :
  exists sg : list N, sign_prefix sg /\ s1 = sg ++ snd (exponent_sign s1).
Proof.
  unfold exponent_sign. destruct s1 as [|c1 s2].
  - exists []. split; [now left | reflexivity].
  - destruct (N.eqb_spec c1 43) as [->|H1].
    + exists (js "+"). split; [right; now left | reflexivity].
    + destruct (N.eqb_spec c1 45) as [->|H2].
      * exists (js "-"). split; [right; now right | reflexivity].
      * exists []. split; [now left | reflexivity].
Qed.

Lemma exponent_sign_app (sg ds : list N) :
  sign_prefix sg -> ds <> [] -> Forall decimal_digit ds ->
  snd (exponent_sign (sg ++ ds)) = ds.
Proof.
  intros [->|[->| ->]] Hne Hds; try reflexivity.
  cbn [app]. unfold exponent_sign.
  destruct ds as [|c ds']; [congruence|].
  inversion Hds as [|? ? Hc _]; subst. unfold decimal_digit in Hc.
  destruct (N.eqb_spec c 43); [lia|]. destruct (N.eqb_spec c 45); [lia|].
  reflexivity.
Qed.

Lemma read_exponent_Some (s : list N) (e : Z) :
  read_exponent s = Some e -> s = [] \/ exponent_part s.
Proof.
  rewrite read_exponent_eq. destruct s as [|c s1]; [now left|].
  intros H. right.
  destruct ((c =? 101) || (c =? 69))%N eqn:Ec; [|discriminate].
  destruct (exponent_sign_spec s1) as (sg & Hsg & Es1).
  destruct (exponent_sign s1) as [b s2]. cbn [snd] in Es1.
  destruct (read_digits_split s2 0%N 0%Z)
    as (ds & rest & v & -> & Hds & _ & E).
  rewrite E in H. destruct rest as [|c' r]; [|discriminate].
  rewrite app_nil_r in *.
  destruct (0 <? 0 + Z.of_nat (List.length ds))%Z eqn:El; [|discriminate].
  apply orb_true_iff in Ec. rewrite !N.eqb_eq in Ec.
  exists c, sg, ds. split; [now rewrite Es1|]. split; [exact Ec|].
  split; [exact Hsg|]. split; [intros ->; discriminate | exact Hds].
Qed.

Lemma read_exponent_complete (s : list N) :
  s = [] \/ exponent_part s -> exists e, read_exponent s = Some e.
Proof.
  intros [->|(c & sg & ds & -> & Hc & Hsg & Hne & Hds)].
  - now exists 0%Z.
  - rewrite read_exponent_eq.
    assert (((c =? 101) || (c =? 69))%N = true) as ->.
    { apply orb_true_iff. rewrite !N.eqb_eq. exact Hc. }
    pose proof (exponent_sign_app sg ds Hsg Hne Hds) as E2.
    destruct (exponent_sign (sg ++ ds)) as [b s2]. cbn [snd] in E2. subst s2.
    destruct (read_digits_app ds [] Hds ltac:(discriminate) 0%N 0%Z)
      as [v E].
    rewrite app_nil_r in E. rewrite E.
    assert ((0 <? 0 + Z.of_nat (List.length ds))%Z = true) as ->.
    { apply Z.ltb_lt. destruct ds; [congruence|cbn [List.length]; lia]. }
    eauto.
Qed.

(** Rounding gives a number *)

Lemma binary_normalize_not_NaN (m e : Z) (sz : bool) :
  isNaN (binary_normalize prec emax m e sz) = false.
Proof.
  unfold binary_normalize, binary_round.
  destruct m as [|p|p]; trivial;
    destruct (shl_align p e _); apply binary_round_aux_not_NaN; lia.
Qed.

Lemma round_ratio_not_NaN (s : bool) (n d : positive) :
  isNaN (round_ratio s n d) = false.
Proof.
  unfold round_ratio, SFdiv_core_binary. cbv zeta.
  set (sh := (0 - 0 - Z.min (fexp prec emax (Zdigits2 (Z.pos n) + 0 - (Zdigits2 (Z.pos d) + 0))) (0 - 0))%Z).
  set (m' := match sh with
             | Zpos _ => Z.shiftl (Z.pos n) sh
             | Z0 => Z.pos n
             | Zneg _ => 0%Z
             end).
  assert (0 <= m')%Z as Hm.
  { subst m'. destruct sh; try lia. apply Z.shiftl_nonneg. lia. }
  pose proof (Z.div_pos m' (Z.pos d) Hm ltac:(lia)) as Hq.
  unfold Z.div in Hq.
  destruct (Z.div_eucl m' (Z.pos d)) as [q r]. cbn [fst] in Hq.
  now apply binary_round_aux_not_NaN.
Qed.

Lemma of_decimal_not_NaN (s : bool) (m : N) (p : Z) :
  isNaN (of_decimal s m p) = false.
Proof.
  unfold of_decimal. destruct m as [|m']; [reflexivity|].
  destruct p as [|k|k];
    try apply binary_normalize_not_NaN. apply round_ratio_not_NaN.
Qed.

(** The unsigned decimal literal *)

Lemma unsigned_decimal_sound (sg : bool) (s : list N) :
  isNaN (unsigned_decimal sg s) = false -> unsigned_decimal_literal s.
Proof.
  rewrite unsigned_decimal_eq.
  destruct (JsString.eqb s (js "Infinity")) eqn:Einf.
  { intros _. left. now apply jsstring_eqb_eq. }
  destruct (read_digits_split s 0%N 0%Z)
    as (int & s1 & i & -> & Hint & Hs1 & E).
  rewrite E. intros H. right.
  destruct s1 as [|c s1'].
  - rewrite Z.add_0_r in H.
    destruct (0 <? 0 + Z.of_nat (List.length int))%Z eqn:El; [|discriminate].
    exists int, [], []. repeat split; trivial; [now left|].
    left. split; [|reflexivity]. intros ->. discriminate.
  - destruct (N.eqb_spec c 46) as [->|Hc].
    + destruct (read_digits_split s1' i 0%Z)
        as (frac & s2 & m & -> & Hfrac & _ & E').
      rewrite E' in H.
      destruct (0 <? 0 + Z.of_nat (List.length int)
                     + (0 + Z.of_nat (List.length frac)))%Z eqn:El;
        [|discriminate].
      destruct (read_exponent s2) as [e|] eqn:Ee; [|discriminate].
      apply read_exponent_Some in Ee.
      exists int, frac, s2. repeat split; trivial.
      right. split; [|reflexivity].
      apply Z.ltb_lt in El.
      destruct int; [|left; discriminate].
      destruct frac; [cbn in El; lia|right; discriminate].
    + rewrite Z.add_0_r in H.
      destruct (0 <? 0 + Z.of_nat (List.length int))%Z eqn:El; [|discriminate].
      destruct (read_exponent (c :: s1')) as [e|] eqn:Ee; [|discriminate].
      apply read_exponent_Some in Ee.
      exists int, [], (c :: s1'). repeat split; trivial.
      left. split; [|reflexivity]. intros ->. discriminate.
Qed.

Lemma exponent_head (ex : list N) :
  ex = [] \/ exponent_part ex ->
  forall c r, ex = c :: r -> ~ decimal_digit c /\ c <> 46%N.
Proof.
  intros [->|(e & sg & ds & -> & He & _)] c r; [discriminate|].
  intros [= <- _]. unfold decimal_digit. lia.
Qed.

Lemma unsigned_decimal_complete (sg : bool) (s : list N) :
  unsigned_decimal_literal s -> isNaN (unsigned_decimal sg s) = false.
Proof.
  intros H. rewrite unsigned_decimal_eq.
  destruct (JsString.eqb s (js "Infinity")) eqn:Einf; [reflexivity|].
  destruct H as [->|(int & frac & ex & Hint & Hfrac & Hex & H)].
  { now rewrite jsstring_eqb_refl in Einf. }
  destruct (read_exponent_complete ex Hex) as [e Ee].
  pose proof (exponent_head ex Hex) as Hhead.
  destruct H as [[Hne ->]|[Hne ->]].
  - destruct (read_digits_app int ex Hint
                ltac:(intros c r Hc; now apply (Hhead c r)) 0%N 0%Z)
      as [i E].
    rewrite E.
    assert ((0 <? 0 + Z.of_nat (List.length int) + 0)%Z = true) as El.
    { apply Z.ltb_lt. destruct int; [congruence|cbn [List.length]; lia]. }
    destruct ex as [|c r].
    + cbv beta iota. rewrite El, Ee. apply of_decimal_not_NaN.
    + destruct (Hhead c r eq_refl) as [_ Hc].
      cbv beta iota. destruct (N.eqb_spec c 46) as [|_]; [congruence|].
      rewrite El, Ee. apply of_decimal_not_NaN.
  - destruct (read_digits_app int (46%N :: frac ++ ex) Hint) with
      (acc := 0%N) (len := 0%Z) as [i E].
    { intros c r [= <- _]. unfold decimal_digit. lia. }
    rewrite E. cbv beta iota. rewrite N.eqb_refl.
    destruct (read_digits_app frac ex Hfrac
                ltac:(intros c r Hc; now apply (Hhead c r)) i 0%Z)
      as [m E'].
    rewrite E'.
    assert ((0 <? 0 + Z.of_nat (List.length int)
                 + (0 + Z.of_nat (List.length frac)))%Z = true) as El.
    { apply Z.ltb_lt.
      destruct Hne as [Hne|Hne];
        [destruct int|destruct frac]; try congruence; cbn [List.length]; lia. }
    rewrite El, Ee. apply of_decimal_not_NaN.
Qed.


Ltac norm := unfold jsstring, JsString.t, JsString.code_unit in *.

Ltac split_tests :=
  repeat (cbv zeta; cbn [andb orb];
          match goal with
          | |- context [(?a <=? ?b)%N] => destruct (N.leb_spec a b)
          | |- context [(?a =? ?b)%N] => destruct (N.eqb_spec a b)
          | |- context [(?a <? ?b)%N] => destruct (N.ltb_spec a b)
          end);
  cbv zeta; cbn [andb orb].

Lemma digit_value_hex (c : N) : digit_value 16 c <> None <-> hex_digit c.
Proof.
  unfold digit_value, hex_digit. split_tests; cbn [andb];
    split; intros; try congruence; try lia.
Qed.

Lemma digit_value_octal (c : N) : digit_value 8 c <> None <-> octal_digit c.
Proof.
  unfold digit_value, octal_digit. split_tests; cbn [andb];
    split; intros; try congruence; try lia.
Qed.

Lemma digit_value_binary (c : N) : digit_value 2 c <> None <-> binary_digit c.
Proof.
  unfold digit_value, binary_digit. split_tests; cbn [andb];
    split; intros; try congruence; try lia.
Qed.

Lemma read_radix_Some (r : N) (ds : list N) :
  forall acc,
    (exists v, read_radix r ds acc = Some v) <->
    Forall (fun c => digit_value r c <> None) ds.
Proof.
  induction ds as [|c ds IH]; intros acc; cbn [read_radix].
  - split; [constructor | eauto].
  - destruct (digit_value r c) as [d|] eqn:Ed.
    + rewrite IH. split; intros H.
      * constructor; [congruence | exact H].
      * now inversion H.
    + split; [intros [v Hv]; discriminate|].
      intros H. inversion H; congruence.
Qed.

Lemma radix_digits (c : N) (r : N) (ds : list N) :
  radix_of c = Some r ->
  (Forall (fun x => digit_value r x <> None) ds <->
   ((c = 120 \/ c = 88)%N /\ Forall hex_digit ds)
   \/ ((c = 111 \/ c = 79)%N /\ Forall octal_digit ds)
   \/ ((c = 98 \/ c = 66)%N /\ Forall binary_digit ds)).
Proof.
  unfold radix_of. rewrite !Forall_forall.
  split_tests; cbn [orb]; intros [= <-]; subst;
    (split;
     [intros H; try (left; split; [lia|]);
      try (right; left; split; [lia|]); try (right; right; split; [lia|]);
      intros x Hx;
      first [apply digit_value_hex | apply digit_value_octal
            | apply digit_value_binary]; now apply H
     |intros [[Hc H]|[[Hc H]|[Hc H]]]; try lia; intros x Hx;
      first [apply digit_value_hex | apply digit_value_octal
            | apply digit_value_binary]; now apply H]).
Qed.

Lemma radix_of_None (c : N) :
  radix_of c = None ->
  ~ (c = 120 \/ c = 88 \/ c = 111 \/ c = 79 \/ c = 98 \/ c = 66)%N.
Proof.
  unfold radix_of. split_tests; cbn [orb]; intros; try discriminate; lia.
Qed.

Lemma non_decimal_sound (s : list N) (v : t) :
  non_decimal s = Some v -> non_decimal_literal s /\ isNaN v = false.
Proof.
  rewrite non_decimal_eq. norm.
  destruct s as [|c0 [|c [|d ds]]]; try discriminate.
  destruct (N.eqb_spec c0 48) as [->|_]; [|discriminate].
  destruct (radix_of c) as [r|] eqn:Er; [|discriminate].
  destruct (read_radix r (d :: ds) 0%N) as [n|] eqn:En; [|discriminate].
  intros [= <-]. split; [|apply of_Z_not_NaN].
  exists c, (d :: ds). split; [reflexivity|]. split; [discriminate|].
  apply (radix_digits c r (d :: ds) Er).
  apply (read_radix_Some r (d :: ds) 0%N). eauto.
Qed.

Lemma non_decimal_complete (s : list N) :
  non_decimal_literal s ->
  exists v, non_decimal s = Some v /\ isNaN v = false.
Proof.
  intros (p & ds & -> & Hne & H). rewrite non_decimal_eq. norm.
  destruct ds as [|d ds]; [congruence|]. cbn [N.eqb Pos.eqb].
  destruct (radix_of p) as [r|] eqn:Er.
  - apply (radix_digits p r (d :: ds) Er) in H.
    apply (read_radix_Some r (d :: ds) 0%N) in H. destruct H as [n ->].
    eexists. split; [reflexivity|apply of_Z_not_NaN].
  - apply radix_of_None in Er. exfalso. apply Er. tauto.
Qed.

(** White space around a literal *)

Lemma trimStart_split (s : list N) :
  exists ws : list N, s = ws ++ JsString.trimStart s /\ all_white_space ws.
Proof.
  induction s as [|c s IH]; cbn [JsString.trimStart].
  - exists []. split; [reflexivity|constructor].
  - destruct (JsString.is_white_space c) eqn:E.
    + destruct IH as (ws & Es & Hws). exists (c :: ws).
      split; [cbn [app]; now rewrite <- Es | now constructor].
    + exists []. split; [reflexivity|constructor].
Qed.

Lemma trim_split (s : list N) :
  exists ws1 ws2 : list N,
    s = ws1 ++ JsString.trim s ++ ws2
    /\ all_white_space ws1 /\ all_white_space ws2.
Proof.
  destruct (trimStart_split s) as (ws1 & Es & H1).
  destruct (trimStart_split (rev (JsString.trimStart s))) as (ws2 & Er & H2).
  exists ws1, (rev ws2). split; [|split; [exact H1|now apply Forall_rev]].
  unfold JsString.trim, JsString.trimEnd.
  rewrite <- rev_app_distr, <- Er, rev_involutive. exact Es.
Qed.

Lemma trimStart_app (ws t : list N) :
  all_white_space ws -> JsString.trimStart (ws ++ t) = JsString.trimStart t.
Proof.
  induction 1 as [|c ws Hc _ IH]; cbn [app JsString.trimStart];
    [reflexivity|]. now rewrite Hc.
Qed.

Lemma trimStart_id (s : list N) :
  s <> [] -> Forall (fun c => JsString.is_white_space c = false) s ->
  JsString.trimStart s = s.
Proof.
  intros Hne H. destruct s as [|c s']; [congruence|].
  inversion H as [|? ? Hc _]; subst.
  cbn [JsString.trimStart]. now rewrite Hc.
Qed.

Lemma trim_literal (ws1 lit ws2 : list N) :
  all_white_space ws1 -> all_white_space ws2 ->
  lit <> [] -> Forall (fun c => JsString.is_white_space c = false) lit ->
  JsString.trim (ws1 ++ lit ++ ws2) = lit.
Proof.
  intros H1 H2 Hne Hlit. unfold JsString.trim, JsString.trimEnd.
  rewrite trimStart_app by exact H1.
  assert (JsString.trimStart (lit ++ ws2) = lit ++ ws2) as ->.
  { destruct lit as [|c l]; [congruence|].
    inversion Hlit as [|? ? Hc _]; subst.
    cbn [app JsString.trimStart]. now rewrite Hc. }
  rewrite rev_app_distr, trimStart_app by now apply Forall_rev.
  rewrite trimStart_id.
  - apply rev_involutive.
  - intros E. apply Hne. rewrite <- (rev_involutive lit), E. reflexivity.
  - now apply Forall_rev.
Qed.

Lemma printable_not_white_space (c : N) :
  (32 < c < 160)%N -> JsString.is_white_space c = false.
Proof.
  intros H. unfold JsString.is_white_space.
  split_tests; try lia; reflexivity.
Qed.


Lemma exponent_chars (ex : list N) :
  ex = [] \/ exponent_part ex -> Forall literal_char ex.
Proof.
  intros [->|(e & sg & ds & -> & He & Hsg & _ & Hds)]; [constructor|].
  constructor; [unfold literal_char; lia|].
  apply Forall_app. split.
  - destruct Hsg as [->|[->| ->]]; repeat constructor;
      unfold literal_char; lia.
  - eapply Forall_impl; [|exact Hds].
    unfold decimal_digit, literal_char. intros; lia.
Qed.

Lemma unsigned_literal_chars (s : list N) :
  unsigned_decimal_literal s ->
  Forall literal_char s
  /\ exists c t, s = c :: t
                 /\ (decimal_digit c \/ c = 46 \/ c = 73)%N.
Proof.
  intros [->|(int & frac & ex & Hint & Hfrac & Hex & H)].
  - split.
    + repeat constructor; unfold literal_char; cbn; lia.
    + eexists _, _. split; [reflexivity|]. right. right. reflexivity.
  - assert (forall l, Forall decimal_digit l -> Forall literal_char l) as Hd.
    { intros l Hl. eapply Forall_impl; [|exact Hl].
      unfold decimal_digit, literal_char. intros; lia. }
    pose proof (exponent_chars ex Hex) as Hexc.
    destruct H as [[Hne ->]|[Hne ->]].
    + split; [apply Forall_app; auto|].
      destruct int as [|c int']; [congruence|].
      exists c, (int' ++ ex). split; [reflexivity|].
      left. now inversion Hint.
    + split.
      * apply Forall_app. split; [auto|].
        constructor; [unfold literal_char; lia|].
        apply Forall_app. auto.
      * destruct int as [|c int'].
        -- eexists _, _. split; [reflexivity|]. right. now left.
        -- exists c, (int' ++ 46%N :: frac ++ ex). split; [reflexivity|].
           left. now inversion Hint.
Qed.

Lemma numeric_literal_chars (lit : list N) :
  numeric_literal lit ->
  Forall literal_char lit
  /\ exists c t, lit = c :: t
                 /\ (decimal_digit c \/ c = 43 \/ c = 45 \/ c = 46
                     \/ c = 73)%N.
Proof.
  intros [(p & ds & -> & Hne & H)|(sg & body & -> & Hsg & Hbody)].
  - split.
    + constructor; [unfold literal_char; lia|].
      constructor.
      * unfold literal_char. intuition lia.
      * destruct H as [[_ H]|[[_ H]|[_ H]]];
          (eapply Forall_impl; [|exact H]);
          unfold hex_digit, octal_digit, binary_digit, literal_char;
          intros; lia.
    + eexists _, _. split; [reflexivity|]. left. unfold decimal_digit. lia.
  - destruct (unsigned_literal_chars body Hbody)
      as (Hc & c & t & -> & Hhead).
    destruct Hsg as [->|[->| ->]]; cbn [app js JsString.js map
                                         list_ascii_of_string].
    + split; [exact Hc|]. exists c, t. split; [reflexivity|]. tauto.
    + split; [constructor; [unfold literal_char; cbn; lia|exact Hc]|].
      eexists _, _. split; [reflexivity|]. right. left. reflexivity.
    + split; [constructor; [unfold literal_char; cbn; lia|exact Hc]|].
      eexists _, _. split; [reflexivity|]. right. right. left. reflexivity.
Qed.

Lemma literal_chars_not_white_space (s : list N) :
  Forall literal_char s ->
  Forall (fun c => JsString.is_white_space c = false) s.
Proof.
  intros H. eapply Forall_impl; [|exact H].
  intros c Hc. now apply printable_not_white_space.
Qed.

(** [Number] of a string is a number exactly when the string is a numeric
    string of the grammar. *)
Lemma StringToNumber_numeric_string (s : list N) :
  isNaN (StringToNumber s) = false <-> numeric_string s.
Proof.
  split.
  - destruct (trim_split s) as (ws1 & ws2 & Es & H1 & H2).
    rewrite StringToNumber_eq.
    destruct (JsString.trim s) as [|c t] eqn:Et; norm.
    + intros _. exists ws1, [], ws2. repeat split; trivial. now left.
    + intros H. exists ws1, (c :: t), ws2.
      split; [exact Es|]. split; [exact H1|]. split; [exact H2|]. right.
      revert H.
      destruct (N.eqb_spec c 43) as [->|H43].
      { intros H. right. exists (js "+"), t. split; [reflexivity|].
        split; [right; now left|]. now apply (unsigned_decimal_sound false). }
      destruct (N.eqb_spec c 45) as [->|H45].
      { intros H. right. exists (js "-"), t. split; [reflexivity|].
        split; [right; now right|]. now apply (unsigned_decimal_sound true). }
      destruct (non_decimal (c :: t)) as [v|] eqn:End; intros H.
      * left. now apply non_decimal_sound in End.
      * right. exists [], (c :: t). split; [reflexivity|].
        split; [now left|]. now apply (unsigned_decimal_sound false).
  - intros (ws1 & lit & ws2 & -> & H1 & H2 & [->|Hlit]).
    + rewrite StringToNumber_eq.
      rewrite trim_white_space; [reflexivity|].
      cbn [app]. apply Forall_app. now split.
    + destruct (numeric_literal_chars lit Hlit) as (Hchars & c & t & E & _).
      rewrite StringToNumber_eq, trim_literal; trivial; norm.
      2:{ rewrite E. discriminate. }
      2:{ now apply literal_chars_not_white_space. }
      destruct Hlit as [Hnd|(sg & body & -> & Hsg & Hbody)].
      * destruct Hnd as (p & ds & -> & Hnd).
        cbn [N.eqb Pos.eqb].
        destruct (non_decimal_complete (48%N :: p :: ds)) as (v & -> & Hv);
          [|exact Hv].
        now exists p, ds.
      * destruct (unsigned_literal_chars body Hbody)
          as (_ & c' & t' & -> & Hhead).
        destruct Hsg as [->|[->| ->]];
          cbn [app js JsString.js map list_ascii_of_string N_of_ascii
                   N_of_digits N.add N.mul Pos.add Pos.mul Pos.succ].
        -- cbn [app].
           destruct (N.eqb_spec c' 43) as [->|_].
           { unfold decimal_digit in Hhead. lia. }
           destruct (N.eqb_spec c' 45) as [->|_].
           { unfold decimal_digit in Hhead. lia. }
           destruct (non_decimal (c' :: t')) as [v|] eqn:End.
           ++ now apply non_decimal_sound in End.
           ++ now apply unsigned_decimal_complete.
        -- change (js "+" ++ c' :: t') with (43%N :: c' :: t').
           cbn [N.eqb Pos.eqb]. now apply unsigned_decimal_complete.
        -- change (js "-" ++ c' :: t') with (45%N :: c' :: t').
           cbn [N.eqb Pos.eqb]. now apply unsigned_decimal_complete.
Qed.


Lemma isNaN_true (x : t) : isNaN x = true <-> x = NaN.
Proof. unfold NaN. destruct x; cbn; split; congruence. Qed.

Lemma not_numeric_head (c : N) (t : list N) :
  JsString.is_white_space c = false ->
  ~ (decimal_digit c \/ c = 43 \/ c = 45 \/ c = 46 \/ c = 73)%N ->
  ~ numeric_string (c :: t).
Proof.
  intros Hws Hc (ws1 & lit & ws2 & E & H1 & H2 & Hlit).
  destruct ws1 as [|w ws1].
  - cbn [app] in E. destruct Hlit as [->|Hlit].
    + cbn [app] in E. subst ws2.
      inversion H2 as [|? ? Hw _]. cbv beta in Hw. congruence.
    + destruct (numeric_literal_chars lit Hlit) as (_ & c' & t' & -> & Hh).
      injection E as <- _. tauto.
  - injection E as <- _.
    inversion H1 as [|? ? Hw _]. cbv beta in Hw. congruence.
Qed.

Lemma Number_of_object (name : jsstring) :
  Number (NativeFunction name) = NaN /\ Number PrototypeObject = NaN.
Proof.
  split; [|vm_compute; reflexivity].
  cbn [Number]. apply isNaN_true.
  destruct (isNaN (StringToNumber (ToString (NativeFunction name)))) eqn:E;
    [reflexivity|].
  apply StringToNumber_numeric_string in E.
  exfalso. revert E.
  change (ToString (NativeFunction name))
    with (102%N :: (js "unction " ++ name ++ js "() { [native code] }")).
  apply not_numeric_head; [reflexivity|].
  unfold decimal_digit. lia.
Qed.

(** A value parses as a number exactly when it is null or a numeric
    string. *)
Lemma parses_as_number_iff (v : value) :
  parses_as_number v <->
  v = Null \/ exists s, v = Str s /\ numeric_string s.
Proof.
  unfold parses_as_number.
  destruct v as [| |s|name|].
  - split; [discriminate | intros [H|(s & H & _)]; discriminate].
  - split; [now left | reflexivity].
  - cbn [Number]. rewrite StringToNumber_numeric_string. split.
    + intros H. right. now exists s.
    + intros [H|(s' & [= <-] & H)]; [discriminate | exact H].
  - rewrite (proj1 (Number_of_object name)).
    split; [discriminate | intros [H|(s & H & _)]; discriminate].
  - rewrite (proj2 (Number_of_object [])).
    split; [discriminate | intros [H|(s & H & _)]; discriminate].
Qed.

(** The numbers of cells are binary64 values. *)

Lemma of_decimal_bounded (s : bool) (m : N) (p : Z) :
  bounded_below (of_decimal s m p).
Proof.
  unfold of_decimal. destruct m as [|m']; [exact I|].
  destruct p as [|k|k]; try apply binary_normalize_bounded.
  unfold round_ratio.
  destruct (SFdiv_core_binary prec emax (Z.pos m') 0 (Z.pos (10 ^ k)) 0)
    as [[mz ez] lz].
  apply binary_round_aux_bounded.
Qed.

Lemma unsigned_decimal_bounded (sg : bool) (s : list N) :
  bounded_below (unsigned_decimal sg s).
Proof.
  rewrite unsigned_decimal_eq.
  destruct (JsString.eqb s (js "Infinity")); [exact I|].
  destruct (read_digits s 0%N 0%Z) as [[i ni] s1].
  destruct (match s1 with
            | c :: s1' =>
                if (c =? 46)%N then read_digits s1' i 0%Z else (i, 0%Z, s1)
            | [] => (i, 0%Z, s1)
            end) as [[m nf] s2].
  destruct (0 <? ni + nf)%Z; [|exact I].
  destruct (read_exponent s2); [apply of_decimal_bounded|exact I].
Qed.

Lemma StringToNumber_bounded (s : list N) : bounded_below (StringToNumber s).
Proof.
  rewrite StringToNumber_eq.
  destruct (JsString.trim s) as [|c t]; [exact I|].
  destruct (c =? 43)%N; [apply unsigned_decimal_bounded|].
  destruct (c =? 45)%N; [apply unsigned_decimal_bounded|].
  destruct (non_decimal (c :: t)) as [v|] eqn:E;
    [|apply unsigned_decimal_bounded].
  rewrite non_decimal_eq in E.
  destruct t as [|c1 [|d ds]]; try discriminate.
  destruct (c =? 48)%N; [|discriminate].
  destruct (radix_of c1); [|discriminate].
  destruct (read_radix _ _ _); [|discriminate].
  injection E as <-. apply binary_normalize_bounded.
Qed.

Lemma Number_bounded (v : value) : bounded_below (Number v).
Proof.
  destruct v; cbn [Number]; try exact I; apply StringToNumber_bounded.
Qed.

Lemma column_values_bounded (rows : Table) (col : jsstring) :
  Forall bounded_below (column_values rows col).
Proof.
  apply Forall_forall. intros v Hv. unfold column_values in Hv.
  apply filter_In in Hv. destruct Hv as [Hv _].
  apply in_map_iff in Hv. destruct Hv as [r [<- _]]. apply Number_bounded.
Qed.
End NumericStrings.

(** ** The calls that can throw

    The loops with the calls of [Math.min] and [Math.max] return what the
    loops without them compute, or throw; they throw exactly on a table with
    a numeric column and more rows than a call takes arguments. *)

Section EngineFacts.
Local Unset Implicit Arguments.
Variable limit : nat.

Lemma stats_step_call_spec (rows : Table) (st : Assoc.t ColStats)
      (c : jsstring) :
  stats_step_call limit rows (Some st) c =
  if List.length (column_values rows c) <=? limit
  then Some (stats_step rows st c) else None.
Proof.
  unfold stats_step_call, stats_step, spread_call.
  destruct (column_values rows c) as [|v vs] eqn:E; [reflexivity|].
  now destruct (List.length (v :: vs) <=? limit).
Qed.

Lemma fold_stats_call_None (rows : Table) (cols : list jsstring) :
  fold_left (stats_step_call limit rows) cols None = None.
Proof. induction cols as [|c cols IH]; [reflexivity | exact IH]. Qed.

Lemma fold_stats_call (rows : Table) (cols : list jsstring) :
  forall st,
    fold_left (stats_step_call limit rows) cols (Some st) =
    if forallb (fun c => List.length (column_values rows c) <=? limit) cols
    then Some (fold_left (stats_step rows) cols st) else None.
Proof.
  induction cols as [|c cols IH]; intros st; cbn [fold_left forallb];
    [reflexivity|].
  rewrite stats_step_call_spec.
  destruct (List.length (column_values rows c) <=? limit); cbn [andb].
  - apply IH.
  - apply fold_stats_call_None.
Qed.

Lemma forallb_numeric_fits (rows : Table) :
  forallb (fun c => List.length (column_values rows c) <=? limit)
          (numericColumns rows) = fits limit rows.
Proof.
  unfold fits.
  assert (forall c, In c (numericColumns rows) ->
            (List.length (column_values rows c) <=? limit)
            = (List.length rows <=? limit)) as H.
  { intros c Hc. now rewrite (column_values_numeric _ _ Hc), length_map. }
  destruct (numericColumns rows) as [|c cols]; [reflexivity|].
  destruct (List.length rows <=? limit) eqn:E.
  - apply forallb_forall. intros x Hx. now rewrite H.
  - cbn [forallb]. now rewrite H by now left.
Qed.

Lemma table_stats_call_spec (rows : Table) :
  table_stats_call limit rows =
  if fits limit rows then Some (table_stats rows) else None.
Proof.
  unfold table_stats_call. rewrite fold_stats_call, forallb_numeric_fits.
  reflexivity.
Qed.

Lemma summary_step_call_spec (summary : Assoc.t DatasetSummary)
      (name : jsstring) (rows : Table) :
  summary_step_call limit (Some summary) (name, rows) =
  if fits limit rows then Some (summary_step summary (name, rows)) else None.
Proof.
  destruct rows as [|r0 rest]; [reflexivity|].
  unfold summary_step_call, summary_step.
  change (fold_left (stats_step_call limit (r0 :: rest))
                    (numericColumns (r0 :: rest)) (Some []))
    with (table_stats_call limit (r0 :: rest)).
  rewrite table_stats_call_spec.
  now destruct (fits limit (r0 :: rest)).
Qed.

Lemma fold_summary_call_None (entries : Store) :
  fold_left (summary_step_call limit) entries None = None.
Proof. induction entries as [|e entries IH]; [reflexivity | exact IH]. Qed.

Lemma fold_summary_call (entries : Store) :
  forall acc,
    fold_left (summary_step_call limit) entries (Some acc) =
    if forallb (fun e => fits limit (snd e)) entries
    then Some (fold_left summary_step entries acc) else None.
Proof.
  induction entries as [|[name rows] entries IH]; intros acc;
    cbn [fold_left forallb snd]; [reflexivity|].
  rewrite summary_step_call_spec.
  destruct (fits limit rows); cbn [andb].
  - apply IH.
  - apply fold_summary_call_None.
Qed.

Lemma getDatasetsSummary_call_spec (store : Store) :
  getDatasetsSummary_call limit store =
  if forallb (fun e => fits limit (snd e)) store
  then Some (getDatasetsSummary store) else None.
Proof. apply fold_summary_call. Qed.

Lemma fits_false (rows : Table) :
  fits limit rows = false <->
  numericColumns rows <> [] /\ limit < List.length rows.
Proof.
  unfold fits. destruct (numericColumns rows) as [|c cols].
  - split; [discriminate | intros [H _]; congruence].
  - rewrite Nat.leb_gt. split; [intros H; split; [discriminate|exact H] | tauto].
Qed.

Lemma getDatasetsSummary_call_None (store : Store) :
  getDatasetsSummary_call limit store = None <->
  exists name table,
    In (name, table) store /\ numericColumns table <> []
    /\ limit < List.length table.
Proof.
  rewrite getDatasetsSummary_call_spec.
  destruct (forallb (fun e => fits limit (snd e)) store) eqn:E.
  - split; [discriminate|]. intros (name & table & Hin & Hf).
    rewrite forallb_forall in E. specialize (E _ Hin). cbn [snd] in E.
    apply fits_false in Hf. congruence.
  - split; [intros _|reflexivity].
    assert (~ forall e, In e store -> fits limit (snd e) = true) as Hn.
    { intros H. apply forallb_forall in H. congruence. }
    clear E. induction store as [|[name table] store IH].
    + exfalso. apply Hn. intros e [].
    + destruct (fits limit table) eqn:Ef.
      * destruct IH as (n & t & Hin & Hf).
        { intros H. apply Hn. intros e [<-|He]; [exact Ef | now apply H]. }
        exists n, t. split; [now right | exact Hf].
      * exists name, table. split; [now left | now apply fits_false].
Qed.

Lemma getDatasetsSummary_call_Some (store : Store)
      (summary : Assoc.t DatasetSummary) :
  getDatasetsSummary_call limit store = Some summary ->
  summary = getDatasetsSummary store.
Proof.
  rewrite getDatasetsSummary_call_spec.
  destruct (forallb _ store); [|discriminate]. now intros [= <-].
Qed.
End EngineFacts.

(** ** Exact statistics of integer columns *)

Section ExactStatistics.
Import JsNumber.
Local Open Scope Z_scope.
Local Unset Implicit Arguments.

Lemma compare_Eq_finite (s : bool) (m : positive) (e : Z) (x : number) :
  SFcompare (S754_finite s m e) x = Some Eq -> x = S754_finite s m e.
Proof.
  destruct x as [s'|s'| |s' m' e']; cbn [SFcompare];
    try (destruct s; discriminate); try (destruct s'; discriminate);
    try discriminate.
  change (PosDef.Pos.compare_cont Eq m m') with (Pos.compare m m').
  destruct s, s'; try discriminate;
    destruct (Z.compare_spec e e') as [->| |]; try discriminate;
    destruct (Pos.compare_spec m m') as [->| |]; try discriminate;
    reflexivity.
Qed.

(** A quotient of integers that is an integer is computed exactly. *)
Lemma exact_int_div_exact (m n : Z) :
  Z.abs (m * n) < 2 ^ 53 -> 0 < n < 2 ^ 53 ->
  div (exact_int (m * n)) (exact_int n) = exact_int m.
Proof.
  intros HS Hn.
  assert (Z.abs m < 2 ^ 53) as Hm.
  { assert (Z.abs m * 1 <= Z.abs m * n)
      by (apply Z.mul_le_mono_nonneg_l; lia).
    rewrite Z.abs_mul in HS. replace (Z.abs n) with n in HS by lia. lia. }
  destruct (Z.eq_dec m 0) as [->|Hm0].
  - destruct n; try lia. reflexivity.
  - destruct (exact_int_div_bounds (m * n) n m m) as [H1 H2]; try lia.
    unfold SFleb in H1, H2.
    destruct (SFcompare (exact_int m) (div (exact_int (m * n)) (exact_int n)))
      as [c|] eqn:E; [|discriminate].
    rewrite (@compare_antisym _ _ _ E) in H2.
    assert (c = Eq) as -> by (destruct c; trivial; discriminate).
    rewrite (exact_int_canon m Hm0) in *. unfold canon in *.
    now apply compare_Eq_finite in E.
Qed.

(** Over integers whose absolute values add up to less than 2^53, count, min
    and max are those of the integers, and the mean is exact when the count
    divides the sum. *)
Lemma integer_statistics_exact (zs : list Z) :
  zs <> [] -> sum_abs zs < 2 ^ 53 -> Z.of_nat (List.length zs) < 2 ^ 53 ->
  let st := stats_of_values (map of_Z zs) in
  count st = List.length zs
  /\ (exists zm, In zm zs /\ (forall z, In z zs -> zm <= z)
                 /\ min st = of_Z zm)
  /\ (exists zM, In zM zs /\ (forall z, In z zs -> z <= zM)
                 /\ max st = of_Z zM)
  /\ forall m, sum_Z zs = m * Z.of_nat (List.length zs) -> mean st = of_Z m.
Proof.
  intros Hne Hs Hlen. cbv zeta. unfold stats_of_values.
  cbn [count min mean max].
  destruct (Math_min_exact zs Hne Hs) as (zm & Hzm & Emin & Hlo).
  destruct (Math_max_exact zs Hne Hs) as (zM & HzM & Emax & Hhi).
  pose proof (sum_abs_In zs zm Hzm). pose proof (sum_abs_In zs zM HzM).
  pose proof (sum_Z_abs zs) as Habs.
  assert (0 < Z.of_nat (List.length zs))
    by (destruct zs; [congruence|simpl; lia]).
  split; [apply length_map|]. split; [|split].
  - exists zm. repeat split; trivial.
    rewrite Emin. symmetry. apply of_Z_exact. lia.
  - exists zM. repeat split; trivial.
    rewrite Emax. symmetry. apply of_Z_exact. lia.
  - intros m Hm.
    rewrite sum_values_exact by trivial.
    rewrite length_map. unfold of_nat. rewrite of_Z_exact by lia.
    rewrite Hm in *. rewrite exact_int_div_exact by lia.
    symmetry. apply of_Z_exact.
    assert (Z.abs m * 1 <= Z.abs m * Z.of_nat (List.length zs))
      by (apply Z.mul_le_mono_nonneg_l; lia).
    rewrite Z.abs_mul in Habs.
    replace (Z.abs (Z.of_nat (List.length zs)))
      with (Z.of_nat (List.length zs)) in Habs by lia.
    lia.
Qed.
End ExactStatistics.

(** ** A value of zero among integers *)

Lemma sum_abs_insert_zero (a b : list Z) :
  sum_abs (a ++ 0%Z :: b) = sum_abs (a ++ b).
Proof.
  unfold sum_abs.
  induction a as [|z a IH]; cbn [app fold_right]; [reflexivity|].
  now rewrite IH.
Qed.

Lemma sum_Z_insert_zero (a b : list Z) :
  sum_Z (a ++ 0%Z :: b) = sum_Z (a ++ b).
Proof.
  unfold sum_Z.
  induction a as [|z a IH]; cbn [app fold_right]; [reflexivity|].
  now rewrite IH.
Qed.

Lemma In_insert (z x : Z) (a b : list Z) :
  In z (a ++ x :: b) <-> z = x \/ In z (a ++ b).
Proof.
  rewrite !in_app_iff. cbn [In]. intuition congruence.
Qed.

(** The values of a column: [Math.min] is below each and [Math.max] above
    each. *)
Lemma Math_min_max_bounds (values : list number) (v : number) :
  Forall (fun x => JsNumber.isNaN x = false) values ->
  In v values ->
  JsNumber.leb (JsNumber.Math_min values) v = true
  /\ JsNumber.leb v (JsNumber.Math_max values) = true.
Proof.
  intros Hnan Hv.
  destruct (@min_from_spec values JsNumber.pos_infinity eq_refl Hnan)
    as (_ & Hmin & _).
  destruct (@max_from_spec values JsNumber.neg_infinity eq_refl Hnan)
    as (_ & Hmax & _).
  rewrite Forall_forall in Hmin, Hmax.
  split; [now apply Hmin | now apply Hmax].
Qed.

(** ** White space and group keys *)

Lemma trimStart_nil (s : jsstring) :
  JsString.trimStart s = [] -> all_white_space s.
Proof.
  induction s as [|c s IH]; cbn [JsString.trimStart]; [constructor|].
  destruct (JsString.is_white_space c) eqn:E; [|discriminate].
  intros H. constructor; [exact E | exact (IH H)].
Qed.

Lemma trimStart_head (s t : jsstring) (c : N) :
  JsString.trimStart s = c :: t -> JsString.is_white_space c = false.
Proof.
  induction s as [|c0 s IH]; cbn [JsString.trimStart]; [discriminate|].
  destruct (JsString.is_white_space c0) eqn:E; [exact IH|].
  intros H. injection H as <- _. exact E.
Qed.

(** [trim] leaves nothing exactly of the strings of white space. *)
Lemma trim_nil_iff (s : jsstring) :
  JsString.trim s = [] <-> all_white_space s.
Proof.
  split; [|apply trim_white_space].
  unfold JsString.trim, JsString.trimEnd. intros H.
  apply (f_equal (@rev N)) in H. rewrite rev_involutive in H. cbn in H.
  apply trimStart_nil in H.
  apply Forall_rev in H. rewrite rev_involutive in H.
  destruct (JsString.trimStart s) as [|c t] eqn:E.
  - now apply trimStart_nil.
  - apply trimStart_head in E. inversion H; congruence.
Qed.



(** A row without the property reads as undefined, unless the name is one
    that rows inherit. *)
Lemma prop_missing (row : Row) (name : jsstring) :
  Assoc.get row name = None -> inherits name = false ->
  prop row name = Undefined.
Proof. intros H1 H2. unfold prop. now rewrite H1, H2. Qed.

(** * The claims *)

(** C1 (defect of the code). The claim holds that blank cells are left out of
    a column's statistics, so that the table [{Val:"1"},{Val:""},{Val:"3"}]
    has count 2, mean 2, min 1 and max 3 for [Val]. The code coerces the
    blank cell to +0 and keeps it: its summary of that table has count 3,
    mean 4/3, min +0 and max 3, which is not the record the claim gives. *)
Theorem C1_blank_cell_counted_as_zero :
  getDatasetsSummary [(js "t", table_1_blank_3)] =
  [(js "t",
    {| rows := 3;
       numeric_columns := Some [js "Val"];
       stats := Some [(js "Val",
                       {| count := 3;
                          mean := JsNumber.div (JsNumber.of_Z 4)
                                               (JsNumber.of_Z 3);
                          min := JsNumber.pos_zero;
                          max := JsNumber.of_Z 3 |})] |})]
  /\ Assoc.get (table_stats table_1_blank_3) (js "Val") <>
     Some {| count := 2;
             mean := JsNumber.of_Z 2;
             min := JsNumber.of_Z 1;
             max := JsNumber.of_Z 3 |}.
Proof. split; [vm_compute; reflexivity | vm_compute; discriminate]. Qed.

(** C2 (defect of the code). The claim holds that a numeric column whose
    cells are all blank has no entry in [stats]. The code gives it one: every
    blank cell is the value +0, so a table of two blank cells has count 2 and
    mean, min and max +0 for that column. *)
Theorem C2_all_blank_column_has_stats :
  getDatasetsSummary [(js "t", table_all_blank)] =
  [(js "t",
    {| rows := 2;
       numeric_columns := Some [js "Val"];
       stats := Some [(js "Val",
                       {| count := 2;
                          mean := JsNumber.pos_zero;
                          min := JsNumber.pos_zero;
                          max := JsNumber.pos_zero |})] |})]
  /\ column_values table_all_blank (js "Val")
     = [JsNumber.pos_zero; JsNumber.pos_zero].
Proof. split; vm_compute; reflexivity. Qed.

(** C3. [numericColumns] of a table without rows is empty. Of a table with
    rows it is the keys of the first row, in their order, that qualify: every
    row has the empty string or a value that parses as a number in that
    column; one row with a value that is neither disqualifies the column.
    The values that parse as a number are null and the numeric strings:
    white space around nothing or around a literal, which is a decimal
    literal (digits with an optional fraction and exponent) or [Infinity]
    under an optional sign, or an unsigned integer in base 16, 8 or 2.
    In the table of three rows [State], [Val] with the cells CA, 5; CA, x;
    blank, 3 no column is numeric. In [table_mixed] the columns of integers,
    of blanks, of decimals and of padded numbers are numeric, in the order
    of the first row, and the columns with a letter cell or a date cell are
    not. A row without the column disqualifies it, and a column that the
    first row does not have is never listed. *)
Theorem C3_numericColumns_exact :
  numericColumns [] = []
  /\ (forall (r0 : Row) (rest : Table),
        (forall c, In c (numericColumns (r0 :: rest)) <->
                   In c (Assoc.keys r0) /\ qualifies (r0 :: rest) c)
        /\ numericColumns (r0 :: rest) =
           filter (fun c => if qualifies_dec (r0 :: rest) c then true
                            else false)
                  (Assoc.keys r0)
        /\ (forall c r,
               In r (r0 :: rest) ->
               prop r c <> Str [] -> ~ parses_as_number (prop r c) ->
               ~ In c (numericColumns (r0 :: rest))))
  /\ (forall v, parses_as_number v <->
                v = Null \/ exists s, v = Str s /\ numeric_string s)
  /\ numericColumns table_state_val = []
  /\ numericColumns table_mixed =
     [js "Int"; js "Blank"; js "Real"; js "Pad"]
  /\ numericColumns [ cells [("A", "1"); ("B", "2")]%string;
                      cells [("A", "3")]%string ] = [js "A"]
  /\ numericColumns [ cells [("A", "1")]%string;
                      cells [("B", "2"); ("A", "3")]%string ] = [js "A"]
  /\ numericColumns [ cells [("B", "1"); ("A", "2")]%string;
                      cells [("A", "3"); ("B", "4")]%string ]
     = [js "B"; js "A"].
Proof.
  split; [reflexivity|].
  split; [|split; [exact parses_as_number_iff
                  |repeat split; vm_compute; reflexivity]].
  intros r0 rest. split; [|split].
  - intros c. apply numericColumns_In.
  - unfold numericColumns. apply filter_ext. intros c.
    destruct (qualifies_dec (r0 :: rest) c) as [Hq|Hq].
    + apply forallb_forall. intros r Hr. apply numeric_cell_spec.
      now apply Hq.
    + apply not_true_is_false. intros E. apply Hq. intros r Hr.
      apply numeric_cell_spec. rewrite forallb_forall in E. now apply E.
  - intros c r. apply numericColumns_disqualified.
Qed.






(** C6. The counts of the groups add up to the number of rows, and a table
    without rows has no group. *)
Theorem C6_group_counts_sum_to_rows (data : Table) (by_ : jsstring) :
  total_count (groupBy data by_) = List.length data
  /\ groupBy [] by_ = [].
Proof.
  split; [|reflexivity].
  unfold total_count. now rewrite groupBy_counts, fold_group_total.
Qed.

(** C7. The groups come in the order in which their keys are first met while
    the rows are scanned in table order: the keys of the response are the
    distinct group keys of the rows, each at its first occurrence; a further
    row adds its key at the end when the key is new, and changes no position
    otherwise. The order is neither alphabetical nor by count. *)
Theorem C7_first_seen_order (data : Table) (by_ : jsstring) :
  map key (groupBy data by_) = first_seen (row_keys data by_)
  /\ NoDup (map key (groupBy data by_))
  /\ (forall row,
         map key (groupBy (data ++ [row]) by_) =
         if existsb (JsString.eqb (group_key (prop row by_)))
                    (row_keys data by_)
         then map key (groupBy data by_)
         else map key (groupBy data by_) ++ [group_key (prop row by_)])
  /\ groupBy [row1 "State" "TX"; row1 "State" "CA"; row1 "State" "CA"]
             (js "State") =
     [ {| key := js "TX"; group_count := 1 |};
       {| key := js "CA"; group_count := 2 |} ].
Proof.
  split; [|split; [|split]].
  - apply groupBy_first_seen.
  - rewrite groupBy_first_seen. apply first_seen_NoDup.
  - intros row. rewrite !groupBy_first_seen.
    unfold row_keys. rewrite map_app. cbn [map].
    apply first_seen_snoc.
  - vm_compute. reflexivity.
Qed.

(** C8 as stated fails: the mean is the binary64 quotient of the binary64
    running sum by the count, and rounding can push it outside the values.
    Three cells "0.1" have the sum 0.30000000000000004 and the mean
    0.10000000000000002, which is above the maximum 0.1. *)
Lemma C8_mean_above_max :
  In (js "Val") (numericColumns table_tenths)
  /\ column_values table_tenths (js "Val") <> []
  /\ exists st,
      Assoc.get (table_stats table_tenths) (js "Val") = Some st
      /\ JsNumber.leb (mean st) (max st) = false.
Proof.
  split; [vm_compute; now left|].
  split; [vm_compute; discriminate|].
  eexists. split; [vm_compute; reflexivity|].
  vm_compute. reflexivity.
Qed.

(** C8, amended. For a numeric column with at least one value, every value
    lies between min and max, so min <= max; and when the values are integers
    whose absolute values add up to less than 2^53 (the running sum is then
    exact), min <= mean <= max. *)
Theorem C8_min_mean_max (rows : Table) (col : jsstring) (st : ColStats) :
  Assoc.get (table_stats rows) col = Some st ->
  (forall v, In v (column_values rows col) ->
             JsNumber.leb (min st) v = true /\ JsNumber.leb v (max st) = true)
  /\ JsNumber.leb (min st) (max st) = true
  /\ (forall zs : list Z,
         column_values rows col = map JsNumber.of_Z zs ->
         (sum_abs zs < 2 ^ 53)%Z ->
         (Z.of_nat (List.length zs) < 2 ^ 53)%Z ->
         JsNumber.leb (min st) (mean st) = true
         /\ JsNumber.leb (mean st) (max st) = true).
Proof.
  intros Hst. apply table_stats_get in Hst.
  destruct Hst as (_ & _ & Hne & ->).
  pose proof (column_values_not_NaN rows col) as Hnan.
  destruct (@min_from_spec (column_values rows col) JsNumber.pos_infinity
              eq_refl Hnan) as (_ & Hmin & _).
  destruct (@max_from_spec (column_values rows col) JsNumber.neg_infinity
              eq_refl Hnan) as (_ & Hmax & _).
  rewrite Forall_forall in Hmin, Hmax.
  assert (forall v, In v (column_values rows col) ->
            JsNumber.leb (min (stats_of_values (column_values rows col))) v
            = true
            /\ JsNumber.leb v (max (stats_of_values (column_values rows col)))
               = true) as Hbetween.
  { intros v Hv. split; [now apply Hmin | now apply Hmax]. }
  split; [exact Hbetween|]. split.
  - destruct (column_values rows col) as [|v vs] eqn:E; [congruence|].
    destruct (Hbetween v (or_introl eq_refl)) as [H1 H2].
    now apply leb_trans with v.
  - intros zs Hzs Hsum Hlen. rewrite Hzs.
    apply integer_mean_between; trivial.
    intros ->. now rewrite Hzs in Hne.
Qed.

Lemma C8_min_mean_max_witness :
  Assoc.get (table_stats table_1_blank_3) (js "Val") =
  Some (stats_of_values [JsNumber.of_Z 1; JsNumber.of_Z 0; JsNumber.of_Z 3])
  /\ JsNumber.leb
       (min (stats_of_values
               [JsNumber.of_Z 1; JsNumber.of_Z 0; JsNumber.of_Z 3]))
       (mean (stats_of_values
                [JsNumber.of_Z 1; JsNumber.of_Z 0; JsNumber.of_Z 3])) = true
  /\ JsNumber.leb
       (mean (stats_of_values
                [JsNumber.of_Z 1; JsNumber.of_Z 0; JsNumber.of_Z 3]))
       (max (stats_of_values
               [JsNumber.of_Z 1; JsNumber.of_Z 0; JsNumber.of_Z 3])) = true.
Proof.
  assert (Assoc.get (table_stats table_1_blank_3) (js "Val") =
          Some (stats_of_values
                  [JsNumber.of_Z 1; JsNumber.of_Z 0; JsNumber.of_Z 3])) as H
      by (vm_compute; reflexivity).
  split; [exact H|].
  destruct (C8_min_mean_max table_1_blank_3 (js "Val") H) as (_ & _ & Hmean).
  apply (Hmean [1; 0; 3]%Z).
  - vm_compute. reflexivity.
  - vm_compute. reflexivity.
  - vm_compute. reflexivity.
Defined.

(** C9. The numeric columns of a table are among the columns of its first
    row, and a table that ends with a row whose value in column [C] is not
    empty and does not parse as a number has no numeric column [C]. *)
Theorem C9_subset_and_disqualification (T : Table) (r : Row) (C : jsstring) :
  prop r C <> Str [] ->
  ~ parses_as_number (prop r C) ->
  incl (numericColumns T) (first_row_columns T)
  /\ ~ In C (numericColumns (T ++ [r])).
Proof.
  intros Hne Hnp. split.
  - apply numericColumns_incl.
  - apply numericColumns_disqualified with r; trivial.
    apply in_or_app. right. now left.
Qed.

Lemma C9_subset_and_disqualification_witness :
  In (js "Val") (numericColumns table_1_blank_3)
  /\ incl (numericColumns table_1_blank_3) (first_row_columns table_1_blank_3)
  /\ ~ In (js "Val") (numericColumns (table_1_blank_3 ++ [row1 "Val" "x"])).
Proof.
  split; [vm_compute; now left|].
  apply (@C9_subset_and_disqualification
           table_1_blank_3 (row1 "Val" "x") (js "Val")).
  - vm_compute. discriminate.
  - vm_compute. discriminate.
Defined.

(** C10. In a table with rows, a cell that is a non-empty string of white
    space passes the test of [numericColumns]: [Number] maps it to +0, which
    is not NaN, so the column is numeric exactly when the other rows allow
    it. The cell is the value +0 at its row's place among the values of the
    column. In the statistics of the column it counts for one value; the min
    is at most 0 and the max at least 0; and the mean is the sum of the
    other values, which adding +0 leaves as it is, divided by that count.
    When
    the other values are integers (their absolute values adding up to less
    than 2^53), min and max are the least and the greatest of 0 and those
    integers, and the mean is the sum of those integers divided by their
    number plus one, whenever that quotient is an integer. *)
Theorem C10_white_space_cell_is_zero
        (pre post : Table) (r : Row) (col s : jsstring) :
  prop r col = Str s ->
  s <> [] ->
  all_white_space s ->
  numeric_cell (prop r col) = true
  /\ Number (prop r col) = JsNumber.pos_zero
  /\ (In col (numericColumns (pre ++ r :: post)) <->
      In col (first_row_columns (pre ++ r :: post))
      /\ qualifies (pre ++ post) col)
  /\ column_values (pre ++ r :: post) col =
     column_values pre col ++ JsNumber.pos_zero :: column_values post col
  /\ forall st,
      Assoc.get (table_stats (pre ++ r :: post)) col = Some st ->
      count st = List.length (column_values pre col) + 1
                 + List.length (column_values post col)
      /\ JsNumber.leb (min st) JsNumber.pos_zero = true
      /\ JsNumber.leb JsNumber.pos_zero (max st) = true
      /\ mean st =
         JsNumber.div
           (fold_left JsNumber.add
                      (column_values pre col ++ column_values post col)
                      JsNumber.pos_zero)
           (JsNumber.of_nat (count st))
      /\ forall zs_pre zs_post : list Z,
          column_values pre col = map JsNumber.of_Z zs_pre ->
          column_values post col = map JsNumber.of_Z zs_post ->
          (sum_abs (zs_pre ++ zs_post) < 2 ^ 53)%Z ->
          (Z.of_nat (count st) < 2 ^ 53)%Z ->
          (exists zm, (zm = 0%Z \/ In zm (zs_pre ++ zs_post))
                      /\ (zm <= 0)%Z
                      /\ (forall z, In z (zs_pre ++ zs_post) -> (zm <= z)%Z)
                      /\ min st = JsNumber.of_Z zm)
          /\ (exists zM, (zM = 0%Z \/ In zM (zs_pre ++ zs_post))
                         /\ (0 <= zM)%Z
                         /\ (forall z, In z (zs_pre ++ zs_post) -> (z <= zM)%Z)
                         /\ max st = JsNumber.of_Z zM)
          /\ forall m,
              sum_Z (zs_pre ++ zs_post) = (m * Z.of_nat (count st))%Z ->
              mean st = JsNumber.of_Z m.
Proof.
  intros Hs Hne Hws.
  assert (Number (prop r col) = JsNumber.pos_zero) as Hz.
  { rewrite Hs. now apply Number_white_space. }
  assert (numeric_cell (prop r col) = true) as Hc.
  { unfold numeric_cell. now rewrite Hz, orb_true_r. }
  assert (column_values (pre ++ r :: post) col =
          column_values pre col ++ JsNumber.pos_zero :: column_values post col)
    as Hv.
  { rewrite column_values_app. f_equal.
    change (r :: post) with ([r] ++ post). rewrite column_values_app.
    unfold column_values at 1. cbn [map filter]. now rewrite Hz. }
  split; [exact Hc|]. split; [exact Hz|]. split; [|split; [exact Hv|]].
  - assert (qualifies (pre ++ r :: post) col <-> qualifies (pre ++ post) col)
      as Hq.
    { unfold qualifies. split; intros H x Hx.
      - apply H. apply in_app_or in Hx. apply in_or_app.
        destruct Hx; [now left | right; now right].
      - apply in_app_or in Hx. destruct Hx as [Hx|[<-|Hx]].
        + apply H. apply in_or_app. now left.
        + now apply numeric_cell_spec.
        + apply H. apply in_or_app. now right. }
    destruct (pre ++ r :: post) as [|r0 rest] eqn:E.
    + now destruct pre.
    + rewrite numericColumns_In, Hq. reflexivity.
  - intros st Hst. apply table_stats_get in Hst.
    destruct Hst as (_ & _ & _ & ->).
    pose proof (column_values_not_NaN (pre ++ r :: post) col) as Hnan.
    rewrite Hv in *.
    destruct (@Math_min_max_bounds
                (column_values pre col
                 ++ JsNumber.pos_zero :: column_values post col)
                JsNumber.pos_zero Hnan) as [Hlo Hhi].
    { apply in_or_app. right. now left. }
    assert (count (stats_of_values
                     (column_values pre col
                      ++ JsNumber.pos_zero :: column_values post col))
            = List.length (column_values pre col) + 1
              + List.length (column_values post col)) as Hcount.
    { cbn [count stats_of_values]. rewrite length_app. cbn [List.length].
      lia. }
    split; [exact Hcount|]. split; [exact Hlo|]. split; [exact Hhi|].
    split.
    { cbn [mean count stats_of_values].
      rewrite sum_values_insert_zero by apply column_values_bounded.
      reflexivity. }
    intros zs_pre zs_post Epre Epost Hsum Hlen.
    rewrite Epre, Epost in *.
    change JsNumber.pos_zero with (JsNumber.of_Z 0) in *.
    change (JsNumber.of_Z 0 :: map JsNumber.of_Z zs_post)
      with (map JsNumber.of_Z (0%Z :: zs_post)) in *.
    rewrite <- map_app in *.
    assert (List.length (zs_pre ++ 0%Z :: zs_post)
            = count (stats_of_values
                       (map JsNumber.of_Z (zs_pre ++ 0%Z :: zs_post))))
      as Hn by (cbn [count stats_of_values]; now rewrite length_map).
    destruct (@integer_statistics_exact (zs_pre ++ 0%Z :: zs_post))
      as (_ & (zm & Hzm & Hzlo & Emin) & (zM & HzM & Hzhi & Emax) & Hmean).
    { intros E. apply app_eq_nil in E. destruct E as [_ E]. discriminate E. }
    { rewrite sum_abs_insert_zero. exact Hsum. }
    { rewrite Hn. exact Hlen. }
    split; [|split].
    + exists zm. apply In_insert in Hzm. split; [exact Hzm|]. split.
      * apply Hzlo. apply In_insert. now left.
      * split; [|exact Emin]. intros z Hin. apply Hzlo, In_insert. now right.
    + exists zM. apply In_insert in HzM. split; [exact HzM|]. split.
      * apply Hzhi. apply In_insert. now left.
      * split; [|exact Emax]. intros z Hin. apply Hzhi, In_insert. now right.
    + intros m Hm. apply Hmean.
      rewrite sum_Z_insert_zero, Hn. exact Hm.
Qed.

Lemma C10_white_space_cell_is_zero_witness :
  In (js "Val") (numericColumns [row1 "Val" "4"; row1 "Val" " "])
  /\ column_values [row1 "Val" "4"; row1 "Val" " "] (js "Val") =
     [JsNumber.of_Z 4; JsNumber.pos_zero]
  /\ exists st,
      Assoc.get (table_stats [row1 "Val" "4"; row1 "Val" " "]) (js "Val")
      = Some st
      /\ count st = 2
      /\ JsNumber.leb (min st) JsNumber.pos_zero = true
      /\ JsNumber.leb JsNumber.pos_zero (max st) = true
      /\ mean st = JsNumber.of_Z 2.
Proof.
  destruct (@C10_white_space_cell_is_zero
              [row1 "Val" "4"] [] (row1 "Val" " ") (js "Val") (js " "))
    as (_ & _ & Hnum & Hv & Hst).
  - reflexivity.
  - discriminate.
  - repeat constructor.
  - split.
    { apply Hnum. split; [now left|].
      intros x [<-|[]]. right. reflexivity. }
    split; [exact Hv|].
    exists (stats_of_values [JsNumber.of_Z 4; JsNumber.pos_zero]).
    assert (Assoc.get (table_stats [row1 "Val" "4"; row1 "Val" " "])
                      (js "Val")
            = Some (stats_of_values [JsNumber.of_Z 4; JsNumber.pos_zero]))
      as E by (vm_compute; reflexivity).
    destruct (Hst _ E) as (Hcount & Hlo & Hhi & _ & Hint).
    split; [exact E|]. split; [exact Hcount|].
    split; [exact Hlo|]. split; [exact Hhi|].
    destruct (Hint [4%Z] []) as (_ & _ & Hmean).
    + reflexivity.
    + reflexivity.
    + reflexivity.
    + reflexivity.
    + apply (Hmean 2%Z). reflexivity.
Defined.

(** * Further properties of the code *)

(** ** The summary as a whole *)

Lemma set_absent (V : Type) (m : Assoc.t V) (k : jsstring) (v : V) :
  Assoc.get m k = None -> Assoc.set m k v = m ++ [(k, v)].
Proof.
  induction m as [|[k' v'] m IH]; simpl; [reflexivity|].
  destruct (JsString.eqb k' k); [discriminate|].
  intros H. now rewrite IH.
Qed.

Lemma fold_summary_fresh (entries : Store) :
  forall acc,
    NoDup (Assoc.keys acc ++ Assoc.keys entries) ->
    fold_left summary_step entries acc =
    acc ++ map (fun e => (fst e, summarize_table (snd e))) entries.
Proof.
  induction entries as [|[k rows] entries IH]; intros acc Hnd;
    cbn [fold_left map fst snd].
  - now rewrite app_nil_r.
  - rewrite summary_step_spec.
    assert (~ In k (Assoc.keys acc)) as Hk.
    { intros Hin. apply NoDup_remove_2 in Hnd. apply Hnd.
      apply in_or_app. now left. }
    rewrite set_absent by now apply get_None_keys.
    rewrite IH.
    + now rewrite <- app_assoc.
    + unfold Assoc.keys in *. rewrite map_app. cbn [map fst].
      rewrite <- app_assoc. exact Hnd.
Qed.

Lemma getDatasetsSummary_keys (store : Store) :
  NoDup (Assoc.keys store) ->
  Assoc.keys (getDatasetsSummary store) = Assoc.keys store.
Proof.
  intros Hnd. unfold getDatasetsSummary, Assoc.entries.
  rewrite fold_summary_fresh by exact Hnd. cbn [app].
  unfold Assoc.keys. rewrite map_map. reflexivity.
Qed.

(** X1. The call [getDatasetsSummary(store)] throws exactly when some table
    has a numeric column and more rows than a call takes arguments. When it
    returns, for a store with distinct keys, none of them [__proto__], the
    summary has one entry per table, in the order of the store, and the
    entry of a table depends on that table alone: its row count and, exactly
    when it has rows, its numeric columns and a [stats] object. *)
Theorem summary_entry_per_table (argument_limit : nat) (store : Store) :
  NoDup (Assoc.keys store) ->
  ~ In (js "__proto__") (Assoc.keys store) ->
  (getDatasetsSummary_call argument_limit store = None <->
   exists name table,
     In (name, table) store /\ numericColumns table <> []
     /\ argument_limit < List.length table)
  /\ forall summary,
      getDatasetsSummary_call argument_limit store = Some summary ->
      Assoc.keys summary = Assoc.keys store
      /\ forall name table entry,
          In (name, table) store ->
          Assoc.get summary name = Some entry ->
          rows entry = List.length table
          /\ (table = [] <-> numeric_columns entry = None)
          /\ (table = [] <-> stats entry = None)
          /\ (table <> [] ->
              numeric_columns entry = Some (numericColumns table)).
Proof.
  intros Hnd _. split; [apply getDatasetsSummary_call_None|].
  intros summary Hcall. apply getDatasetsSummary_call_Some in Hcall.
  subst summary. split.
  - now apply getDatasetsSummary_keys.
  - intros name table entry Hin Hget.
    rewrite (@getDatasetsSummary_get store name table Hnd Hin) in Hget.
    injection Hget as <-.
    destruct table as [|r0 rest]; cbn; repeat split; congruence.
Qed.

Lemma summary_entry_per_table_witness :
  getDatasetsSummary_call 2 [(js "conditions", []);
                             (js "factors", table_1_blank_3)] = None
  /\ forall summary,
      getDatasetsSummary_call 3 [(js "conditions", []);
                                 (js "factors", table_1_blank_3)]
      = Some summary ->
      Assoc.keys summary = [js "conditions"; js "factors"].
Proof.
  assert (NoDup (Assoc.keys [(js "conditions", @nil Row);
                             (js "factors", table_1_blank_3)])) as Hnd
      by (repeat constructor; simpl; intuition discriminate).
  assert (~ In (js "__proto__")
            (Assoc.keys [(js "conditions", @nil Row);
                         (js "factors", table_1_blank_3)])) as Hp
      by (simpl; intuition discriminate).
  split.
  - apply (summary_entry_per_table 2 _ Hnd Hp).
    exists (js "factors"), table_1_blank_3.
    split; [right; now left|]. split; [vm_compute; discriminate|].
    vm_compute. lia.
  - intros summary H.
    destruct (summary_entry_per_table 3 _ Hnd Hp) as [_ Hkeys].
    apply (Hkeys summary H).
Defined.

(** ** The statistics loop *)

(** X2. When the statistics loop of a table completes, it has given an
    entry to exactly the numeric columns of the table, [__proto__] apart
    (the assignment to that key sets the prototype). The filter on NaN
    removes nothing in a numeric column and the [continue] is never taken,
    so the values of that column are the coercions of all its cells, in row
    order, and its count is the number of rows. The loop completes exactly
    when the table has no numeric column or no more rows than a call takes
    arguments. *)
Theorem stats_cover_numeric_columns
        (argument_limit : nat) (rows : Table) (stats : Assoc.t ColStats) :
  table_stats_call argument_limit rows = Some stats ->
  (numericColumns rows = [] \/ List.length rows <= argument_limit)
  /\ Assoc.get stats (js "__proto__") = None
  /\ forall c,
      (In c (numericColumns rows) /\ c <> js "__proto__" <->
       exists st, Assoc.get stats c = Some st)
      /\ forall st,
          Assoc.get stats c = Some st ->
          column_values rows c = map (fun r => Number (prop r c)) rows
          /\ st = stats_of_values (map (fun r => Number (prop r c)) rows)
          /\ count st = List.length rows.
Proof.
  rewrite table_stats_call_spec.
  destruct (fits argument_limit rows) eqn:Ef; [|discriminate].
  intros [= <-]. split; [|split].
  - unfold fits in Ef. destruct (numericColumns rows); [now left|right].
    now apply Nat.leb_le.
  - destruct (Assoc.get (table_stats rows) (js "__proto__")) eqn:E; trivial.
    apply table_stats_get in E. now destruct E as (_ & Hp & _).
  - intros c. split.
    + split.
      * intros [Hin Hp]. eexists. now apply numeric_column_has_stats.
      * intros [st Hst]. apply table_stats_get in Hst. tauto.
    + intros st Hst. apply table_stats_get in Hst.
      destruct Hst as (Hin & _ & _ & ->).
      rewrite (column_values_numeric _ _ Hin).
      repeat split. simpl. apply length_map.
Qed.

Lemma stats_cover_numeric_columns_witness :
  exists st,
    Assoc.get (table_stats table_1_blank_3) (js "Val") = Some st
    /\ count st = 3.
Proof.
  assert (table_stats_call 3 table_1_blank_3
          = Some (table_stats table_1_blank_3)) as H
      by (vm_compute; reflexivity).
  destruct (@stats_cover_numeric_columns 3 table_1_blank_3 _ H)
    as (_ & _ & Hc).
  destruct (Hc (js "Val")) as [Hiff Hst].
  destruct (proj1 Hiff) as [st E].
  - split; [vm_compute; now left | discriminate].
  - exists st. split; [exact E|]. now apply Hst.
Defined.

(** X3. The min and the max of a statistics entry are values of the column:
    numbers that some cell of the column coerces to, and never NaN. *)
Theorem min_max_are_column_values
        (rows : Table) (c : jsstring) (st : ColStats) :
  Assoc.get (table_stats rows) c = Some st ->
  (exists r, In r rows /\ min st = Number (prop r c))
  /\ (exists r, In r rows /\ max st = Number (prop r c))
  /\ JsNumber.isNaN (min st) = false
  /\ JsNumber.isNaN (max st) = false.
Proof.
  intros Hst. apply table_stats_get in Hst.
  destruct Hst as (_ & _ & Hne & ->).
  pose proof (column_values_not_NaN rows c) as Hnan.
  destruct (@min_from_spec (column_values rows c) JsNumber.pos_infinity
              eq_refl Hnan) as (_ & Hmin & Hmin_in).
  destruct (@max_from_spec (column_values rows c) JsNumber.neg_infinity
              eq_refl Hnan) as (_ & Hmax & Hmax_in).
  fold (JsNumber.Math_min (column_values rows c)) in *.
  fold (JsNumber.Math_max (column_values rows c)) in *.
  assert (In (JsNumber.Math_min (column_values rows c)) (column_values rows c))
    as Hin_min.
  { destruct Hmin_in as [E|H]; trivial.
    destruct (column_values rows c) as [|v vs] eqn:Ev; [congruence|].
    inversion Hmin as [|? ? Hv _]; subst.
    rewrite E in *. left.
    destruct v as [[|]|[|]| |[|] m e]; try discriminate; reflexivity. }
  assert (In (JsNumber.Math_max (column_values rows c)) (column_values rows c))
    as Hin_max.
  { destruct Hmax_in as [E|H]; trivial.
    destruct (column_values rows c) as [|v vs] eqn:Ev; [congruence|].
    inversion Hmax as [|? ? Hv _]; subst.
    rewrite E in *. left.
    destruct v as [[|]|[|]| |[|] m e]; try discriminate; reflexivity. }
  assert (forall v, In v (column_values rows c) ->
            (exists r, In r rows /\ v = Number (prop r c))
            /\ JsNumber.isNaN v = false) as Hval.
  { intros v Hv. unfold column_values in Hv. apply filter_In in Hv.
    destruct Hv as [Hv Hn]. apply in_map_iff in Hv.
    destruct Hv as [r [<- Hr]]. split; [now exists r|].
    now apply negb_true_iff in Hn. }
  destruct (Hval _ Hin_min) as [H1 H2]. destruct (Hval _ Hin_max) as [H3 H4].
  cbn [min max stats_of_values]. tauto.
Qed.


(** X4. For a column whose values are integers with absolute values adding
    up to less than 2^53, the statistics are exact: count is the number of
    values, min and max are the least and the greatest integer, and the mean
    is the integer quotient whenever the count divides the sum. *)
Theorem integer_column_statistics
        (rows : Table) (c : jsstring) (st : ColStats) (zs : list Z) :
  Assoc.get (table_stats rows) c = Some st ->
  column_values rows c = map JsNumber.of_Z zs ->
  (sum_abs zs < 2 ^ 53)%Z ->
  (Z.of_nat (List.length zs) < 2 ^ 53)%Z ->
  count st = List.length zs
  /\ (exists zm, In zm zs /\ (forall z, In z zs -> (zm <= z)%Z)
                 /\ min st = JsNumber.of_Z zm)
  /\ (exists zM, In zM zs /\ (forall z, In z zs -> (z <= zM)%Z)
                 /\ max st = JsNumber.of_Z zM)
  /\ forall m, sum_Z zs = (m * Z.of_nat (List.length zs))%Z ->
               mean st = JsNumber.of_Z m.
Proof.
  intros Hst Hzs Hsum Hlen. apply table_stats_get in Hst.
  destruct Hst as (_ & _ & Hne & ->). rewrite Hzs.
  apply integer_statistics_exact; trivial.
  intros ->. now rewrite Hzs in Hne.
Qed.

Lemma integer_column_statistics_witness :
  mean (stats_of_values [JsNumber.of_Z 1; JsNumber.of_Z 0; JsNumber.of_Z 5])
  = JsNumber.of_Z 2.
Proof.
  assert (Assoc.get (table_stats [row1 "Val" "1"; row1 "Val" ""; row1 "Val" "5"])
                    (js "Val") =
          Some (stats_of_values
                  [JsNumber.of_Z 1; JsNumber.of_Z 0; JsNumber.of_Z 5])) as H
      by (vm_compute; reflexivity).
  destruct (@integer_column_statistics
              [row1 "Val" "1"; row1 "Val" ""; row1 "Val" "5"] (js "Val")
              (stats_of_values
                 [JsNumber.of_Z 1; JsNumber.of_Z 0; JsNumber.of_Z 5])
              [1; 0; 5]%Z H) as (_ & _ & _ & Hmean).
  - vm_compute. reflexivity.
  - vm_compute. reflexivity.
  - vm_compute. reflexivity.
  - apply (Hmean 2%Z). reflexivity.
Defined.

Lemma min_max_are_column_values_witness :
  JsNumber.isNaN
    (min (stats_of_values [JsNumber.of_Z 1; JsNumber.of_Z 0; JsNumber.of_Z 3]))
  = false.
Proof.
  assert (Assoc.get (table_stats table_1_blank_3) (js "Val") =
          Some (stats_of_values
                  [JsNumber.of_Z 1; JsNumber.of_Z 0; JsNumber.of_Z 3])) as H
      by (vm_compute; reflexivity).
  apply (@min_max_are_column_values table_1_blank_3 (js "Val") _ H).
Defined.


(** X5. A cell that is a non-empty string of decimal digits coerces to the
    Number value of the natural number it denotes. So in a column of such
    cells the values are those numbers in row order, and the column is
    numeric when the first row has it. *)
Theorem digit_column_values (rows : Table) (c : jsstring) :
  (forall r, In r rows -> exists s, prop r c = Str s /\ decimal_digits s) ->
  column_values rows c =
  map (fun r => JsNumber.of_Z (cell_digits_value (prop r c))) rows
  /\ (In c (first_row_columns rows) -> In c (numericColumns rows)).
Proof.
  intros Hcells.
  assert (forall r, In r rows ->
            Number (prop r c) = JsNumber.of_Z (cell_digits_value (prop r c)))
    as Hnum.
  { intros r Hr. destruct (Hcells r Hr) as [s [-> Hs]].
    cbn [Number cell_digits_value]. now apply StringToNumber_digits. }
  split.
  - unfold column_values.
    rewrite (map_ext_in _ _ rows Hnum).
    apply forallb_filter_id, forallb_forall. intros v Hv.
    apply in_map_iff in Hv. destruct Hv as [r [<- _]].
    apply negb_true_iff, of_Z_not_NaN.
  - intros Hin. destruct rows as [|r0 rest]; [destruct Hin|].
    apply numericColumns_In. split; [exact Hin|].
    intros r Hr. right. unfold parses_as_number.
    rewrite (Hnum r Hr). apply of_Z_not_NaN.
Qed.

Lemma digit_column_values_witness :
  column_values [row1 "Val" "12"; row1 "Val" "007"] (js "Val") =
  [JsNumber.of_Z 12; JsNumber.of_Z 7].
Proof.
  apply (digit_column_values [row1 "Val" "12"; row1 "Val" "007"] (js "Val")).
  intros r [<-|[<-|[]]]; eexists; (split; [reflexivity|]);
    (split; [discriminate|repeat constructor]).
Defined.

(** X6. The [port] option that the code passes to [mysql.createPool],
    [Number(DB_PORT || 3306)]: it is 3306 when [DB_PORT] is unset or empty,
    and the number written in [DB_PORT] when that is a string of decimal
    digits. A [DB_PORT] of white space only is truthy, so the default does
    not apply and the option is +0. The option is NaN exactly when [DB_PORT]
    is set to a string that is no numeric string. What the driver makes of
    the option is outside the repository. *)
Theorem pool_port_spec (DB_PORT : option jsstring) :
  (DB_PORT = None \/ DB_PORT = Some [] ->
   pool_port DB_PORT = JsNumber.of_Z 3306)
  /\ (forall s, DB_PORT = Some s -> decimal_digits s ->
                pool_port DB_PORT = JsNumber.of_Z (Z.of_N (digits_value s)))
  /\ (forall s, DB_PORT = Some s -> s <> [] -> all_white_space s ->
                pool_port DB_PORT = JsNumber.pos_zero)
  /\ (JsNumber.isNaN (pool_port DB_PORT) = true <->
      exists s, DB_PORT = Some s /\ ~ numeric_string s)
  /\ pool_port (Some (js "3307")) = JsNumber.of_Z 3307
  /\ pool_port (Some (js " ")) = JsNumber.pos_zero
  /\ pool_port (Some (js "3306/tcp")) = JsNumber.NaN.
Proof.
  split; [|split; [|split; [|split;
                             [|repeat split; vm_compute; reflexivity]]]].
  - intros [->| ->]; reflexivity.
  - intros s -> Hs. destruct s as [|c s']; [now destruct Hs|].
    now apply StringToNumber_digits.
  - intros s -> Hne Hws. destruct s as [|c s']; [congruence|].
    apply (Number_white_space Hws).
  - destruct DB_PORT as [[|c s']|].
    + split; [vm_compute; discriminate|].
      intros (s & [= <-] & H). exfalso. apply H.
      exists [], [], []. split; [reflexivity|].
      split; [constructor|]. split; [constructor|]. now left.
    + change (pool_port (Some (c :: s')))
        with (JsNumber.StringToNumber (c :: s')).
      pose proof (StringToNumber_numeric_string (c :: s')) as Hg.
      destruct (JsNumber.isNaN (JsNumber.StringToNumber (c :: s'))).
      * split; [intros _|reflexivity]. exists (c :: s').
        split; [reflexivity|]. intros H. apply Hg in H. discriminate.
      * split; [discriminate|]. intros (s & [= <-] & H).
        exfalso. apply H. now apply Hg.
    + split; [vm_compute; discriminate|]. intros (s & H & _). discriminate.
Qed.

(** ** Numeric columns and the rows of a table *)

(** X7. Rows added after the first can only remove numeric columns: a column
    of the longer table is numeric exactly when it is numeric in the shorter
    one and every added row holds the empty string or a number in it. *)
Theorem numericColumns_append (rows more : Table) (c : jsstring) :
  rows <> [] ->
  (In c (numericColumns (rows ++ more)) <->
   In c (numericColumns rows) /\ qualifies more c)
  /\ incl (numericColumns (rows ++ more)) (numericColumns rows).
Proof.
  intros Hne. destruct rows as [|r0 rest]; [congruence|].
  assert (forall x, In x (numericColumns ((r0 :: rest) ++ more)) <->
                    In x (numericColumns (r0 :: rest)) /\ qualifies more x)
    as Hiff.
  { intros x. cbn [app]. rewrite !numericColumns_In. unfold qualifies.
    split.
    - intros [Hk Hq]. repeat split; trivial; intros r Hr; apply Hq.
      + destruct Hr as [<-|Hr]; [now left|right].
        apply in_or_app. now left.
      + right. apply in_or_app. now right.
    - intros [[Hk Hq] Hm]. split; trivial. intros r [<-|Hr].
      + apply Hq. now left.
      + apply in_app_or in Hr. destruct Hr as [Hr|Hr].
        * apply Hq. now right.
        * now apply Hm. }
  split; [apply Hiff|]. intros x Hx. now apply Hiff in Hx.
Qed.

Lemma numericColumns_append_witness :
  incl (numericColumns (table_1_blank_3 ++ [row1 "Val" "x"]))
       (numericColumns table_1_blank_3).
Proof.
  apply (@numericColumns_append table_1_blank_3 [row1 "Val" "x"] (js "Val")).
  discriminate.
Defined.

(** X8. The numeric columns do not depend on the order of the rows after the
    first: the first row gives the candidate columns and their order, the
    other rows only the test. *)
Theorem numericColumns_row_order (r0 : Row) (rest rest' : Table) :
  Permutation rest rest' ->
  numericColumns (r0 :: rest) = numericColumns (r0 :: rest').
Proof.
  intros Hp. unfold numericColumns. apply filter_ext. intros c.
  cbn [forallb]. f_equal.
  destruct (forallb (fun r => numeric_cell (prop r c)) rest') eqn:E.
  - apply forallb_forall. intros r Hr.
    rewrite forallb_forall in E. apply E.
    now apply (Permutation_in r Hp).
  - apply not_true_is_false. intros E'.
    rewrite forallb_forall in E'.
    assert (forallb (fun r => numeric_cell (prop r c)) rest' = true) as E''.
    { apply forallb_forall. intros r Hr. apply E'.
      now apply (Permutation_in r (Permutation_sym Hp)). }
    congruence.
Qed.

Lemma numericColumns_row_order_witness :
  numericColumns [row1 "Val" "1"; row1 "Val" ""; row1 "Val" "3"] =
  numericColumns [row1 "Val" "1"; row1 "Val" "3"; row1 "Val" ""].
Proof.
  apply numericColumns_row_order. apply perm_swap.
Defined.

(** ** The groups of a table *)

Lemma count_for_occurrences (data : Table) (by_ k : jsstring) :
  count_for k (groupBy data by_) = occurrences k (row_keys data by_).
Proof. rewrite groupBy_count_for, fold_group_weight. reflexivity. Qed.

Lemma occurrences_app (k : jsstring) (a b : list jsstring) :
  occurrences k (a ++ b) = occurrences k a + occurrences k b.
Proof. unfold occurrences. now rewrite filter_app, length_app. Qed.

Lemma occurrences_perm (k : jsstring) (a b : list jsstring) :
  Permutation a b -> occurrences k a = occurrences k b.
Proof.
  unfold occurrences. induction 1 as [|x a b _ IH|x y a|a b c _ IH1 _ IH2];
    cbn [filter].
  - reflexivity.
  - destruct (JsString.eqb k x); cbn [List.length]; now rewrite IH.
  - destruct (JsString.eqb k x), (JsString.eqb k y); reflexivity.
  - now rewrite IH1.
Qed.

Lemma occurrences_In (k : jsstring) (l : list jsstring) :
  In k l <-> 1 <= occurrences k l.
Proof.
  unfold occurrences. induction l as [|x l IH]; cbn [filter In List.length].
  - split; [tauto|lia].
  - destruct (JsString.eqb k x) eqn:E; cbn [List.length].
    + apply jsstring_eqb_eq in E. split; [lia|now left].
    + apply jsstring_eqb_neq in E. rewrite <- IH.
      split; [intros [?|?]; [congruence|trivial] | now right].
Qed.

Lemma filter_absent_key (out : list Group) (k : jsstring) :
  ~ In k (map key out) ->
  filter (fun g => JsString.eqb (key g) k) out = [].
Proof.
  induction out as [|h out IH]; intros Hk; [reflexivity|].
  cbn [filter]. destruct (JsString.eqb (key h) k) eqn:E.
  - apply jsstring_eqb_eq in E. exfalso. apply Hk. now left.
  - apply IH. intros H. apply Hk. now right.
Qed.

Lemma count_for_unique (out : list Group) (g : Group) :
  NoDup (map key out) -> In g out -> count_for (key g) out = group_count g.
Proof.
  unfold count_for. induction out as [|h out IH]; intros Hnd Hin;
    [destruct Hin|].
  cbn [map] in Hnd. inversion Hnd as [|? ? Hh Hnd']; subst.
  cbn [filter]. destruct Hin as [->|Hin].
  - rewrite jsstring_eqb_refl, (@filter_absent_key out (key g) Hh).
    cbn. lia.
  - destruct (JsString.eqb (key h) (key g)) eqn:E.
    + apply jsstring_eqb_eq in E. exfalso. apply Hh. rewrite E.
      now apply in_map.
    + now apply IH.
Qed.

Lemma group_key_cases (raw : value) :
  (blank_value raw = true /\ group_key raw = js "Unknown")
  \/ (blank_value raw = false /\ group_key raw = ToString raw
      /\ JsString.trim (ToString raw) <> []).
Proof.
  destruct raw as [| |s|name|]; cbn [blank_value group_key];
    try (left; split; reflexivity);
    (destruct (JsString.trim _) eqn:E;
     [left; split; reflexivity
     |right; split; [reflexivity|]; split; [reflexivity|discriminate]]).
Qed.

Lemma first_seen_length (l : list jsstring) :
  List.length (first_seen l) <= List.length l.
Proof.
  induction l as [|k l IH]; cbn [first_seen List.length]; [lia|].
  apply le_n_S. eapply Nat.le_trans; [|exact IH].
  apply filter_length_le.
Qed.

(** A group of the response: its key is a group key of some row and its
    count the number of rows with that group key. *)
Lemma In_groupBy (data : Table) (by_ : jsstring) (g : Group) :
  In g (groupBy data by_) <->
  In (key g) (row_keys data by_)
  /\ group_count g = occurrences (key g) (row_keys data by_).
Proof.
  pose proof (groupBy_first_seen data by_) as Hkeys.
  assert (NoDup (map key (groupBy data by_))) as Hnd
      by (rewrite Hkeys; apply first_seen_NoDup).
  split.
  - intros Hin. split.
    + apply first_seen_In. rewrite <- Hkeys. now apply in_map.
    + rewrite <- count_for_occurrences. symmetry.
      now apply count_for_unique.
  - intros [Hk Hc].
    apply first_seen_In in Hk. rewrite <- Hkeys in Hk.
    apply in_map_iff in Hk. destruct Hk as [g' [Hkey Hin]].
    assert (group_count g' = group_count g) as Hcount.
    { rewrite Hc, <- Hkey, <- count_for_occurrences. symmetry.
      now apply count_for_unique. }
    destruct g as [k n], g' as [k' n']. cbn in *. now subst.
Qed.

(** X9. Every group of the response stands for at least one row: its count
    is the number of rows with its key, at least 1; its key is ["Unknown"] or
    the string form, untrimmed, of the value some row has at the field, and
    is never blank; and there are at most as many groups as rows. *)
Theorem groups_are_inhabited (data : Table) (by_ : jsstring) :
  List.length (groupBy data by_) <= List.length data
  /\ forall g, In g (groupBy data by_) ->
       1 <= group_count g
       /\ group_count g = occurrences (key g) (row_keys data by_)
       /\ ~ all_white_space (key g)
       /\ (key g = js "Unknown"
           \/ exists row, In row data
                          /\ ToString (prop row by_) = key g
                          /\ prop row by_ <> Undefined
                          /\ prop row by_ <> Null).
Proof.
  split.
  - rewrite <- (length_map key), groupBy_first_seen.
    eapply Nat.le_trans; [apply first_seen_length|].
    unfold row_keys. now rewrite length_map.
  - intros g Hg. apply In_groupBy in Hg. destruct Hg as [Hk Hc].
    split; [rewrite Hc; now apply occurrences_In|]. split; [exact Hc|].
    unfold row_keys in Hk. apply in_map_iff in Hk.
    destruct Hk as [row [Hkey Hrow]].
    rewrite <- trim_nil_iff.
    destruct (group_key_cases (prop row by_))
      as [[_ E]|[Hb (E & Ht)]]; rewrite E in Hkey.
    + split; [rewrite <- Hkey; vm_compute; discriminate|now left].
    + split; [now rewrite <- Hkey|]. right. exists row.
      split; [exact Hrow|]. split; [exact Hkey|].
      split; intros Hv; rewrite Hv in Hb; discriminate.
Qed.

(** X10. Grouping is additive and blind to row order: the count of a key in
    a concatenation is the sum of its counts in the parts, and the response
    for a reordered table is a reordering of the response. *)
Theorem groupBy_additive (a b : Table) (by_ : jsstring) :
  (forall k, count_for k (groupBy (a ++ b) by_) =
             count_for k (groupBy a by_) + count_for k (groupBy b by_))
  /\ (Permutation a b -> Permutation (groupBy a by_) (groupBy b by_)).
Proof.
  split.
  - intros k. rewrite !count_for_occurrences. unfold row_keys.
    now rewrite map_app, occurrences_app.
  - intros Hp.
    assert (Permutation (row_keys a by_) (row_keys b by_)) as Hk
        by now apply Permutation_map.
    assert (forall data, NoDup (groupBy data by_)) as Hnd.
    { intros data. apply (NoDup_map_inv key).
      rewrite groupBy_first_seen. apply first_seen_NoDup. }
    apply NoDup_Permutation; trivial.
    intros g. rewrite !In_groupBy.
    rewrite (occurrences_perm (key g) Hk).
    split; intros [H1 H2]; split; trivial.
    + now apply (Permutation_in _ Hk).
    + now apply (Permutation_in _ (Permutation_sym Hk)).
Qed.

Lemma filter_all_removed (l : list jsstring) (k : jsstring) :
  (forall x, In x l -> x = k) ->
  filter (fun x => negb (JsString.eqb x k)) l = [].
Proof.
  induction l as [|x l IH]; intros H; [reflexivity|].
  cbn [filter]. rewrite (H x (or_introl eq_refl)), jsstring_eqb_refl.
  cbn [negb]. apply IH. intros y Hy. apply H. now right.
Qed.

Lemma occurrences_repeat (k : jsstring) (n : nat) :
  occurrences k (repeat k n) = n.
Proof.
  unfold occurrences. induction n as [|n IH]; [reflexivity|].
  cbn [repeat filter]. rewrite jsstring_eqb_refl. cbn [List.length].
  now rewrite IH.
Qed.

(** X11. Grouping by a field that no row has, and that rows do not inherit
    from [Object.prototype], puts every row in the single group ["Unknown"];
    it is not an error. *)
Theorem groupBy_missing_field (data : Table) (by_ : jsstring) :
  data <> [] ->
  inherits by_ = false ->
  (forall row, In row data -> Assoc.get row by_ = None) ->
  groupBy data by_ =
  [ {| key := js "Unknown"; group_count := List.length data |} ].
Proof.
  intros Hne Hinh Hmiss.
  assert (row_keys data by_ = repeat (js "Unknown") (List.length data))
    as Hkeys.
  { unfold row_keys. induction data as [|row data IH]; [reflexivity|].
    cbn [map List.length repeat]. f_equal.
    - rewrite prop_missing; trivial. apply Hmiss. now left.
    - destruct data as [|row' data']; [reflexivity|].
      apply IH; [discriminate|]. intros r Hr. apply Hmiss. now right. }
  assert (first_seen (repeat (js "Unknown") (List.length data))
          = [js "Unknown"]) as Hfirst.
  { destruct data as [|row data]; [congruence|]. cbn [List.length repeat].
    cbn [first_seen]. f_equal.
    apply filter_all_removed. intros x Hx.
    apply (proj1 (first_seen_In _ _)) in Hx. now apply repeat_spec in Hx. }
  pose proof (groupBy_first_seen data by_) as Hk.
  rewrite Hkeys, Hfirst in Hk.
  destruct (groupBy data by_) as [|g [|g' out]] eqn:E; try discriminate.
  injection Hk as Hk.
  assert (In g (groupBy data by_)) as Hin by (rewrite E; now left).
  apply In_groupBy in Hin. destruct Hin as [_ Hc].
  rewrite Hkeys, Hk in Hc.
  rewrite occurrences_repeat in Hc. destruct g as [k n]. cbn in *. now subst.
Qed.

Lemma groupBy_missing_field_witness :
  groupBy table_1_blank_3 (js "State") =
  [ {| key := js "Unknown"; group_count := 3 |} ].
Proof.
  apply (@groupBy_missing_field table_1_blank_3 (js "State")).
  - discriminate.
  - reflexivity.
  - intros row [<-|[<-|[<-|[]]]]; reflexivity.
Defined.

(** X12. The group ["Unknown"] counts the rows whose value is undefined,
    null or blank together with the rows whose value has the string form
    ["Unknown"] itself: the response does not tell them apart. For a field
    that rows do not inherit, the rows without the field are among the
    first. *)
Theorem unknown_group_count (data : Table) (by_ : jsstring) :
  count_for (js "Unknown") (groupBy data by_) =
  List.length
    (filter (fun row =>
               blank_value (prop row by_)
               || JsString.eqb (ToString (prop row by_)) (js "Unknown"))
            data)
  /\ (inherits by_ = false ->
      forall row, Assoc.get row by_ = None ->
                  blank_value (prop row by_) = true)
  /\ (forall raw,
         blank_value raw = true <->
         raw = Undefined \/ raw = Null \/ all_white_space (ToString raw)).
Proof.
  split; [|split].
  - rewrite count_for_occurrences. unfold occurrences, row_keys.
    induction data as [|row data IH]; [reflexivity|].
    cbn [map filter].
    assert (JsString.eqb (js "Unknown") (group_key (prop row by_)) =
            blank_value (prop row by_)
            || JsString.eqb (ToString (prop row by_)) (js "Unknown")) as ->.
    { destruct (group_key_cases (prop row by_))
        as [[Hb E]|[Hb (E & _)]]; rewrite Hb, E.
      - now rewrite jsstring_eqb_refl.
      - cbn [orb]. apply jsstring_eqb_sym. }
    destruct (blank_value (prop row by_)
              || JsString.eqb (ToString (prop row by_)) (js "Unknown"));
      cbn [List.length]; now rewrite IH.
  - intros Hinh row Hget. now rewrite prop_missing.
  - intros raw. rewrite <- trim_nil_iff.
    destruct raw as [| |s|name|]; cbn [blank_value];
      try (split; [intros _; tauto|reflexivity]);
      (destruct (JsString.trim _) eqn:E;
       [split; [intros _; tauto | reflexivity]
       |split; [discriminate
               |intros [H|[H|H]]; discriminate]]).
Qed.

(** ** Loading and serving the datasets *)

Unset Implicit Arguments.

Lemma loadAllData_files (existsSync : jsstring -> bool)
      (readAndParse : jsstring -> option Table) :
  loadAllData existsSync readAndParse =
  map (fun nf => (fst nf, readCsvIfExists existsSync readAndParse (snd nf)))
      dataset_files.
Proof. reflexivity. Qed.

Lemma loadAllData_NoDup (existsSync : jsstring -> bool)
      (readAndParse : jsstring -> option Table) :
  NoDup (Assoc.keys (loadAllData existsSync readAndParse)).
Proof.
  cbn. repeat constructor; cbn; intuition discriminate.
Qed.

Lemma loadAllData_get (existsSync : jsstring -> bool)
      (readAndParse : jsstring -> option Table) (name file : jsstring) :
  In (name, file) dataset_files ->
  Assoc.get (loadAllData existsSync readAndParse) name =
  Some (readCsvIfExists existsSync readAndParse file)
  /\ In (name, readCsvIfExists existsSync readAndParse file)
        (loadAllData existsSync readAndParse).
Proof.
  intros [E|[E|[E|[E|[]]]]]; injection E as <- <-; split;
    try reflexivity; cbn; tauto.
Qed.

(** X13. Whatever the file system holds, the loaded store has the four
    datasets conditions, factors, performance and treatment, in that order
    and once each; so no data route answers 503 after loading, and a summary
    that [/summary] answers lists the same four names. *)
Theorem loaded_store_has_four_datasets
        (argument_limit : nat)
        (existsSync : jsstring -> bool)
        (readAndParse : jsstring -> option Table) :
  let store := loadAllData existsSync readAndParse in
  Assoc.keys store =
  [js "conditions"; js "factors"; js "performance"; js "treatment"]
  /\ NoDup (Assoc.keys store)
  /\ status (summary_route argument_limit store) <> 503
  /\ (forall summary,
         body (summary_route argument_limit store) = SummaryBody summary ->
         status (summary_route argument_limit store) = 200
         /\ Assoc.keys summary = Assoc.keys store)
  /\ (forall name, status (raw_route name store) = 200)
  /\ (forall ds by_, status (group_route store ds by_) <> 503).
Proof.
  cbv zeta.
  pose proof (loadAllData_NoDup existsSync readAndParse) as Hnd.
  split; [reflexivity|]. split; [exact Hnd|].
  split; [|split; [|split]].
  - unfold summary_route, ensureLoaded.
    cbn [loadAllData Assoc.keys map fst].
    destruct (getDatasetsSummary_call _ _); cbn; discriminate.
  - intros summary. unfold summary_route, ensureLoaded.
    cbn [loadAllData Assoc.keys map fst].
    destruct (getDatasetsSummary_call argument_limit _) as [summary'|] eqn:E;
      cbn [body status error_response]; [|discriminate].
    intros [= <-]. split; [reflexivity|].
    apply getDatasetsSummary_call_Some in E. rewrite E.
    now apply getDatasetsSummary_keys.
  - reflexivity.
  - intros ds by_. unfold group_route, ensureLoaded.
    cbn [loadAllData Assoc.keys map fst]. unfold group_handler.
    destruct by_ as [[|c b]|]; try (cbn; discriminate).
    destruct (store_prop _ _); cbn; discriminate.
Qed.



(** X15. A dataset whose file is read and parsed is served as parsed: the
    raw route answers its records, a summary that is returned counts them,
    and the groups of a field (one that is not a property the rows inherit)
    are those of the records and account for every record. *)
Theorem loaded_file_is_served
        (argument_limit : nat)
        (existsSync : jsstring -> bool)
        (readAndParse : jsstring -> option Table)
        (name file b : jsstring) (records : Table) :
  In (name, file) dataset_files ->
  existsSync file = true ->
  readAndParse file = Some records ->
  b <> [] ->
  inherits b = false ->
  let store := loadAllData existsSync readAndParse in
  raw_route name store = {| status := 200; body := RowsBody records |}
  /\ (forall summary,
         getDatasetsSummary_call argument_limit store = Some summary ->
         exists entry,
           Assoc.get summary name = Some entry
           /\ rows entry = List.length records)
  /\ group_route store (Some name) (Some b) =
     {| status := 200; body := GroupsBody (groupBy records b) |}
  /\ total_count (groupBy records b) = List.length records.
Proof.
  intros Hin Hex Hparse Hb _. cbv zeta.
  destruct (loadAllData_get existsSync readAndParse name file Hin)
    as [Hget Hmem].
  assert (readCsvIfExists existsSync readAndParse file = records) as Hrec.
  { unfold readCsvIfExists. now rewrite Hex, Hparse. }
  rewrite Hrec in *.
  split; [|split; [|split]].
  - unfold raw_route. now rewrite Hget.
  - intros summary Hcall. apply getDatasetsSummary_call_Some in Hcall.
    subst summary. exists (summarize_table records). split.
    + apply (@getDatasetsSummary_get _ _ _
               (loadAllData_NoDup existsSync readAndParse) Hmem).
    + now destruct records.
  - unfold group_route, group_handler, store_prop. rewrite Hget.
    destruct b as [|c b]; [congruence|]. reflexivity.
  - unfold total_count. now rewrite groupBy_counts, fold_group_total.
Qed.

Lemma loaded_file_is_served_witness :
  raw_route (js "factors")
            (loadAllData (fun _ => true) (fun _ => Some table_states)) =
  {| status := 200; body := RowsBody table_states |}.
Proof.
  apply (@loaded_file_is_served
           3 (fun _ => true) (fun _ => Some table_states)
           (js "factors") (js "processed_factors_data.csv") (js "State")
           table_states).
  - right. now left.
  - reflexivity.
  - reflexivity.
  - discriminate.
  - reflexivity.
Defined.

(** ** The routes *)

(** X16. The data routes answer 503 exactly when the store has no dataset,
    whatever the query: with an empty store [/summary], the raw routes and
    [/group] all answer the same error, and with a dataset in the store none
    of them answers 503. [/summary] then answers 200 with the summary, or
    500 when computing the summary throws, which it does exactly for a table
    with a numeric column and more rows than a call takes arguments. *)
Theorem routes_need_a_loaded_store
        (argument_limit : nat)
        (store : Store) (name : jsstring) (ds by_ : option jsstring) :
  (Assoc.keys store = [] ->
   summary_route argument_limit store
   = error_response 503 "Data not loaded yet"
   /\ raw_route name store = error_response 503 "Data not loaded yet"
   /\ group_route store ds by_ = error_response 503 "Data not loaded yet")
  /\ (Assoc.keys store <> [] ->
      status (summary_route argument_limit store) <> 503
      /\ (status (summary_route argument_limit store) = 200 <->
          forall table_name table,
            In (table_name, table) store ->
            numericColumns table = []
            \/ List.length table <= argument_limit)
      /\ (status (summary_route argument_limit store) = 500 <->
          exists table_name table,
            In (table_name, table) store /\ numericColumns table <> []
            /\ argument_limit < List.length table)
      /\ status (raw_route name store) = 200
      /\ status (group_route store ds by_) <> 503).
Proof.
  unfold summary_route, raw_route, group_route, ensureLoaded.
  split.
  - intros ->. repeat split.
  - intros Hne. destruct (Assoc.keys store); [congruence|].
    pose proof (getDatasetsSummary_call_None argument_limit store) as Hnone.
    destruct (getDatasetsSummary_call argument_limit store) as [summary|];
      cbn [status error_response].
    + split; [discriminate|]. split; [|split; [|split]].
      * split; [|reflexivity]. intros _ table_name table Hin.
        destruct (numericColumns table) eqn:E; [now left|right].
        destruct (Nat.le_gt_cases (List.length table) argument_limit)
          as [Hle|Hgt]; trivial.
        assert (@None (Assoc.t DatasetSummary) = Some summary -> False)
          as Habs by discriminate.
        exfalso. apply Habs. symmetry. apply Hnone.
        exists table_name, table. rewrite E. repeat split; trivial.
        discriminate.
      * split; [discriminate|]. intros H. apply Hnone in H. discriminate.
      * reflexivity.
      * unfold group_handler.
        destruct by_ as [[|c b]|]; try (cbn; discriminate).
        destruct (store_prop _ _); cbn; discriminate.
    + split; [discriminate|]. split; [|split; [|split]].
      * split; [discriminate|]. intros H.
        destruct (proj1 Hnone eq_refl) as (n & t & Hin & Hcols & Hlen).
        destruct (H n t Hin) as [E|E]; [congruence|lia].
      * split; [intros _; now apply Hnone | reflexivity].
      * reflexivity.
      * unfold group_handler.
        destruct by_ as [[|c b]|]; try (cbn; discriminate).
        destruct (store_prop _ _); cbn; discriminate.
Qed.

Lemma routes_need_a_loaded_store_witness :
  group_route [] (Some (js "factors")) (Some (js "State")) =
  error_response 503 "Data not loaded yet"
  /\ status (summary_route 2 [(js "factors", table_1_blank_3)]) = 500
  /\ status (summary_route 3 [(js "factors", table_1_blank_3)]) = 200.
Proof.
  split; [|split].
  - apply (routes_need_a_loaded_store
             3 [] (js "factors") (Some (js "factors")) (Some (js "State"))).
    reflexivity.
  - destruct (routes_need_a_loaded_store
                2 [(js "factors", table_1_blank_3)] (js "factors") None None)
      as [_ H].
    destruct H as (_ & _ & H500 & _); [discriminate|].
    apply H500. exists (js "factors"), table_1_blank_3.
    split; [now left|]. split; [vm_compute; discriminate|].
    vm_compute. lia.
  - destruct (routes_need_a_loaded_store
                3 [(js "factors", table_1_blank_3)] (js "factors") None None)
      as [_ H].
    destruct H as (_ & H200 & _); [discriminate|].
    apply H200. intros table_name table [[= <- <-]|[]]. right.
    vm_compute. lia.
Defined.

(** X17. With a dataset in the store, [/group] answers 400 exactly when the
    query has no [by] or an empty one, whatever [ds] is; it answers 500
    exactly when [by] is given and [ds] names a property the store inherits
    and does not own; and 200 otherwise. *)
Theorem group_route_status
        (store : Store) (ds by_ : option jsstring) :
  Assoc.keys store <> [] ->
  let name := match ds with Some d => d | None => js "factors" end in
  let missing_by := by_ = None \/ by_ = Some [] in
  let inherited := Assoc.get store name = None /\ inherits name = true in
  (status (group_route store ds by_) = 400 <-> missing_by)
  /\ (status (group_route store ds by_) = 500 <->
      ~ missing_by /\ inherited)
  /\ (status (group_route store ds by_) = 200 <->
      ~ missing_by /\ ~ inherited).
Proof.
  intros Hne. cbv zeta.
  unfold group_route, ensureLoaded.
  destruct (Assoc.keys store); [congruence|].
  unfold group_handler, store_prop.
  destruct by_ as [[|c b]|].
  - cbn [status error_response]. intuition congruence.
  - destruct (Assoc.get store
                (match ds with Some d => d | None => js "factors" end))
      as [data|] eqn:Eget.
    + cbn [status]. intuition congruence.
    + destruct (inherits
                  (match ds with Some d => d | None => js "factors" end))
        eqn:Einh; cbn [status error_response]; intuition congruence.
  - cbn [status error_response]. intuition congruence.
Qed.

Lemma group_route_status_witness :
  status (group_route [(js "factors", table_states)]
                      (Some (js "constructor")) (Some (js "State"))) = 500
  /\ status (group_route [(js "factors", table_states)]
                         (Some (js "constructor")) None) = 400.
Proof.
  split.
  - apply (group_route_status [(js "factors", table_states)]
                              (Some (js "constructor")) (Some (js "State"))).
    + discriminate.
    + split; [intros [H|H]; discriminate|]. split; reflexivity.
  - apply (group_route_status [(js "factors", table_states)]
                              (Some (js "constructor")) None).
    + discriminate.
    + now left.
Defined.

(** X18. A [/group] query with a [by] (not a property the rows inherit) on a
    dataset of the store answers the groups of that dataset, whose counts add
    up to its number of rows; [ds] defaults to [factors]; and a name that is
    neither a dataset nor an inherited property answers the empty array. *)
Theorem group_route_accounts_for_rows
        (store : Store) (ds : option jsstring) (b : jsstring) :
  Assoc.keys store <> [] ->
  b <> [] ->
  inherits b = false ->
  let name := match ds with Some d => d | None => js "factors" end in
  (forall data,
      Assoc.get store name = Some data ->
      group_route store ds (Some b) =
      {| status := 200; body := GroupsBody (groupBy data b) |}
      /\ total_count (groupBy data b) = List.length data)
  /\ (Assoc.get store name = None -> inherits name = false ->
      group_route store ds (Some b) =
      {| status := 200; body := GroupsBody [] |})
  /\ group_route store None (Some b) =
     group_route store (Some (js "factors")) (Some b).
Proof.
  intros Hne Hb _. cbv zeta.
  unfold group_route, ensureLoaded.
  destruct (Assoc.keys store); [congruence|].
  unfold group_handler, store_prop.
  destruct b as [|c b]; [congruence|].
  split; [|split].
  - intros data ->. split; [reflexivity|].
    unfold total_count. now rewrite groupBy_counts, fold_group_total.
  - intros -> ->. reflexivity.
  - reflexivity.
Qed.

Lemma group_route_accounts_for_rows_witness :
  group_route [(js "factors", table_states)] None (Some (js "State")) =
  {| status := 200;
     body := GroupsBody (groupBy table_states (js "State")) |}.
Proof.
  apply (group_route_accounts_for_rows
           [(js "factors", table_states)] None (js "State")).
  - discriminate.
  - discriminate.
  - reflexivity.
Defined.
